(** * Bearing capacity of soils: a shallow embedding of geolab / geolysis

    The Python sources embedded here are

    - [geolab/bearing_capacity/terzaghi.py]              (module [terzaghi])
    - [geolysis/bearing_capacity/ubc/__init__.py]        (module [ubc])
    - [geolysis/core/foundation.py]                      (module [foundation])
    - [geolysis/core/bearing_capacity/ubc_4_soils/hansen_ubc.py]
                                                         (module [hansen_ubc])
    - [geolysis/core/bearing_capacity/abc_4_soils/abc_4_cohl_soils.py]
                                                         (module [abc_4_cohl_soils])

    Conventions of the embedding.

    - A Python [float] is a real number of [R]: arithmetic is exact, the
      transcendental functions are those of the Standard Library, and the
      only float that is not a real, [inf], is the constructor [INF] of
      [Number].
    - A Python exception is a value of [exn]; a function that can raise
      returns [result A], and [x ← e; k] sequences evaluation in Python's
      left to right order.  The true division [a / b] is [truediv a b] and
      raises [ZeroDivisionError] when [b = 0].
      A division by a non-zero literal is written [/].
    - A [dict] with string keys is a [gmap string R].
    - Methods take the object first; a decorated function is the decorator
      applied to its body. *)

From Stdlib Require Import Reals Lra Lia ZArith.
From stdpp Require Import base decidable option gmap strings.

(** ** Python values, exceptions and built-ins *)

Module py.

Inductive exn : Type :=
| ZeroDivisionError
| ValueError (msg : string)
| TypeError (msg : string)
| SettlementError (msg : string).

Inductive result (A : Type) : Type :=
| Ok (a : A)
| Raise (e : exn).
Arguments Ok {A} a.
Arguments Raise {A} e.

#[global] Instance result_ret : MRet result := @Ok.
#[global] Instance result_bind : MBind result :=
  λ A B f m, match m with Ok a => f a | Raise e => Raise e end.
#[global] Instance result_fmap : FMap result :=
  λ A B f m, match m with Ok a => Ok (f a) | Raise e => Raise e end.

#[global] Instance R_eq_dec : EqDecision R := Req_dec_T.
#[global] Instance Rlt_decision (x y : R) : Decision (x < y)%R := Rlt_dec x y.
#[global] Instance Rle_decision (x y : R) : Decision (x <= y)%R := Rle_dec x y.

(** A float that may be [inf] ([geolysis.core.utils.Number] with [INF]). *)
Inductive Number : Type :=
| Num (r : R)
| INF.

(** A float that is returned and may be [nan]. *)
Inductive Float : Type :=
| Finite (r : R)
| NaN.

#[global] Instance Number_eq_dec : EqDecision Number.
Proof. solve_decision. Defined.

Open Scope R_scope.

(** [a / b] on floats. *)
Definition truediv (a b : R) : result R :=
  if decide (b = 0) then Raise ZeroDivisionError else Ok (a / b).

(** The built-in [round(x, ndigits)]: the nearest multiple of
    [10 ** -ndigits], a tie going to the even neighbour. *)
Definition round_half_even (y : R) : Z :=
  let f := Zfloor y in
  if decide (y - IZR f < 1 / 2) then f
  else if decide (1 / 2 < y - IZR f) then (f + 1)%Z
  else if Z.even f then f else (f + 1)%Z.

Definition round (x : R) (ndigits : nat) : R :=
  IZR (round_half_even (x * 10 ^ ndigits)) / 10 ^ ndigits.

(** [numpy.isclose(a, b)] with its default [rtol=1e-05], [atol=1e-08]. *)
Definition np_isclose (a b : R) : bool :=
  bool_decide (Rabs (a - b) <= 1 / 10 ^ 8 + 1 / 10 ^ 5 * Rabs b).

(** [numpy.deg2rad] / [math.radians] and [math.degrees]. *)
Definition deg2rad (x : R) : R := x * PI / 180.
Definition rad2deg (x : R) : R := x * 180 / PI.

(** [str.isascii]: every character of the string is below 128. *)
Fixpoint isascii (s : string) : bool :=
  match s with
  | EmptyString => true
  | String c s' => (Ascii.nat_of_ascii c <? 128)%nat && isascii s'
  end.

(** [str.casefold] on the strings that satisfy [isascii], where it lowers
    the letters A to Z and keeps every other character.  Outside ASCII
    [str.casefold] folds further characters, some of them to ASCII letters
    (U+017F to s, U+212A to k, the ligature U+FB06 to st); such a string is
    outside the model, and a statement about a tag that is not recognised
    assumes [isascii]. *)
Definition casefold_ascii (c : Ascii.ascii) : Ascii.ascii :=
  let n := Ascii.nat_of_ascii c in
  if ((65 <=? n) && (n <=? 90))%nat then Ascii.ascii_of_nat (n + 32) else c.

Fixpoint casefold (s : string) : string :=
  match s with
  | EmptyString => EmptyString
  | String c s' => String (casefold_ascii c) (casefold s')
  end.

End py.

Import py.

(** ** geolysis/core/utils.py and geolysis/utils.py (helpers) *)

Module utils.

(** Modelled from the spec: the trigonometric helpers of
    [geolysis.core.utils] are missing from the sources; "angles in degrees
    at the boundary, converted to radians internally". *)
Definition sin (x : R) : R := Rtrigo_def.sin (deg2rad x).
Definition cos (x : R) : R := Rtrigo_def.cos (deg2rad x).
Definition tan (x : R) : R := Rtrigo1.tan (deg2rad x).

(** Modelled from the spec: [cot] is missing; the spec names it next to
    [1/tan(φ)] as the division that [Nc] guards at φ≈0. *)
Definition cot (x : R) : result R := truediv 1 (tan x).

(** Modelled from the spec: [arctan] is missing; it is applied to a tangent
    to give back a friction angle, which is in degrees. *)
Definition arctan (x : R) : R := rad2deg (atan x).

(** Modelled from the spec: [exp] and [PI] are missing; the exponential and
    the constant π of the Hansen formula [tan(45+φ/2)² · e^(π·tanφ)]. *)
Definition exp (x : R) : R := Rtrigo_def.exp x.
Definition PI : R := Rtrigo1.PI.

Section tolerance.
(** Modelled from the spec: [isclose] is missing; "an equality test with
    floating-point tolerance".  It is [math.isclose]; the sources call it
    without tolerances, which are then its defaults (for [math.isclose] a
    relative tolerance of 1e-09 and an absolute tolerance of 0.0), and the
    two are left open here. *)
Variables rel_tol abs_tol : R.

Definition isclose (a b : R) : bool :=
  bool_decide (Rabs (a - b) <= Rmax (rel_tol * Rmax (Rabs a) (Rabs b)) abs_tol).
End tolerance.

Section precision.
(** Modelled from the spec: the precision of the engine is missing
    ([geolab.DECIMAL_PLACES], and the digits of
    [geolysis.core.utils.round_]): "a fixed decimal precision
    (consistently applied across the whole engine)". *)
Variable DECIMAL_PLACES : nat.

(** Modelled from the spec: the decorator [round_] is missing; "all outputs
    rounded to a fixed decimal precision before being returned". *)
Definition round_ (f : result R) : result R :=
  v ← f; mret (round v DECIMAL_PLACES).
End precision.

End utils.

(** ** geolysis/core/foundation.py *)

Module foundation.

Inductive Shape : Type := STRIP | CIRCLE | SQUARE | RECTANGLE.

#[global] Instance Shape_eq_dec : EqDecision Shape.
Proof. solve_decision. Defined.

(** The value of a member of the [StrEnum]: [enum.auto()] gives the
    lower-cased member name. *)
Definition Shape_value (s : Shape) : string :=
  match s with
  | STRIP => "strip"
  | CIRCLE => "circle"
  | SQUARE => "square"
  | RECTANGLE => "rectangle"
  end.

(** The four footing classes; they are built by the functions below, which
    run the validators. *)
Inductive FootingSize : Type :=
| mkStripFooting (width : R) (length : Number)
| mkCircularFooting (diameter : R)
| mkSquareFooting (width : R)
| mkRectangularFooting (width : R) (length : R).

(** [attrs.validators.gt(0.0)] *)
Definition validate_gt0 (name : string) (v : R) : result unit :=
  if decide (v > 0) then Ok tt
  else Raise (ValueError ("'" +:+ name +:+ "' must be > 0.0")).

(** [attrs.validators.ge(0.0)] *)
Definition validate_ge0 (name : string) (v : R) : result unit :=
  if decide (v >= 0) then Ok tt
  else Raise (ValueError ("'" +:+ name +:+ "' must be >= 0.0")).

(** [StripFooting(width=width)]: the length is left at its default [INF],
    and [INF > 0.0] holds. *)
Definition StripFooting (width : R) : result FootingSize :=
  _ ← validate_gt0 "width" width; mret (mkStripFooting width INF).

Definition CircularFooting (diameter : R) : result FootingSize :=
  _ ← validate_gt0 "diameter" diameter; mret (mkCircularFooting diameter).

Definition SquareFooting (width : R) : result FootingSize :=
  _ ← validate_gt0 "width" width; mret (mkSquareFooting width).

Definition RectangularFooting (width length : R) : result FootingSize :=
  _ ← validate_gt0 "width" width;
  _ ← validate_gt0 "length" length;
  mret (mkRectangularFooting width length).

Definition shape_ (f : FootingSize) : Shape :=
  match f with
  | mkStripFooting _ _ => STRIP
  | mkCircularFooting _ => CIRCLE
  | mkSquareFooting _ => SQUARE
  | mkRectangularFooting _ _ => RECTANGLE
  end.

(** [width] and [length] of a footing; on a circle and a square they are
    [_ref_field]s that read the diameter and the width. *)
Definition footing_width (f : FootingSize) : R :=
  match f with
  | mkStripFooting w _ => w
  | mkCircularFooting d => d
  | mkSquareFooting w => w
  | mkRectangularFooting w _ => w
  end.

Definition footing_length (f : FootingSize) : Number :=
  match f with
  | mkStripFooting _ l => l
  | mkCircularFooting d => Num d
  | mkSquareFooting w => Num w
  | mkRectangularFooting _ l => Num l
  end.

Record FoundationSize : Type := mkFoundationSize {
  depth : R;
  footing_size : FootingSize;
  eccentricity : R
}.

(** [FoundationSize(depth=, eccentricity=, footing_size=)] with the
    validators of its fields. *)
Definition new_FoundationSize (depth : R) (footing_size : FootingSize)
    (eccentricity : R) : result FoundationSize :=
  _ ← validate_gt0 "depth" depth;
  _ ← validate_ge0 "eccentricity" eccentricity;
  mret (mkFoundationSize depth footing_size eccentricity).

Definition width (fs : FoundationSize) : R := footing_width (footing_size fs).
Definition length (fs : FoundationSize) : Number := footing_length (footing_size fs).
Definition footing_shape (fs : FoundationSize) : Shape := shape_ (footing_size fs).

Definition effective_width (fs : FoundationSize) : R :=
  width fs - 2 * eccentricity fs.

(** [create_foundation]; the shape arrives as a string (a [Shape] is its
    own value), [length] is [None] when it is not given. *)
Definition create_foundation (depth width : R) (length : option R)
    (eccentricity : R) (footing_shape : string) : result FoundationSize :=
  let footing_shape := casefold footing_shape in
  footing_size ←
    (if decide (footing_shape = Shape_value STRIP) then StripFooting width
     else if decide (footing_shape = Shape_value SQUARE) then SquareFooting width
     else if decide (footing_shape = Shape_value CIRCLE) then CircularFooting width
     else if decide (footing_shape = Shape_value RECTANGLE) then
       match length with
       | None => Raise (ValueError "Length of footing must be provided.")
       | Some l =>
           if decide (l = 0) then
             Raise (ValueError "Length of footing must be provided.")
           else RectangularFooting width l
       end
     else Raise (TypeError "Invalid footing shape."));
  new_FoundationSize depth footing_size eccentricity.

End foundation.

(** ** geolab/bearing_capacity/terzaghi.py *)

Module terzaghi.

(** Modelled from the spec: [geolab.utils] is missing from the sources; its
    [cos], [exp] and [tan] are applied to angles already in radians (the
    decorator [deg2rad] converts the friction angle, and [_nq] adds
    [np.deg2rad(45)] to it). *)
Definition cos (x : R) : R := Rtrigo_def.cos x.
Definition exp (x : R) : R := Rtrigo_def.exp x.
Definition tan (x : R) : R := Rtrigo1.tan x.

(** Modelled from the spec: [geolab.utils.product] is missing; the product
    of its arguments, as in "q_u = cN_c + γ D_f N_q + 0.5 γ B N_γ". *)
Definition product (xs : list R) : R := foldl Rmult 1 xs.

Module TerzaghiBCF.
Section precision.
(** Modelled from the spec: [geolab.DECIMAL_PLACES] is missing from the
    sources; "a fixed decimal precision", left open. *)
Variable DECIMAL_PLACES : nat.

Record t : Type := mk { phi : R; ngamma_type : string }.

(** [__init__].  Modelled from the spec: its decorator [geolab.deg2rad] is
    missing from the sources; angles are "in degrees at the boundary,
    converted to radians internally", here the keyword argument
    [friction_angle]. *)
Definition new (ngamma_type : string) (friction_angle : R) : t :=
  mk (deg2rad friction_angle) (casefold ngamma_type).

Definition _nq (phi : R) : result R :=
  let num := exp ((3 * PI / 2 - phi) * tan phi) in
  let den := 2 * cos (deg2rad 45 + phi / 2) ^ 2 in
  truediv num den.

Definition nq (self : t) : result R :=
  v ← _nq (phi self); mret (round v DECIMAL_PLACES).

Definition nc (self : t) : result R :=
  if np_isclose (phi self) 0.0 then mret 5.70
  else
    c ← truediv 1 (tan (phi self));
    q ← _nq (phi self);
    let _nc := c * (q - 1) in
    mret (round _nc DECIMAL_PLACES).

Definition ngamma (self : t) : result R :=
  _ngamma ←
    (if decide (ngamma_type self = "meyerhof") then
       q ← _nq (phi self); mret ((q - 1) * tan (1.4 * phi self))
     else if decide (ngamma_type self = "hansen") then
       q ← _nq (phi self); mret (1.8 * (q - 1) * tan (phi self))
     else Raise (TypeError "Available types are Meyerhof or Hansen"));
  mret (round _ngamma DECIMAL_PLACES).
End precision.
End TerzaghiBCF.

Module TBC.
Section precision.
(** [geolab.DECIMAL_PLACES], as in [TerzaghiBCF]. *)
Variable DECIMAL_PLACES : nat.

Record t : Type := mk {
  cohesion : R;
  gamma : R;
  fd : R;
  fw : R;
  _bearing_cap_factors : TerzaghiBCF.t
}.

Definition new (cohesion friction_angle unit_weight_of_soil
    foundation_depth foundation_width : R) (ngamma_type : string) : t :=
  mk cohesion unit_weight_of_soil foundation_depth foundation_width
     (TerzaghiBCF.new ngamma_type friction_angle).

Definition nq (self : t) : result R :=
  TerzaghiBCF.nq DECIMAL_PLACES (_bearing_cap_factors self).
Definition nc (self : t) : result R :=
  TerzaghiBCF.nc DECIMAL_PLACES (_bearing_cap_factors self).
Definition ngamma (self : t) : result R :=
  TerzaghiBCF.ngamma DECIMAL_PLACES (_bearing_cap_factors self).

Definition qult_4_strip_footing (self : t) : result R :=
  n_c ← nc self;
  n_q ← nq self;
  n_g ← ngamma self;
  let qult :=
    product [cohesion self; n_c]
    + product [gamma self; fd self; n_q]
    + product [0.5; gamma self; fw self; n_g] in
  mret (round qult DECIMAL_PLACES).

Definition qult_4_square_footing (self : t) : result R :=
  n_c ← nc self;
  n_q ← nq self;
  n_g ← ngamma self;
  let qult :=
    product [1.2; cohesion self; n_c]
    + product [gamma self; fd self; n_q]
    + product [0.4; gamma self; fw self; n_g] in
  mret (round qult DECIMAL_PLACES).

Definition qult_4_circular_footing (self : t) : result R :=
  n_c ← nc self;
  n_q ← nq self;
  n_g ← ngamma self;
  let qult :=
    product [1.2; cohesion self; n_c]
    + product [gamma self; fd self; n_q]
    + product [0.3; gamma self; fw self; n_g] in
  mret (round qult DECIMAL_PLACES).
End precision.
End TBC.

End terzaghi.

(** ** geolysis/bearing_capacity/ubc/__init__.py *)

Module ubc.
Import foundation.

Record UltimateBearingCapacity : Type := mkUltimateBearingCapacity {
  _friction_angle : R;
  _cohesion : R;
  moist_unit_wgt : R;
  _load_angle : R;
  ground_water_level : Number;
  foundation_size : FoundationSize;
  apply_local_shear : bool
}.

(** The three validating setters; each returns the value it stores. *)
Definition set_friction_angle (val : R) : result R :=
  if decide (val < 0) then
    Raise (ValueError "Friction angle must be greater than 0.")
  else Ok val.

Definition set_cohesion (val : R) : result R :=
  if decide (val < 0) then
    Raise (ValueError "Cohesion must be greater than 0.")
  else Ok val.

Definition set_load_angle (val : R) : result R :=
  if decide (0 <= val <= 90) then Ok val
  else Raise (ValueError "Load angle must be between 0 and 90 degrees.").

(** [__init__]: the three membership tests, then the assignments in the
    order of the source; [moist_unit_wgt] is a plain attribute. *)
Definition new (soil_properties : gmap string R)
    (foundation_size : FoundationSize) (load_angle : R)
    (ground_water_level : Number) (apply_local_shear : bool)
    : result UltimateBearingCapacity :=
  match soil_properties !! "friction_angle" with
  | None => Raise (ValueError "friction_angle is required.")
  | Some friction_angle =>
    match soil_properties !! "cohesion" with
    | None => Raise (ValueError "cohesion is required.")
    | Some cohesion =>
      match soil_properties !! "moist_unit_wgt" with
      | None => Raise (ValueError "moist_unit_wgt is required.")
      | Some moist_unit_wgt =>
          fa ← set_friction_angle friction_angle;
          c ← set_cohesion cohesion;
          la ← set_load_angle load_angle;
          mret (mkUltimateBearingCapacity fa c moist_unit_wgt la
                  ground_water_level foundation_size apply_local_shear)
      end
    end
  end.

(** The getters of the properties. *)
Definition friction_angle (self : UltimateBearingCapacity) : R :=
  if apply_local_shear self then
    utils.arctan ((2 / 3) * utils.tan (_friction_angle self))
  else _friction_angle self.

Definition cohesion (self : UltimateBearingCapacity) : R :=
  if apply_local_shear self then (2 / 3) * _cohesion self
  else _cohesion self.

Definition load_angle (self : UltimateBearingCapacity) : R := _load_angle self.

(** A concrete subclass: the three abstract properties [n_c], [n_q],
    [n_gamma], and the nine factor properties it may override. *)
Class Subclass : Type := {
  n_c : UltimateBearingCapacity → result R;
  n_q : UltimateBearingCapacity → result R;
  n_gamma : UltimateBearingCapacity → result R;
  s_c : UltimateBearingCapacity → result R;
  s_q : UltimateBearingCapacity → result R;
  s_gamma : UltimateBearingCapacity → result R;
  d_c : UltimateBearingCapacity → result R;
  d_q : UltimateBearingCapacity → result R;
  d_gamma : UltimateBearingCapacity → result R;
  i_c : UltimateBearingCapacity → result R;
  i_q : UltimateBearingCapacity → result R;
  i_gamma : UltimateBearingCapacity → result R
}.

(** The factor properties of the base class all [return 1.0]; a subclass
    that overrides none of them is [inherit n_c n_q n_gamma]. *)
Definition base_factor (self : UltimateBearingCapacity) : result R := mret 1.0.

Definition inherit (n_c n_q n_gamma : UltimateBearingCapacity → result R)
    : Subclass :=
  {| n_c := n_c; n_q := n_q; n_gamma := n_gamma;
     s_c := base_factor; s_q := base_factor; s_gamma := base_factor;
     d_c := base_factor; d_q := base_factor; d_gamma := base_factor;
     i_c := base_factor; i_q := base_factor; i_gamma := base_factor |}.

Section methods.
Context `{Subclass}.

Definition _cohesion_term (self : UltimateBearingCapacity) (coef : R)
    : result R :=
  nc ← n_c self;
  sc ← s_c self;
  dc ← d_c self;
  ic ← i_c self;
  mret (coef * cohesion self * nc * sc * dc * ic).

(** The local [water_corr] of [_surcharge_term]. *)
Definition surcharge_water_corr (self : UltimateBearingCapacity)
    : result R :=
  let depth := depth (foundation_size self) in
  match ground_water_level self with
  | INF => mret 1.0
  | Num ground_water_level =>
      let a := Rmax (depth - ground_water_level) 0.0 in
      q ← truediv (0.5 * a) depth;
      mret (Rmin (1 - q) 1)
  end.

Definition _surcharge_term (self : UltimateBearingCapacity) : result R :=
  let depth := depth (foundation_size self) in
  water_corr ← surcharge_water_corr self;
  let eop := moist_unit_wgt self * depth in
  nq ← n_q self;
  sq ← s_q self;
  dq ← d_q self;
  iq ← i_q self;
  mret (eop * nq * sq * dq * iq * water_corr).

(** The local [water_corr] of [_embedment_term]. *)
Definition embedment_water_corr (self : UltimateBearingCapacity)
    : result R :=
  let depth := depth (foundation_size self) in
  let width := effective_width (foundation_size self) in
  match ground_water_level self with
  | INF => mret 1.0
  | Num ground_water_level =>
      let b := Rmax (ground_water_level - depth) 0 in
      q ← truediv (0.5 * b) width;
      mret (Rmin (0.5 + q) 1)
  end.

Definition _embedment_term (self : UltimateBearingCapacity) (coef : R)
    : result R :=
  let width := effective_width (foundation_size self) in
  water_corr ← embedment_water_corr self;
  ng ← n_gamma self;
  sg ← s_gamma self;
  dg ← d_gamma self;
  ig ← i_gamma self;
  mret (coef * moist_unit_wgt self * width * ng * sg * dg * ig * water_corr).

Definition bearing_capacity (self : UltimateBearingCapacity) : result R :=
  c ← _cohesion_term self 1.0;
  s ← _surcharge_term self;
  e ← _embedment_term self 0.5;
  mret (c + s + e).
End methods.

End ubc.

(** ** geolysis/core/bearing_capacity/ubc_4_soils/hansen_ubc.py *)

Module hansen_ubc.
Import foundation.

(** Modelled from the spec: [d2w] is imported from the package
    [geolysis.core.bearing_capacity.ubc_4_soils], whose [__init__] is
    missing; "when depth/width exceeds 1, the correction uses
    [arctan(depth/width)] instead of the raw ratio, otherwise uses the raw
    ratio directly". *)
Definition d2w (f_d f_w : R) : result R :=
  d2w ← truediv f_d f_w;
  mret (if decide (d2w > 1) then utils.arctan d2w else d2w).

Section engine.
(** The precision of [round_] and the tolerances of [isclose], see
    [utils]. *)
Variable DECIMAL_PLACES : nat.
Variables rel_tol abs_tol : R.

Local Abbreviation round_ := (utils.round_ DECIMAL_PLACES).
Local Abbreviation isclose := (utils.isclose rel_tol abs_tol).

(** *** HansenBearingCapacityFactor *)

Definition n_q (sfa : R) : result R :=
  round_ (mret (utils.tan (45 + sfa / 2) ^ 2
                * utils.exp (utils.PI * utils.tan sfa))).

Definition n_c (sfa : R) : result R :=
  round_ (if isclose sfa 0.0 then mret 5.14
          else
            c ← utils.cot sfa;
            q ← n_q sfa;
            mret (c * (q - 1))).

Definition n_gamma (sfa : R) : result R :=
  round_ (q ← n_q sfa; mret (1.8 * (q - 1) * utils.tan sfa)).

(** *** HansenShapeFactor; the [case _] of each [match] is not reached by
    a member of [Shape]. *)

Definition s_c (f_w f_l : R) (footing_type : Shape) : result R :=
  round_ (match footing_type with
          | STRIP => mret 10
          | RECTANGLE => q ← truediv (0.2 * f_w) f_l; mret (1 + q)
          | SQUARE | CIRCLE => mret 1.3
          end).

Definition s_q (f_w f_l : R) (footing_type : Shape) : result R :=
  round_ (match footing_type with
          | STRIP => mret 1.0
          | RECTANGLE => q ← truediv (0.2 * f_w) f_l; mret (1 + q)
          | SQUARE | CIRCLE => mret 1.2
          end).

Definition s_gamma (f_w f_l : R) (footing_type : Shape) : result R :=
  round_ (match footing_type with
          | STRIP => mret 1.0
          | RECTANGLE => q ← truediv (0.4 * f_w) f_l; mret (1 - q)
          | SQUARE => mret 0.8
          | CIRCLE => mret 0.6
          end).

(** *** HansenDepthFactor *)

Definition d_c (f_d f_w : R) : result R :=
  round_ (k ← d2w f_d f_w; mret (1 + 0.4 * k)).

Definition d_q (sfa f_d f_w : R) : result R :=
  round_ (if decide (sfa > 25.0) then d_c f_d f_w
          else
            k ← d2w f_d f_w;
            mret (1 + 2 * utils.tan sfa * (1 - utils.sin sfa) ^ 2 * k)).

Definition d_gamma : result R := round_ (mret 1.0).

(** *** HansenInclinationFactor; [i_q] and [i_gamma] carry no [round_]. *)

(** [i_c]; the length [f_l] is [INF] on a strip.  The float
    [2 * cohesion * f_w * INF] is [nan] when [2 * cohesion * f_w] is 0 and
    an infinity otherwise; a cosine divided by an infinity is 0, and
    divided by [nan] it is [nan], which the subtraction and [round] keep. *)
Definition i_c (cohesion load_angle f_w : R) (f_l : Number) : result Float :=
  match f_l with
  | Num f_l =>
      Finite <$>
        round_ (q ← truediv (utils.cos load_angle) (2 * cohesion * f_w * f_l);
                mret (1 - q))
  | INF =>
      if decide (2 * cohesion * f_w = 0) then mret NaN
      else Finite <$> round_ (mret (1 - 0))
  end.

Definition i_q (load_angle : R) : result R :=
  q ← truediv (1.5 * utils.cos load_angle) (utils.sin load_angle);
  mret (1 - q).

Definition i_gamma (load_angle : R) : result R :=
  q ← i_q load_angle; mret (q ^ 2).

(** *** HansenUBC.bearing_capacity; [_coh_expr], [_surcharge_expr] and
    [_emb_expr] are methods of a base class that is missing from the
    sources, and stand here for what they return. *)
Section HansenUBC.
Variables _coh_expr _surcharge_expr _emb_expr : result R.

Definition bearing_capacity : result R :=
  round_ (e ← _emb_expr;
          let _emb_t := 0.5 * e in
          c ← _coh_expr;
          s ← _surcharge_expr;
          mret (c + s + _emb_t)).
End HansenUBC.
End engine.

End hansen_ubc.

(** ** geolysis/core/bearing_capacity/abc_4_soils/abc_4_cohl_soils.py *)

Module abc_4_cohl_soils.
Import foundation.

Definition _chk_settlement (tol_settlement max_tol_settlement : R)
    : result unit :=
  if decide (tol_settlement > max_tol_settlement) then
    Raise (SettlementError "tol_settlement should not be greater than 25.4.")
  else Ok tt.

(** Maximum tolerable foundation settlement. *)
Definition MAX_TOL_SETTLEMENT : R := 25.4.

(** The objects of the six classes, with the attributes [__init__] stores. *)
Inductive BearingCapacity : Type :=
| BowlesABC4PadFoundation (corrected_spt_number : R)
    (foundation_size : FoundationSize)
| BowlesABC4MatFoundation (corrected_spt_number : R)
    (foundation_size : FoundationSize)
| MeyerhofABC4PadFoundation (corrected_spt_number : R)
    (foundation_size : FoundationSize)
| MeyerhofABC4MatFoundation (corrected_spt_number : R)
    (foundation_size : FoundationSize)
| TerzaghiABC4PadFoundation (corrected_spt_number : R)
    (foundation_size : FoundationSize) (water_depth : R)
| TerzaghiABC4MatFoundation (corrected_spt_number : R)
    (foundation_size : FoundationSize) (water_depth : R).

(** The six [__init__]: the attributes are assigned, then the settlement is
    checked. *)
Definition new_BowlesABC4PadFoundation (corrected_spt_number tol_settlement : R)
    (foundation_size : FoundationSize) : result BearingCapacity :=
  _ ← _chk_settlement tol_settlement MAX_TOL_SETTLEMENT;
  mret (BowlesABC4PadFoundation corrected_spt_number foundation_size).

Definition new_BowlesABC4MatFoundation (corrected_spt_number tol_settlement : R)
    (foundation_size : FoundationSize) : result BearingCapacity :=
  _ ← _chk_settlement tol_settlement MAX_TOL_SETTLEMENT;
  mret (BowlesABC4MatFoundation corrected_spt_number foundation_size).

Definition new_MeyerhofABC4PadFoundation (corrected_spt_number tol_settlement : R)
    (foundation_size : FoundationSize) : result BearingCapacity :=
  _ ← _chk_settlement tol_settlement MAX_TOL_SETTLEMENT;
  mret (MeyerhofABC4PadFoundation corrected_spt_number foundation_size).

Definition new_MeyerhofABC4MatFoundation (corrected_spt_number tol_settlement : R)
    (foundation_size : FoundationSize) : result BearingCapacity :=
  _ ← _chk_settlement tol_settlement MAX_TOL_SETTLEMENT;
  mret (MeyerhofABC4MatFoundation corrected_spt_number foundation_size).

Definition new_TerzaghiABC4PadFoundation
    (corrected_spt_number tol_settlement water_depth : R)
    (foundation_size : FoundationSize) : result BearingCapacity :=
  _ ← _chk_settlement tol_settlement MAX_TOL_SETTLEMENT;
  mret (TerzaghiABC4PadFoundation corrected_spt_number foundation_size
          water_depth).

Definition new_TerzaghiABC4MatFoundation
    (corrected_spt_number tol_settlement water_depth : R)
    (foundation_size : FoundationSize) : result BearingCapacity :=
  _ ← _chk_settlement tol_settlement MAX_TOL_SETTLEMENT;
  mret (TerzaghiABC4MatFoundation corrected_spt_number foundation_size
          water_depth).

(** The constructors of the module, by class. *)
Inductive abc_class : Type :=
| Bowles_pad | Bowles_mat | Meyerhof_pad | Meyerhof_mat
| Terzaghi_pad | Terzaghi_mat.

(** [construct cls N S Dw fs] calls the [__init__] of [cls]; the water depth
    [Dw] is passed to the two Terzaghi classes only. *)
Definition construct (cls : abc_class)
    (corrected_spt_number tol_settlement water_depth : R)
    (foundation_size : FoundationSize) : result BearingCapacity :=
  match cls with
  | Bowles_pad =>
      new_BowlesABC4PadFoundation corrected_spt_number tol_settlement
        foundation_size
  | Bowles_mat =>
      new_BowlesABC4MatFoundation corrected_spt_number tol_settlement
        foundation_size
  | Meyerhof_pad =>
      new_MeyerhofABC4PadFoundation corrected_spt_number tol_settlement
        foundation_size
  | Meyerhof_mat =>
      new_MeyerhofABC4MatFoundation corrected_spt_number tol_settlement
        foundation_size
  | Terzaghi_pad =>
      new_TerzaghiABC4PadFoundation corrected_spt_number tol_settlement
        water_depth foundation_size
  | Terzaghi_mat =>
      new_TerzaghiABC4MatFoundation corrected_spt_number tol_settlement
        water_depth foundation_size
  end.

End abc_4_cohl_soils.

(** ** abc_4_cohl_soils.py: [_get_attributes] and [bearing_capacity] *)

Module abc_bearing_capacity.
Import foundation abc_4_cohl_soils.

(** What a call of [bearing_capacity] can raise: the [AttributeError] of a
    name that the object does not have, or an exception of [exn]. *)
Inductive raised : Type :=
| AttributeError (name : string)
| Exn (e : exn).

Inductive outcome (A : Type) : Type :=
| Returns (a : A)
| Raises (r : raised).
Arguments Returns {A} a.
Arguments Raises {A} r.

#[global] Instance outcome_ret : MRet outcome := @Returns.
#[global] Instance outcome_bind : MBind outcome :=
  λ A B f m, match m with Returns a => f a | Raises r => Raises r end.

Definition lift {A : Type} (r : result A) : outcome A :=
  match r with
  | Ok a => Returns a
  | Raise e => Raises (Exn e)
  end.

(** The attributes that [__init__] stores. *)
Definition corrected_spt_number (self : BearingCapacity) : R :=
  match self with
  | BowlesABC4PadFoundation n _ | BowlesABC4MatFoundation n _
  | MeyerhofABC4PadFoundation n _ | MeyerhofABC4MatFoundation n _
  | TerzaghiABC4PadFoundation n _ _ | TerzaghiABC4MatFoundation n _ _ => n
  end.

Definition foundation_size (self : BearingCapacity) : FoundationSize :=
  match self with
  | BowlesABC4PadFoundation _ fs | BowlesABC4MatFoundation _ fs
  | MeyerhofABC4PadFoundation _ fs | MeyerhofABC4MatFoundation _ fs
  | TerzaghiABC4PadFoundation _ fs _ | TerzaghiABC4MatFoundation _ fs _ => fs
  end.

Definition water_depth (self : BearingCapacity) : outcome R :=
  match self with
  | TerzaghiABC4PadFoundation _ _ wd | TerzaghiABC4MatFoundation _ _ wd =>
      Returns wd
  | _ => Raises (AttributeError "water_depth")
  end.

(** The float attributes that the instance has beside those of [__init__]:
    a caller adds them by assignment, and the instance has none when
    [__init__] returns.  [getattr] looks one up. *)
Definition getattr (late : gmap string R) (name : string) : outcome R :=
  match late !! name with
  | Some v => Returns v
  | None => Raises (AttributeError name)
  end.

Definition _get_attributes (self : BearingCapacity) (late : gmap string R)
    : outcome (R * R * R * R) :=
  let B := width (foundation_size self) in
  let D := depth (foundation_size self) in
  tol_settlement ← getattr late "tol_settlement";
  max_tol_settlement ← getattr late "MAX_TOL_SETTLEMENT";
  SR ← lift (truediv tol_settlement max_tol_settlement);
  let N_CORR := corrected_spt_number self in
  mret (B, D, SR, N_CORR).

Section precision.
(** The precision of [round_], see [utils]. *)
Variable DECIMAL_PLACES : nat.

(** The decorator [round_] of [utils] on an outcome.  The outer decorator
    [quantity("Pressure")], missing from the sources, attaches the unit to
    the value and is left out. *)
Definition round_ (f : outcome R) : outcome R :=
  v ← f; mret (round v DECIMAL_PLACES).

Definition BowlesABC4PadFoundation_bearing_capacity (self : BearingCapacity)
    (late : gmap string R) : outcome R :=
  round_ ('(B, D, SR, N_CORR) ← _get_attributes self late;
          q ← lift (truediv (0.33 * D) B);
          let FD := Rmin (1 + q) 1.33 in
          if decide (B <= 1.2) then mret (19.16 * N_CORR * FD * SR)
          else
            r ← lift (truediv (3.28 * B + 1) (3.28 * B));
            mret (11.98 * N_CORR * r ^ 2 * FD * SR)).

Definition BowlesABC4MatFoundation_bearing_capacity (self : BearingCapacity)
    (late : gmap string R) : outcome R :=
  round_ ('(B, D, SR, N_CORR) ← _get_attributes self late;
          q ← lift (truediv (0.33 * D) B);
          let FD := Rmin (1 + q) 1.33 in
          mret (11.98 * N_CORR * FD * SR)).

Definition MeyerhofABC4PadFoundation_bearing_capacity (self : BearingCapacity)
    (late : gmap string R) : outcome R :=
  round_ ('(B, D, SR, N_CORR) ← _get_attributes self late;
          q ← lift (truediv (0.33 * D) B);
          let FD := Rmin (1 + q) 1.33 in
          if decide (B <= 1.2) then mret (12 * N_CORR * FD * SR)
          else
            r ← lift (truediv (3.28 * B + 1) (3.28 * B));
            mret (8 * N_CORR * r ^ 2 * FD * SR)).

Definition MeyerhofABC4MatFoundation_bearing_capacity (self : BearingCapacity)
    (late : gmap string R) : outcome R :=
  round_ ('(B, D, SR, N_CORR) ← _get_attributes self late;
          q ← lift (truediv (0.33 * D) B);
          let FD := Rmin (1 + q) 1.33 in
          mret (8 * N_CORR * FD * SR)).

(** The water correction [CW] of the two Terzaghi methods. *)
Definition water_correction (self : BearingCapacity) (B D : R) : outcome R :=
  water_depth ← water_depth self;
  CW ← (if decide (water_depth <= D) then
          q ← lift (truediv D (2 * B)); mret (2 - q)
        else
          q ← lift (truediv water_depth (2 * B)); mret (2 - q));
  mret (Rmin CW 2).

Definition TerzaghiABC4PadFoundation_bearing_capacity (self : BearingCapacity)
    (late : gmap string R) : outcome R :=
  round_ ('(B, D, SR, N_CORR) ← _get_attributes self late;
          q ← lift (truediv (0.25 * D) B);
          let FD := Rmin (1 + q) 1.25 in
          CW ← water_correction self B D;
          if decide (B <= 1.2) then
            i ← lift (truediv 1 (CW * FD));
            mret (12 * N_CORR * i * SR)
          else
            r ← lift (truediv (3.28 * B + 1) (3.28 * B));
            i ← lift (truediv 1 (CW * FD));
            mret (8 * N_CORR * r ^ 2 * i * SR)).

Definition TerzaghiABC4MatFoundation_bearing_capacity (self : BearingCapacity)
    (late : gmap string R) : outcome R :=
  round_ ('(B, D, SR, N_CORR) ← _get_attributes self late;
          q ← lift (truediv (0.25 * D) B);
          let FD := Rmin (1 + q) 1.25 in
          CW ← water_correction self B D;
          i ← lift (truediv 1 (CW * FD));
          mret (8 * N_CORR * i * SR)).

(** [self.bearing_capacity()]: the method of the class of [self]. *)
Definition bearing_capacity (self : BearingCapacity) (late : gmap string R)
    : outcome R :=
  match self with
  | BowlesABC4PadFoundation _ _ =>
      BowlesABC4PadFoundation_bearing_capacity self late
  | BowlesABC4MatFoundation _ _ =>
      BowlesABC4MatFoundation_bearing_capacity self late
  | MeyerhofABC4PadFoundation _ _ =>
      MeyerhofABC4PadFoundation_bearing_capacity self late
  | MeyerhofABC4MatFoundation _ _ =>
      MeyerhofABC4MatFoundation_bearing_capacity self late
  | TerzaghiABC4PadFoundation _ _ _ =>
      TerzaghiABC4PadFoundation_bearing_capacity self late
  | TerzaghiABC4MatFoundation _ _ _ =>
      TerzaghiABC4MatFoundation_bearing_capacity self late
  end.
End precision.

End abc_bearing_capacity.

(** * Definitions used by the statements *)

Import foundation.

(** ** Order on returned values *)


(** Both calls return, and the first value is not above the second. *)
Definition returned_le (r1 r2 : result R) : Prop :=
  match r1, r2 with
  | Ok a, Ok b => a <= b
  | _, _ => False
  end.

(** ** The factors before rounding *)

(** What [TerzaghiBCF._nq] returns at [phi] radians, its denominator
    [2 cos² (45° + phi / 2)] written as [1 - sin phi]. *)
Definition terzaghi_nq_raw (phi : R) : R :=
  exp ((3 * PI / 2 - phi) * tan phi) / (1 - sin phi).

(** What [TerzaghiBCF.nc] rounds away from zero. *)
Definition terzaghi_nc_raw (x : R) : R := 1 / tan x * (terzaghi_nq_raw x - 1).

(** The exponent of [terzaghi_nq_raw]. *)
Definition terzaghi_g (x : R) : R := (3 * PI / 2 - x) * tan x.

(** The slope of the chord of [exp] from 0. *)
Definition exp_chord (y : R) : R := (exp y - 1) / y.

(** The two other parts of [terzaghi_nc_raw], see
    [terzaghi_nc_raw_split]. *)
Definition terzaghi_k (x : R) : R := (3 * PI / 2 - x) / (1 - sin x).
Definition terzaghi_m (x : R) : R := (1 + sin x) / cos x.

(** What [HansenBearingCapacityFactor.n_q] rounds, at [sfa] degrees. *)
Definition hansen_nq_raw (sfa : R) : R :=
  utils.tan (45 + sfa / 2) ^ 2 * utils.exp (utils.PI * utils.tan sfa).

(** ** The superposition as the claim words it *)

(** The leading constants that the claim attaches to a footing shape (the
    spec lists no pair for a rectangle; the strip pair stands for it). *)
Definition coef_c (shape : Shape) : R :=
  match shape with
  | STRIP => 1.0
  | SQUARE => 1.2
  | CIRCLE => 1.2
  | RECTANGLE => 1.0
  end.

Definition coef_gamma (shape : Shape) : R :=
  match shape with
  | STRIP => 0.5
  | SQUARE => 0.4
  | CIRCLE => 0.3
  | RECTANGLE => 0.5
  end.

(** The three terms, with the leading constants taken from the footing
    shape of the foundation. *)
Definition superposition_by_shape `{ubc.Subclass}
    (self : ubc.UltimateBearingCapacity) : result R :=
  let shape := footing_shape (ubc.foundation_size self) in
  c ← ubc._cohesion_term self (coef_c shape);
  s ← ubc._surcharge_term self;
  e ← ubc._embedment_term self (coef_gamma shape);
  mret (c + s + e).

(** ** Objects used as examples *)

(** A subclass of [UltimateBearingCapacity] that overrides none of the
    factor properties and takes [n_c], [n_q], [n_gamma] from [TerzaghiBCF]
    at the friction angle of the object. *)
Definition terzaghi_subclass (dp : nat) : ubc.Subclass :=
  ubc.inherit
    (λ self, terzaghi.TerzaghiBCF.nc dp
               (terzaghi.TerzaghiBCF.new "Meyerhof" (ubc.friction_angle self)))
    (λ self, terzaghi.TerzaghiBCF.nq dp
               (terzaghi.TerzaghiBCF.new "Meyerhof" (ubc.friction_angle self)))
    (λ self, terzaghi.TerzaghiBCF.ngamma dp
               (terzaghi.TerzaghiBCF.new "Meyerhof" (ubc.friction_angle self))).

(** A square footing, 2 m wide and 1.5 m deep. *)
Definition square_2m : FoundationSize :=
  mkFoundationSize 1.5 (mkSquareFooting 2) 0.

(** A purely cohesive soil under that footing, without a water table. *)
Definition clay_under_square : ubc.UltimateBearingCapacity :=
  ubc.mkUltimateBearingCapacity 0 20 18 0 INF square_2m false.

(** A soil record with a negative unit weight. *)
Definition soil_negative_weight : gmap string R :=
  <["friction_angle" := 30]> (<["cohesion" := 10]> (<["moist_unit_wgt" := -18]> ∅)).

(** A strip footing with the water table 0.4 m below the ground. *)
Definition strip_with_water : ubc.UltimateBearingCapacity :=
  ubc.mkUltimateBearingCapacity 35 15 18 0 (Num 0.4)
    (mkFoundationSize 1.5 (mkStripFooting 2 INF) 0) false.

(** ** The water table as a parameter *)

(** The object with its attribute [ground_water_level] set to [level]. *)
Definition with_water_level (self : ubc.UltimateBearingCapacity)
    (level : Number) : ubc.UltimateBearingCapacity :=
  ubc.mkUltimateBearingCapacity (ubc._friction_angle self) (ubc._cohesion self)
    (ubc.moist_unit_wgt self) (ubc._load_angle self) level
    (ubc.foundation_size self) (ubc.apply_local_shear self).

(** A subclass whose twelve factor properties do not read the water
    level. *)
Definition water_blind (sub : ubc.Subclass) : Prop :=
  ∀ (self : ubc.UltimateBearingCapacity) (level : Number),
    let self' := with_water_level self level in
    ubc.n_c self' = ubc.n_c self ∧ ubc.n_q self' = ubc.n_q self
    ∧ ubc.n_gamma self' = ubc.n_gamma self
    ∧ ubc.s_c self' = ubc.s_c self ∧ ubc.s_q self' = ubc.s_q self
    ∧ ubc.s_gamma self' = ubc.s_gamma self
    ∧ ubc.d_c self' = ubc.d_c self ∧ ubc.d_q self' = ubc.d_q self
    ∧ ubc.d_gamma self' = ubc.d_gamma self
    ∧ ubc.i_c self' = ubc.i_c self ∧ ubc.i_q self' = ubc.i_q self
    ∧ ubc.i_gamma self' = ubc.i_gamma self.

(** ** Allowable bearing capacity: objects and order *)

(** The attributes a caller assigns on an object before
    [bearing_capacity]: [self.tol_settlement = tol] and
    [self.MAX_TOL_SETTLEMENT = max]. *)
Definition assigned (tol max : R) : gmap string R :=
  <["tol_settlement" := tol]> (<["MAX_TOL_SETTLEMENT" := max]> ∅).

(** Both calls return, and the first value is not above the second. *)
Definition outcome_le (o1 o2 : abc_bearing_capacity.outcome R) : Prop :=
  match o1, o2 with
  | abc_bearing_capacity.Returns a, abc_bearing_capacity.Returns b => a <= b
  | _, _ => False
  end.

(** * Properties *)

(** ** Rounding *)

Lemma pow10_pos (n : nat) : 0 < 10 ^ n.
Proof. apply pow_lt; lra. Qed.

Lemma pow10_IZR (n : nat) : 10 ^ n = IZR (10 ^ Z.of_nat n).
Proof.
  rewrite <- pow_IZR. reflexivity.
Qed.

Lemma round_half_even_IZR (z : Z) : round_half_even (IZR z) = z.
Proof.
  unfold round_half_even. rewrite ZfloorZ.
  destruct (decide (IZR z - IZR z < 1 / 2)) as [_|H]; [reflexivity|].
  exfalso; apply H; lra.
Qed.

Lemma round_half_even_bounds (y : R) :
  y - 1 / 2 <= IZR (round_half_even y) <= y + 1 / 2.
Proof.
  unfold round_half_even.
  pose proof (Zfloor_bound y) as [Hl Hu].
  repeat case_decide; try destruct (Z.even _); rewrite ?plus_IZR; lra.
Qed.

Lemma round_half_even_mono (x y : R) :
  x <= y -> (round_half_even x <= round_half_even y)%Z.
Proof.
  intros Hxy.
  pose proof (Zfloor_le x y Hxy) as Hf.
  pose proof (Zfloor_bound x) as [Hxl Hxu].
  pose proof (Zfloor_bound y) as [Hyl Hyu].
  destruct (Z.eq_dec (Zfloor x) (Zfloor y)) as [E|NE].
  - unfold round_half_even. rewrite <- E.
    repeat case_decide; try destruct (Z.even _); try lia; exfalso; lra.
  - assert (Zfloor x + 1 <= Zfloor y)%Z as Hlt by lia.
    assert (round_half_even x <= Zfloor x + 1)%Z.
    { unfold round_half_even.
      repeat case_decide; try destruct (Z.even _); lia. }
    assert (Zfloor y <= round_half_even y)%Z.
    { unfold round_half_even.
      repeat case_decide; try destruct (Z.even _); lia. }
    lia.
Qed.

Lemma round_of_decimal (z : Z) (n : nat) : round (IZR z / 10 ^ n) n = IZR z / 10 ^ n.
Proof.
  unfold round.
  replace (IZR z / 10 ^ n * 10 ^ n) with (IZR z).
  - now rewrite round_half_even_IZR.
  - field. apply Rgt_not_eq, pow10_pos.
Qed.

Lemma round_idem (x : R) (n : nat) : round (round x n) n = round x n.
Proof. unfold round at 2 3. apply round_of_decimal. Qed.

Lemma round_mono (x y : R) (n : nat) : x <= y -> round x n <= round y n.
Proof.
  intros Hxy. unfold round.
  pose proof (pow10_pos n) as Hp.
  apply Rmult_le_compat_r; [left; now apply Rinv_0_lt_compat|].
  apply IZR_le, round_half_even_mono.
  apply Rmult_le_compat_r; lra.
Qed.

Lemma round_IZR (z : Z) (n : nat) : round (IZR z) n = IZR z.
Proof.
  replace (IZR z) with (IZR (z * 10 ^ Z.of_nat n) / 10 ^ n) at 1 2.
  - apply round_of_decimal.
  - rewrite mult_IZR, <- pow10_IZR. field. apply Rgt_not_eq, pow10_pos.
Qed.

Lemma round_error (x : R) (n : nat) : Rabs (round x n - x) <= / 2 / 10 ^ n.
Proof.
  unfold round. pose proof (pow10_pos n) as Hp.
  pose proof (round_half_even_bounds (x * 10 ^ n)) as [Hl Hu].
  set (r := IZR (round_half_even (x * 10 ^ n))) in *.
  replace (r / 10 ^ n - x) with ((r - x * 10 ^ n) / 10 ^ n) by (field; lra).
  unfold Rdiv at 1. rewrite Rabs_mult, (Rabs_pos_eq (/ 10 ^ n)).
  - apply Rmult_le_compat_r; [left; now apply Rinv_0_lt_compat|].
    apply Rabs_le; lra.
  - left; now apply Rinv_0_lt_compat.
Qed.

(** A decimal with [k] digits is kept by a precision of at least [k]. *)
Lemma round_of_short_decimal (z : Z) (k n : nat) :
  (k <= n)%nat -> round (IZR z / 10 ^ k) n = IZR z / 10 ^ k.
Proof.
  intros Hkn.
  replace (IZR z / 10 ^ k) with (IZR (z * 10 ^ Z.of_nat (n - k)) / 10 ^ n) at 1 2.
  - apply round_of_decimal.
  - rewrite mult_IZR, <- pow10_IZR.
    replace n with ((n - k) + k)%nat at 2 by lia.
    rewrite pow_add. field.
    split; apply Rgt_not_eq, pow10_pos.
Qed.

(** ** The monad of results *)

Lemma bind_Ok {A B} (a : A) (k : A → result B) : (Ok a ≫= k) = k a.
Proof. reflexivity. Qed.

Lemma bind_Raise {A B} (e : exn) (k : A → result B) : (Raise e ≫= k) = Raise e.
Proof. reflexivity. Qed.

Lemma truediv_Ok (a b : R) : b ≠ 0 → truediv a b = Ok (a / b).
Proof. intros Hb. unfold truediv. now rewrite decide_False. Qed.

Lemma truediv_zero (a : R) : truediv a 0 = Raise ZeroDivisionError.
Proof. unfold truediv. now rewrite decide_True. Qed.

Lemma round__Ok (n : nat) (v : R) : utils.round_ n (Ok v) = Ok (round v n).
Proof. reflexivity. Qed.

(** ** Shape factors of Hansen *)

(** C9: for a strip footing the Hansen shape factors are [s_c = 10],
    [s_q = 1.0] and [s_gamma = 1.0], whatever the width and the length. *)
Theorem hansen_strip_shape_factors (DECIMAL_PLACES : nat) (f_w f_l : R) :
  hansen_ubc.s_c DECIMAL_PLACES f_w f_l STRIP = Ok 10
  ∧ hansen_ubc.s_q DECIMAL_PLACES f_w f_l STRIP = Ok 1.0
  ∧ hansen_ubc.s_gamma DECIMAL_PLACES f_w f_l STRIP = Ok 1.0.
Proof.
  unfold hansen_ubc.s_c, hansen_ubc.s_q, hansen_ubc.s_gamma.
  rewrite !round__Ok.
  replace 1.0 with (IZR 1) by lra.
  now rewrite !round_IZR.
Qed.

(** ** Settlement check of the allowable bearing capacity *)

Lemma chk_settlement_le (s m : R) :
  s <= m → abc_4_cohl_soils._chk_settlement s m = Ok tt.
Proof.
  intros H. unfold abc_4_cohl_soils._chk_settlement.
  rewrite decide_False; [reflexivity | lra].
Qed.

Lemma chk_settlement_gt (s m : R) :
  s > m →
  abc_4_cohl_soils._chk_settlement s m
  = Raise (SettlementError "tol_settlement should not be greater than 25.4.").
Proof.
  intros H. unfold abc_4_cohl_soils._chk_settlement.
  now rewrite decide_True.
Qed.

(** C6: each of the six constructors accepts a tolerable settlement of
    exactly 25.4 mm, and raises [SettlementError] for every settlement above
    25.4 mm, 25.41 mm among them; the check is part of construction. *)
Theorem settlement_ceiling (cls : abc_4_cohl_soils.abc_class)
    (N Dw : R) (fs : FoundationSize) :
  (∃ obj, abc_4_cohl_soils.construct cls N 25.4 Dw fs = Ok obj)
  ∧ (∀ S, S > 25.4 →
       abc_4_cohl_soils.construct cls N S Dw fs
       = Raise (SettlementError
                  "tol_settlement should not be greater than 25.4."))
  ∧ abc_4_cohl_soils.construct cls N 25.41 Dw fs
    = Raise (SettlementError "tol_settlement should not be greater than 25.4.").
Proof.
  assert (∀ S, S > 25.4 →
       abc_4_cohl_soils.construct cls N S Dw fs
       = Raise (SettlementError
                  "tol_settlement should not be greater than 25.4.")) as Hgt.
  { intros S HS.
    destruct cls; cbn;
      unfold abc_4_cohl_soils.new_BowlesABC4PadFoundation,
        abc_4_cohl_soils.new_BowlesABC4MatFoundation,
        abc_4_cohl_soils.new_MeyerhofABC4PadFoundation,
        abc_4_cohl_soils.new_MeyerhofABC4MatFoundation,
        abc_4_cohl_soils.new_TerzaghiABC4PadFoundation,
        abc_4_cohl_soils.new_TerzaghiABC4MatFoundation;
      now rewrite chk_settlement_gt. }
  split; [|split].
  - destruct cls; cbn;
      unfold abc_4_cohl_soils.new_BowlesABC4PadFoundation,
        abc_4_cohl_soils.new_BowlesABC4MatFoundation,
        abc_4_cohl_soils.new_MeyerhofABC4PadFoundation,
        abc_4_cohl_soils.new_MeyerhofABC4MatFoundation,
        abc_4_cohl_soils.new_TerzaghiABC4PadFoundation,
        abc_4_cohl_soils.new_TerzaghiABC4MatFoundation;
      rewrite chk_settlement_le by (unfold abc_4_cohl_soils.MAX_TOL_SETTLEMENT; lra);
      eexists; reflexivity.
  - exact Hgt.
  - apply Hgt. lra.
Qed.

Lemma settlement_ceiling_witness :
  30 > 25.4
  ∧ abc_4_cohl_soils.construct abc_4_cohl_soils.Terzaghi_pad 17 30 1.2
      (mkFoundationSize 1.5 (mkSquareFooting 1.2) 0)
    = Raise (SettlementError "tol_settlement should not be greater than 25.4.").
Proof.
  split; [lra|].
  apply (settlement_ceiling abc_4_cohl_soils.Terzaghi_pad 17 1.2
           (mkFoundationSize 1.5 (mkSquareFooting 1.2) 0)).
  lra.
Defined.
(** ** Validation of the soil properties *)

Section soil_validation.
Variables (soil_properties : gmap string R) (fs : FoundationSize).
Variables (load_angle : R) (gwl : Number) (local_shear : bool).

Lemma new_missing_key :
  soil_properties !! "friction_angle" = None
  ∨ soil_properties !! "cohesion" = None
  ∨ soil_properties !! "moist_unit_wgt" = None →
  ∃ msg, ubc.new soil_properties fs load_angle gwl local_shear
         = Raise (ValueError msg).
Proof.
  unfold ubc.new. intros [H|[H|H]].
  - rewrite H. eauto.
  - rewrite H. destruct (soil_properties !! "friction_angle"); eauto.
  - rewrite H. destruct (soil_properties !! "friction_angle"); eauto.
    destruct (soil_properties !! "cohesion"); eauto.
Qed.

Lemma new_negative (φ c γ : R) :
  soil_properties !! "friction_angle" = Some φ →
  soil_properties !! "cohesion" = Some c →
  soil_properties !! "moist_unit_wgt" = Some γ →
  φ < 0 ∨ c < 0 →
  ∃ msg, ubc.new soil_properties fs load_angle gwl local_shear
         = Raise (ValueError msg).
Proof.
  intros Hφ Hc Hγ Hneg. unfold ubc.new. rewrite Hφ, Hc, Hγ.
  unfold ubc.set_friction_angle, ubc.set_cohesion.
  destruct (decide (φ < 0)); [cbn; eauto|].
  destruct Hneg as [?|Hc0]; [lra|].
  rewrite (decide_True _ _ Hc0). cbn. eauto.
Qed.

Lemma new_accepts (φ c γ : R) :
  soil_properties !! "friction_angle" = Some φ →
  soil_properties !! "cohesion" = Some c →
  soil_properties !! "moist_unit_wgt" = Some γ →
  0 <= φ → 0 <= c → 0 <= load_angle <= 90 →
  ubc.new soil_properties fs load_angle gwl local_shear
  = Ok (ubc.mkUltimateBearingCapacity φ c γ load_angle gwl fs local_shear).
Proof.
  intros Hφ Hc Hγ Hφ0 Hc0 Hla. unfold ubc.new. rewrite Hφ, Hc, Hγ.
  unfold ubc.set_friction_angle, ubc.set_cohesion, ubc.set_load_angle.
  rewrite (decide_False (P := φ < 0)) by lra.
  rewrite (decide_False (P := c < 0)) by lra.
  rewrite (decide_True (P := 0 <= load_angle <= 90)) by lra.
  reflexivity.
Qed.
End soil_validation.

(** C7, as stated, fails: a soil record whose moist unit weight is -18 is
    accepted. *)
Lemma soil_unit_weight_not_checked :
  ∃ obj, ubc.new soil_negative_weight square_2m 0 INF false = Ok obj
         ∧ ¬ (ubc.moist_unit_wgt obj > 0).
Proof.
  eexists. split.
  - apply (new_accepts soil_negative_weight square_2m 0 INF false 30 10 (-18));
      try reflexivity; lra.
  - cbn. lra.
Qed.

(** C7, amended: construction raises [ValueError] when one of the keys
    [friction_angle], [cohesion], [moist_unit_wgt] is absent, and when the
    friction angle or the cohesion is negative; with the three keys present,
    both values non-negative and a load angle in [0, 90], it succeeds and
    stores the moist unit weight as it is, whatever its sign. *)
Theorem soil_properties_validation (soil_properties : gmap string R)
    (fs : FoundationSize) (load_angle : R) (gwl : Number) (local_shear : bool) :
  (soil_properties !! "friction_angle" = None
   ∨ soil_properties !! "cohesion" = None
   ∨ soil_properties !! "moist_unit_wgt" = None →
   ∃ msg, ubc.new soil_properties fs load_angle gwl local_shear
          = Raise (ValueError msg))
  ∧ (∀ φ c γ,
       soil_properties !! "friction_angle" = Some φ →
       soil_properties !! "cohesion" = Some c →
       soil_properties !! "moist_unit_wgt" = Some γ →
       (φ < 0 ∨ c < 0 →
        ∃ msg, ubc.new soil_properties fs load_angle gwl local_shear
               = Raise (ValueError msg))
       ∧ (0 <= φ → 0 <= c → 0 <= load_angle <= 90 →
          ubc.new soil_properties fs load_angle gwl local_shear
          = Ok (ubc.mkUltimateBearingCapacity φ c γ load_angle gwl fs
                  local_shear))).
Proof.
  split; [apply new_missing_key|].
  intros φ c γ Hφ Hc Hγ. split.
  - now apply (new_negative _ _ _ _ _ φ c γ).
  - now apply new_accepts.
Qed.

Lemma soil_properties_validation_witness :
  ubc.new soil_negative_weight square_2m 0 INF false
  = Ok (ubc.mkUltimateBearingCapacity 30 10 (-18) 0 INF square_2m false).
Proof.
  apply (soil_properties_validation soil_negative_weight square_2m 0 INF false);
    try reflexivity; lra.
Defined.
(** ** Water-table corrections *)

Section water.
Variable self : ubc.UltimateBearingCapacity.
Let D := depth (ubc.foundation_size self).
Let B := effective_width (ubc.foundation_size self).
Hypothesis depth_pos : D > 0.
Hypothesis width_pos : B > 0.

Lemma surcharge_water_corr_no_water :
  ubc.ground_water_level self = INF → ubc.surcharge_water_corr self = Ok 1.
Proof.
  intros H. unfold ubc.surcharge_water_corr. rewrite H. cbn. f_equal. lra.
Qed.

Lemma embedment_water_corr_no_water :
  ubc.ground_water_level self = INF → ubc.embedment_water_corr self = Ok 1.
Proof.
  intros H. unfold ubc.embedment_water_corr. rewrite H. cbn. f_equal. lra.
Qed.

Lemma surcharge_water_corr_finite (w : R) :
  ubc.ground_water_level self = Num w →
  ubc.surcharge_water_corr self
  = Ok (Rmin (1 - 0.5 * Rmax (D - w) 0 / D) 1).
Proof.
  intros H. unfold ubc.surcharge_water_corr. rewrite H.
  fold D. rewrite truediv_Ok by lra. cbn.
  replace 0.0 with 0 by lra. reflexivity.
Qed.

Lemma embedment_water_corr_finite (w : R) :
  ubc.ground_water_level self = Num w →
  ubc.embedment_water_corr self
  = Ok (Rmin (0.5 + 0.5 * Rmax (w - D) 0 / B) 1).
Proof.
  intros H. unfold ubc.embedment_water_corr. rewrite H.
  fold D B. rewrite truediv_Ok by lra. reflexivity.
Qed.
End water.

(** C2: on a foundation of positive depth and positive effective width,
    both water corrections are exactly 1 without a water table; with the
    water level at [w] the surcharge correction is
    [min (1 - 0.5 a / depth) 1] for [a = max (depth - w) 0], the embedment
    correction is [min (0.5 + 0.5 b / width) 1] for [b = max (w - depth) 0],
    and neither exceeds 1. *)
Theorem water_corrections (self : ubc.UltimateBearingCapacity) :
  let D := depth (ubc.foundation_size self) in
  let B := effective_width (ubc.foundation_size self) in
  D > 0 → B > 0 →
  match ubc.ground_water_level self with
  | INF =>
      ubc.surcharge_water_corr self = Ok 1.0
      ∧ ubc.embedment_water_corr self = Ok 1.0
  | Num w =>
      let a := Rmax (D - w) 0 in
      let b := Rmax (w - D) 0 in
      ubc.surcharge_water_corr self = Ok (Rmin (1 - 0.5 * a / D) 1)
      ∧ ubc.embedment_water_corr self = Ok (Rmin (0.5 + 0.5 * b / B) 1)
      ∧ Rmin (1 - 0.5 * a / D) 1 <= 1.0
      ∧ Rmin (0.5 + 0.5 * b / B) 1 <= 1.0
  end.
Proof.
  intros D B HD HB.
  destruct (ubc.ground_water_level self) as [w|] eqn:E.
  - split; [|split; [|split]].
    + now apply surcharge_water_corr_finite.
    + now apply embedment_water_corr_finite.
    + replace 1.0 with 1 by lra. apply Rmin_r.
    + replace 1.0 with 1 by lra. apply Rmin_r.
  - replace 1.0 with 1 by lra. split.
    + now apply surcharge_water_corr_no_water.
    + now apply embedment_water_corr_no_water.
Qed.

Lemma water_corrections_witness :
  ubc.surcharge_water_corr strip_with_water
  = Ok (Rmin (1 - 0.5 * Rmax (1.5 - 0.4) 0 / 1.5) 1)
  ∧ ubc.embedment_water_corr strip_with_water
    = Ok (Rmin (0.5 + 0.5 * Rmax (0.4 - 1.5) 0 / (2 - 2 * 0)) 1).
Proof.
  pose proof (water_corrections strip_with_water) as H.
  cbn in H.
  destruct H as (H1 & H2 & _); [lra | unfold effective_width, width; cbn; lra |].
  split; [exact H1 | exact H2].
Defined.
(** ** Angles in degrees *)

Lemma deg2rad_0 : deg2rad 0 = 0.
Proof. unfold deg2rad. lra. Qed.

Lemma deg2rad_45 : deg2rad 45 = PI / 4.
Proof. unfold deg2rad. lra. Qed.

Lemma deg2rad_90 : deg2rad 90 = PI / 2.
Proof. unfold deg2rad. lra. Qed.

Lemma deg2rad_60 : deg2rad 60 = PI / 3.
Proof. unfold deg2rad. lra. Qed.

Lemma deg2rad_lt (x y : R) : x < y → deg2rad x < deg2rad y.
Proof. unfold deg2rad. pose proof PI_RGT_0. intros. nra. Qed.

Lemma deg2rad_le (x y : R) : x <= y → deg2rad x <= deg2rad y.
Proof. unfold deg2rad. pose proof PI_RGT_0. intros. nra. Qed.

Lemma deg2rad_range (x : R) :
  0 < x < 90 → 0 < deg2rad x < PI / 2.
Proof.
  intros [H0 H90]. rewrite <- deg2rad_0 at 1. rewrite <- deg2rad_90.
  split; now apply deg2rad_lt.
Qed.

Lemma utils_sin_0 : utils.sin 0 = 0.
Proof. unfold utils.sin. rewrite deg2rad_0. apply sin_0. Qed.

Lemma utils_cos_0 : utils.cos 0 = 1.
Proof. unfold utils.cos. rewrite deg2rad_0. apply cos_0. Qed.

Lemma utils_tan_0 : utils.tan 0 = 0.
Proof. unfold utils.tan. rewrite deg2rad_0. apply tan_0. Qed.

Lemma utils_sin_pos (x : R) : 0 < x <= 90 → 0 < utils.sin x.
Proof.
  intros [H0 H90]. unfold utils.sin. apply sin_gt_0.
  - rewrite <- deg2rad_0. now apply deg2rad_lt.
  - apply Rle_lt_trans with (deg2rad 90); [now apply deg2rad_le|].
    rewrite deg2rad_90. pose proof PI_RGT_0. lra.
Qed.

Lemma utils_tan_pos (x : R) : 0 < x < 90 → 0 < utils.tan x.
Proof.
  intros Hx. unfold utils.tan. apply tan_gt_0; now apply deg2rad_range.
Qed.

(** ** Inclination factors of Hansen *)

Lemma hansen_i_q_defined (load_angle : R) :
  0 < load_angle <= 90 →
  hansen_ubc.i_q load_angle
  = Ok (1 - 1.5 * utils.cos load_angle / utils.sin load_angle).
Proof.
  intros H. unfold hansen_ubc.i_q.
  pose proof (utils_sin_pos load_angle H).
  rewrite truediv_Ok by lra. reflexivity.
Qed.

(** C10 fails on the code: the load angle 0 passes the range check of the
    setter, and [i_q], hence [i_gamma], divides by [sin 0 = 0] there. *)
Theorem hansen_inclination_at_zero :
  ubc.set_load_angle 0 = Ok 0
  ∧ hansen_ubc.i_q 0 = Raise ZeroDivisionError
  ∧ hansen_ubc.i_gamma 0 = Raise ZeroDivisionError.
Proof.
  assert (hansen_ubc.i_q 0 = Raise ZeroDivisionError) as Hq.
  { unfold hansen_ubc.i_q. rewrite utils_sin_0. now rewrite truediv_zero. }
  split; [|split].
  - unfold ubc.set_load_angle. rewrite decide_True; [reflexivity | lra].
  - exact Hq.
  - unfold hansen_ubc.i_gamma. now rewrite Hq.
Qed.

(** ** Depth factors of Hansen *)

Lemma d2w_Ok (f_d f_w : R) :
  f_w > 0 →
  hansen_ubc.d2w f_d f_w
  = Ok (if decide (f_d / f_w > 1) then utils.arctan (f_d / f_w)
        else f_d / f_w).
Proof.
  intros Hw. unfold hansen_ubc.d2w. rewrite truediv_Ok by lra. reflexivity.
Qed.

(** C4: for a positive depth and width, the ratio [k] used by [d_c] and
    [d_q] is [arctan (depth / width)] when [depth / width > 1] and
    [depth / width] otherwise, so that it is the raw ratio 1 when
    [depth = width]; [d_c] is [1 + 0.4 k]; [d_q] is the value of [d_c] for a
    friction angle above 25 and [1 + 2 tan φ (1 - sin φ)² k] otherwise,
    each rounded as every factor is. *)
Theorem hansen_depth_factors (DECIMAL_PLACES : nat) (sfa f_d f_w : R) :
  f_d > 0 → f_w > 0 →
  let k := if decide (f_d / f_w > 1) then utils.arctan (f_d / f_w)
           else f_d / f_w in
  hansen_ubc.d2w f_d f_w = Ok k
  ∧ (f_d / f_w = 1 → k = 1)
  ∧ hansen_ubc.d_c DECIMAL_PLACES f_d f_w
    = Ok (round (1 + 0.4 * k) DECIMAL_PLACES)
  ∧ (sfa > 25 →
     hansen_ubc.d_q DECIMAL_PLACES sfa f_d f_w
     = hansen_ubc.d_c DECIMAL_PLACES f_d f_w)
  ∧ (sfa <= 25 →
     hansen_ubc.d_q DECIMAL_PLACES sfa f_d f_w
     = Ok (round (1 + 2 * utils.tan sfa * (1 - utils.sin sfa) ^ 2 * k)
             DECIMAL_PLACES)).
Proof.
  intros Hd Hw k.
  assert (hansen_ubc.d2w f_d f_w = Ok k) as Hk by now apply d2w_Ok.
  assert (hansen_ubc.d_c DECIMAL_PLACES f_d f_w
          = Ok (round (1 + 0.4 * k) DECIMAL_PLACES)) as Hc.
  { unfold hansen_ubc.d_c. now rewrite Hk. }
  repeat split.
  - exact Hk.
  - intros H1. unfold k. rewrite decide_False; [exact H1 | lra].
  - exact Hc.
  - intros Hφ. unfold hansen_ubc.d_q.
    rewrite decide_True by lra.
    rewrite Hc, round__Ok. now rewrite round_idem.
  - intros Hφ. unfold hansen_ubc.d_q.
    rewrite decide_False by lra.
    now rewrite Hk.
Qed.

Lemma hansen_depth_factors_witness :
  hansen_ubc.d2w 2 2 = Ok (if decide (2 / 2 > 1) then utils.arctan (2 / 2) else 2 / 2)
  ∧ hansen_ubc.d_q 2 30 2 2 = hansen_ubc.d_c 2 2 2.
Proof.
  pose proof (hansen_depth_factors 2 30 2 2) as H.
  destruct H as (H1 & _ & _ & H4 & _); [lra | lra |].
  split; [exact H1 | apply H4; lra].
Defined.
(** ** Bearing capacity factors of Terzaghi *)

Lemma terzaghi_den (phi : R) :
  2 * terzaghi.cos (deg2rad 45 + phi / 2) ^ 2 = 1 - sin phi.
Proof.
  unfold terzaghi.cos. rewrite deg2rad_45.
  rewrite (sin_cos phi).
  replace (PI / 2 + phi) with (2 * (PI / 4 + phi / 2)) by lra.
  rewrite cos_2a_cos. lra.
Qed.

Lemma sin_lt_1 (x : R) : 0 <= x < PI / 2 → sin x < 1.
Proof.
  intros [H0 H1]. rewrite <- sin_PI2.
  pose proof PI_RGT_0.
  apply sin_increasing_1; lra.
Qed.

Lemma terzaghi__nq_Ok (phi : R) :
  0 <= phi < PI / 2 →
  terzaghi.TerzaghiBCF._nq phi = Ok (terzaghi_nq_raw phi).
Proof.
  intros H. unfold terzaghi.TerzaghiBCF._nq.
  rewrite terzaghi_den.
  pose proof (sin_lt_1 phi H).
  rewrite truediv_Ok by lra. reflexivity.
Qed.

Lemma terzaghi_nq_raw_0 : terzaghi_nq_raw 0 = 1.
Proof.
  unfold terzaghi_nq_raw. rewrite tan_0, sin_0, Rmult_0_r, exp_0. lra.
Qed.

Lemma np_isclose_0 : np_isclose 0 0.0 = true.
Proof.
  unfold np_isclose. apply bool_decide_eq_true.
  replace (0 - 0.0) with 0 by lra. replace 0.0 with 0 by lra.
  rewrite Rabs_R0. lra.
Qed.

Lemma terzaghi_nq_0 (dp : nat) (ty : string) :
  terzaghi.TerzaghiBCF.nq dp (terzaghi.TerzaghiBCF.new ty 0) = Ok 1.
Proof.
  unfold terzaghi.TerzaghiBCF.nq, terzaghi.TerzaghiBCF.new. cbn.
  rewrite deg2rad_0.
  rewrite terzaghi__nq_Ok by (pose proof PI_RGT_0; lra).
  cbn. rewrite terzaghi_nq_raw_0.
  f_equal. apply (round_IZR 1).
Qed.

Lemma terzaghi_nc_0 (dp : nat) (ty : string) :
  terzaghi.TerzaghiBCF.nc dp (terzaghi.TerzaghiBCF.new ty 0) = Ok 5.70.
Proof.
  unfold terzaghi.TerzaghiBCF.nc, terzaghi.TerzaghiBCF.new. cbn.
  rewrite deg2rad_0. now rewrite np_isclose_0.
Qed.

Lemma terzaghi_ngamma_meyerhof (dp : nat) (self : terzaghi.TerzaghiBCF.t) :
  terzaghi.TerzaghiBCF.ngamma_type self = "meyerhof" →
  terzaghi.TerzaghiBCF.ngamma dp self
  = (q ← terzaghi.TerzaghiBCF._nq (terzaghi.TerzaghiBCF.phi self);
     mret (round ((q - 1) * terzaghi.tan (1.4 * terzaghi.TerzaghiBCF.phi self))
             dp)).
Proof.
  intros Hty. unfold terzaghi.TerzaghiBCF.ngamma.
  rewrite (decide_True _ _ Hty).
  now destruct (terzaghi.TerzaghiBCF._nq _).
Qed.

Lemma terzaghi_ngamma_hansen (dp : nat) (self : terzaghi.TerzaghiBCF.t) :
  terzaghi.TerzaghiBCF.ngamma_type self = "hansen" →
  terzaghi.TerzaghiBCF.ngamma dp self
  = (q ← terzaghi.TerzaghiBCF._nq (terzaghi.TerzaghiBCF.phi self);
     mret (round (1.8 * (q - 1) * terzaghi.tan (terzaghi.TerzaghiBCF.phi self))
             dp)).
Proof.
  intros Hty. unfold terzaghi.TerzaghiBCF.ngamma.
  rewrite decide_False by (rewrite Hty; discriminate).
  rewrite (decide_True _ _ Hty).
  now destruct (terzaghi.TerzaghiBCF._nq _).
Qed.

Lemma terzaghi_ngamma_0 (dp : nat) :
  terzaghi.TerzaghiBCF.ngamma dp (terzaghi.TerzaghiBCF.new "Meyerhof" 0) = Ok 0.
Proof.
  rewrite terzaghi_ngamma_meyerhof by reflexivity.
  unfold terzaghi.TerzaghiBCF.new, terzaghi.TerzaghiBCF.phi.
  rewrite deg2rad_0.
  rewrite terzaghi__nq_Ok by (pose proof PI_RGT_0; lra).
  rewrite bind_Ok, terzaghi_nq_raw_0.
  unfold terzaghi.tan. rewrite Rmult_0_r, tan_0.
  replace ((1 - 1) * 0) with (IZR 0) by lra.
  unfold mret, result_ret. f_equal. apply round_IZR.
Qed.

(** ** The superposition of the three terms *)

Section aggregation.
Context `{ubc.Subclass}.
Variable self : ubc.UltimateBearingCapacity.

Lemma cohesion_term_coef (coef c1 : R) :
  ubc._cohesion_term self 1 = Ok c1 →
  ubc._cohesion_term self coef = Ok (coef * c1).
Proof.
  unfold ubc._cohesion_term.
  destruct (ubc.n_c self); [|discriminate].
  destruct (ubc.s_c self); [|discriminate].
  destruct (ubc.d_c self); [|discriminate].
  destruct (ubc.i_c self); [|discriminate].
  cbn. intros [= <-]. f_equal. lra.
Qed.

Lemma embedment_term_coef (coef e1 : R) :
  ubc._embedment_term self 1 = Ok e1 →
  ubc._embedment_term self coef = Ok (coef * e1).
Proof.
  unfold ubc._embedment_term.
  destruct (ubc.embedment_water_corr self); [|discriminate].
  destruct (ubc.n_gamma self); [|discriminate].
  destruct (ubc.s_gamma self); [|discriminate].
  destruct (ubc.d_gamma self); [|discriminate].
  destruct (ubc.i_gamma self); [|discriminate].
  cbn. intros [= <-]. f_equal. lra.
Qed.

Lemma bearing_capacity_terms (c1 s e1 : R) :
  ubc._cohesion_term self 1 = Ok c1 →
  ubc._surcharge_term self = Ok s →
  ubc._embedment_term self 1 = Ok e1 →
  ubc.bearing_capacity self = Ok (1.0 * c1 + s + 0.5 * e1).
Proof.
  intros Hc Hs He. unfold ubc.bearing_capacity.
  rewrite (cohesion_term_coef 1.0 c1 Hc), Hs.
  rewrite (embedment_term_coef 0.5 e1 He). reflexivity.
Qed.
End aggregation.

Lemma clay_under_square_terms (dp : nat) :
  ubc._cohesion_term (H := terzaghi_subclass dp) clay_under_square 1 = Ok 114
  ∧ ubc._surcharge_term (H := terzaghi_subclass dp) clay_under_square = Ok 27
  ∧ ubc._embedment_term (H := terzaghi_subclass dp) clay_under_square 1 = Ok 0.
Proof.
  unfold ubc._cohesion_term, ubc._surcharge_term, ubc._embedment_term.
  cbn. rewrite terzaghi_nc_0, terzaghi_nq_0, terzaghi_ngamma_0. cbn.
  repeat split; f_equal; unfold effective_width, width; cbn; lra.
Qed.

(** C1, as stated, fails: on a square footing [bearing_capacity] of the
    base class applies the constants 1.0 and 0.5, not 1.2 and 0.4; here it
    returns 141 where the superposition by shape gives 163.8. *)
Lemma bearing_capacity_ignores_shape :
  footing_shape (ubc.foundation_size clay_under_square) = SQUARE
  ∧ ubc.bearing_capacity (H := terzaghi_subclass 2) clay_under_square = Ok 141
  ∧ superposition_by_shape (H := terzaghi_subclass 2) clay_under_square
    = Ok 163.8.
Proof.
  destruct (clay_under_square_terms 2) as (Hc & Hs & He).
  split; [reflexivity|]. split.
  - rewrite (bearing_capacity_terms _ _ _ _ Hc Hs He). f_equal. lra.
  - unfold superposition_by_shape.
    rewrite (cohesion_term_coef _ _ _ Hc), Hs, (embedment_term_coef _ _ _ He).
    cbn. f_equal. lra.
Qed.

(** C1, amended: the three functions of [TBC] return the superposition of
    the three terms with the constants (1.0, 0.5) for a strip, (1.2, 0.4)
    for a square and (1.2, 0.3) for a circular footing, rounded;
    [bearing_capacity] of the base class [UltimateBearingCapacity] and
    [bearing_capacity] of [HansenUBC] return the superposition with the
    constants (1.0, 0.5) for every footing shape, the latter rounded. *)
Theorem bearing_capacity_superposition :
  (∀ (dp : nat) (self : terzaghi.TBC.t) (Nc Nq Ng : R),
     terzaghi.TBC.nc dp self = Ok Nc →
     terzaghi.TBC.nq dp self = Ok Nq →
     terzaghi.TBC.ngamma dp self = Ok Ng →
     let c := terzaghi.TBC.cohesion self in
     let γ := terzaghi.TBC.gamma self in
     let D := terzaghi.TBC.fd self in
     let B := terzaghi.TBC.fw self in
     terzaghi.TBC.qult_4_strip_footing dp self
     = Ok (round (1.0 * c * Nc + γ * D * Nq + 0.5 * γ * B * Ng) dp)
     ∧ terzaghi.TBC.qult_4_square_footing dp self
       = Ok (round (1.2 * c * Nc + γ * D * Nq + 0.4 * γ * B * Ng) dp)
     ∧ terzaghi.TBC.qult_4_circular_footing dp self
       = Ok (round (1.2 * c * Nc + γ * D * Nq + 0.3 * γ * B * Ng) dp))
  ∧ (∀ (sub : ubc.Subclass) (self : ubc.UltimateBearingCapacity)
       (c1 s e1 : R),
       ubc._cohesion_term self 1 = Ok c1 →
       ubc._surcharge_term self = Ok s →
       ubc._embedment_term self 1 = Ok e1 →
       ubc.bearing_capacity self = Ok (1.0 * c1 + s + 0.5 * e1))
  ∧ (∀ (dp : nat) (coh sur emb : R),
       hansen_ubc.bearing_capacity dp (Ok coh) (Ok sur) (Ok emb)
       = Ok (round (1.0 * coh + sur + 0.5 * emb) dp)).
Proof.
  split; [|split].
  - intros dp self Nc Nq Ng Hc Hq Hg c γ D B.
    unfold terzaghi.TBC.qult_4_strip_footing,
      terzaghi.TBC.qult_4_square_footing,
      terzaghi.TBC.qult_4_circular_footing.
    rewrite Hc, Hq, Hg. cbn. fold c γ D B.
    repeat split; do 2 f_equal; lra.
  - intros sub self c1 s e1. apply bearing_capacity_terms.
  - intros dp coh sur emb. unfold hansen_ubc.bearing_capacity.
    cbn. do 2 f_equal. lra.
Qed.

Lemma bearing_capacity_superposition_witness :
  terzaghi.TBC.qult_4_square_footing 2 (terzaghi.TBC.new 20 0 18 1.5 2 "Meyerhof")
  = Ok (round (1.2 * 20 * 5.70 + 18 * 1.5 * 1 + 0.4 * 18 * 2 * 0) 2)
  ∧ ubc.bearing_capacity (H := terzaghi_subclass 2) clay_under_square
    = Ok (1.0 * 114 + 27 + 0.5 * 0).
Proof.
  destruct bearing_capacity_superposition as (HT & HU & _).
  split.
  - apply (HT 2%nat (terzaghi.TBC.new 20 0 18 1.5 2 "Meyerhof") 5.70 1 0).
    + apply terzaghi_nc_0.
    + apply terzaghi_nq_0.
    + apply terzaghi_ngamma_0.
  - destruct (clay_under_square_terms 2) as (Hc & Hs & He).
    apply (HU (terzaghi_subclass 2) clay_under_square 114 27 0 Hc Hs He).
Defined.
(** ** The guard of [Nc] at a friction angle close to zero *)

Lemma np_isclose_false_neq (x : R) : np_isclose x 0.0 = false → x ≠ 0.
Proof.
  intros H ->. rewrite np_isclose_0 in H. discriminate.
Qed.


Lemma isclose_0 (rel_tol abs_tol : R) : utils.isclose rel_tol abs_tol 0 0.0 = true.
Proof.
  unfold utils.isclose. apply bool_decide_eq_true.
  replace (0 - 0.0) with 0 by lra. replace 0.0 with 0 by lra.
  rewrite Rabs_R0, (Rmax_left 0 0) by lra. rewrite Rmult_0_r.
  apply Rmax_l.
Qed.

Lemma isclose_false_neq (rel_tol abs_tol x : R) :
  utils.isclose rel_tol abs_tol x 0.0 = false → x ≠ 0.
Proof.
  intros H ->. rewrite isclose_0 in H. discriminate.
Qed.

Lemma utils_tan_45 : utils.tan 45 = 1.
Proof. unfold utils.tan. rewrite deg2rad_45. apply tan_PI4. Qed.

Lemma hansen_n_q_Ok (dp : nat) (sfa : R) :
  hansen_ubc.n_q dp sfa = Ok (round (hansen_nq_raw sfa) dp).
Proof. reflexivity. Qed.

Lemma hansen_n_q_0 (dp : nat) : hansen_ubc.n_q dp 0 = Ok 1.
Proof.
  rewrite hansen_n_q_Ok. unfold hansen_nq_raw.
  replace (45 + 0 / 2) with 45 by lra.
  rewrite utils_tan_45, utils_tan_0. unfold utils.exp.
  rewrite Rmult_0_r, exp_0.
  replace (1 ^ 2 * 1) with (IZR 1) by lra. now rewrite round_IZR.
Qed.


Lemma terzaghi_nc_away (dp : nat) (ty : string) (φ : R) :
  0 <= φ < 90 →
  np_isclose (deg2rad φ) 0.0 = false →
  terzaghi.tan (deg2rad φ) ≠ 0
  ∧ ∃ q, terzaghi.TerzaghiBCF._nq (deg2rad φ) = Ok q
         ∧ terzaghi.TerzaghiBCF.nc dp (terzaghi.TerzaghiBCF.new ty φ)
           = Ok (round (1 / terzaghi.tan (deg2rad φ) * (q - 1)) dp).
Proof.
  intros Hφ Hfar.
  pose proof (np_isclose_false_neq _ Hfar) as Hne.
  assert (0 < φ < 90) as Hφ'.
  { split; [|lra]. destruct (Rle_lt_or_eq_dec 0 φ) as [?|E]; [lra|lra|].
    exfalso. apply Hne. rewrite <- E. apply deg2rad_0. }
  pose proof (deg2rad_range φ Hφ') as Hx.
  assert (terzaghi.tan (deg2rad φ) ≠ 0) as Ht.
  { apply Rgt_not_eq. unfold terzaghi.tan. apply tan_gt_0; lra. }
  split; [exact Ht|].
  exists (terzaghi_nq_raw (deg2rad φ)).
  rewrite terzaghi__nq_Ok by lra. split; [reflexivity|].
  unfold terzaghi.TerzaghiBCF.nc, terzaghi.TerzaghiBCF.new,
    terzaghi.TerzaghiBCF.phi.
  rewrite Hfar, truediv_Ok by exact Ht.
  rewrite terzaghi__nq_Ok by lra. reflexivity.
Qed.


Lemma hansen_n_c_away (dp : nat) (rel_tol abs_tol sfa : R) :
  0 <= sfa < 90 →
  utils.isclose rel_tol abs_tol sfa 0.0 = false →
  utils.tan sfa ≠ 0
  ∧ ∃ q, hansen_ubc.n_q dp sfa = Ok q
         ∧ hansen_ubc.n_c dp rel_tol abs_tol sfa
           = Ok (round (1 / utils.tan sfa * (q - 1)) dp).
Proof.
  intros Hφ Hfar.
  pose proof (isclose_false_neq _ _ _ Hfar) as Hne.
  assert (utils.tan sfa ≠ 0) as Ht.
  { apply Rgt_not_eq, utils_tan_pos. lra. }
  split; [exact Ht|].
  exists (round (hansen_nq_raw sfa) dp). split; [apply hansen_n_q_Ok|].
  unfold hansen_ubc.n_c, utils.cot.
  rewrite Hfar, truediv_Ok by exact Ht.
  now rewrite hansen_n_q_Ok.
Qed.

(** ** Factors that are returned without rounding *)

Lemma three_divides_square (p q : Z) :
  (p * p = 3 * (q * q))%Z → ∃ k, p = (3 * k)%Z.
Proof.
  intros H.
  pose proof (Z.div_mod p 3 ltac:(lia)) as Hdm.
  pose proof (Z.mod_pos_bound p 3 ltac:(lia)) as Hb.
  set (k := (p / 3)%Z) in *. set (r := (p mod 3)%Z) in *.
  assert (r = 0 ∨ r = 1 ∨ r = 2)%Z as [Hr|[Hr|Hr]] by lia.
  - exists k. lia.
  - exfalso. rewrite Hr in Hdm. rewrite Hdm in H. lia.
  - exfalso. rewrite Hr in Hdm. rewrite Hdm in H. lia.
Qed.

Lemma no_square_is_three_squares (n : nat) :
  ∀ p q : Z, (Z.abs_nat q < n)%nat → (p * p = 3 * (q * q))%Z → q = 0%Z.
Proof.
  induction n as [|n IH]; intros p q Hn H; [lia|].
  destruct (three_divides_square p q H) as [k ->].
  assert (q * q = 3 * (k * k))%Z as H' by lia.
  destruct (three_divides_square q k H') as [m ->].
  assert (k * k = 3 * (m * m))%Z as H'' by lia.
  destruct (Z.eq_dec m 0%Z) as [->|Hm]; [reflexivity|].
  assert (m = 0%Z); [|contradiction].
  apply (IH k m); [lia | exact H''].
Qed.

Lemma sqrt3_irrational (p q : Z) : q ≠ 0%Z → sqrt 3 ≠ IZR p / IZR q.
Proof.
  intros Hq E.
  assert (IZR q ≠ 0) as Hq' by (now apply not_0_IZR).
  assert (sqrt 3 * sqrt 3 = 3) as Hs by (apply sqrt_sqrt; lra).
  rewrite E in Hs.
  assert (IZR p * IZR p = 3 * (IZR q * IZR q)) as HR.
  { rewrite <- Hs. field. exact Hq'. }
  rewrite <- !mult_IZR in HR. apply eq_IZR in HR.
  apply Hq.
  apply (no_square_is_three_squares (S (Z.abs_nat q)) p q); [lia | exact HR].
Qed.

Lemma not_decimal_1_sqrt3 (dp : nat) :
  round (1 - sqrt 3 / 2) dp ≠ 1 - sqrt 3 / 2.
Proof.
  unfold round. set (z := round_half_even _). intros E.
  pose proof (pow10_pos dp) as Hp.
  apply (sqrt3_irrational (2 * 10 ^ Z.of_nat dp - 2 * z) (10 ^ Z.of_nat dp)).
  - apply Z.pow_nonzero; lia.
  - rewrite minus_IZR, !mult_IZR, <- pow10_IZR.
    assert (IZR z = (1 - sqrt 3 / 2) * 10 ^ dp) as ->.
    { rewrite <- E. field. lra. }
    field. lra.
Qed.

Lemma not_decimal_1_sqrt3_sq (dp : nat) :
  round ((1 - sqrt 3 / 2) ^ 2) dp ≠ (1 - sqrt 3 / 2) ^ 2.
Proof.
  unfold round. set (z := round_half_even _). intros E.
  pose proof (pow10_pos dp) as Hp.
  assert (sqrt 3 * sqrt 3 = 3) as Hs by (apply sqrt_sqrt; lra).
  apply (sqrt3_irrational (7 * 10 ^ Z.of_nat dp - 4 * z) (4 * 10 ^ Z.of_nat dp)).
  - assert (10 ^ Z.of_nat dp ≠ 0)%Z by (apply Z.pow_nonzero; lia). lia.
  - rewrite minus_IZR, !mult_IZR, <- pow10_IZR.
    assert (IZR z = (1 - sqrt 3 / 2) ^ 2 * 10 ^ dp) as ->.
    { rewrite <- E. field. lra. }
    apply Rmult_eq_reg_r with (4 * 10 ^ dp); [|lra].
    replace ((7 * 10 ^ dp - 4 * ((1 - sqrt 3 / 2) ^ 2 * 10 ^ dp))
             / (4 * 10 ^ dp) * (4 * 10 ^ dp))
      with ((7 - 4 * (1 - sqrt 3 / 2) ^ 2) * 10 ^ dp) by (field; lra).
    nra.
Qed.

Lemma utils_cos_60 : utils.cos 60 = 1 / 2.
Proof. unfold utils.cos. rewrite deg2rad_60. apply cos_PI3. Qed.

Lemma utils_sin_60 : utils.sin 60 = sqrt 3 / 2.
Proof. unfold utils.sin. rewrite deg2rad_60. apply sin_PI3. Qed.

Lemma hansen_i_q_60 : hansen_ubc.i_q 60 = Ok (1 - sqrt 3 / 2).
Proof.
  rewrite hansen_i_q_defined by lra.
  rewrite utils_cos_60, utils_sin_60.
  assert (0 < sqrt 3) as H3 by (apply sqrt_lt_R0; lra).
  assert (sqrt 3 * sqrt 3 = 3) as Hs by (apply sqrt_sqrt; lra).
  f_equal.
  apply Rmult_eq_reg_r with (sqrt 3); [|lra].
  replace ((1 - 1.5 * (1 / 2) / (sqrt 3 / 2)) * sqrt 3)
    with (sqrt 3 - 1.5) by (field; lra).
  nra.
Qed.

(** C8 fails on the code: [i_q] and [i_gamma] of Hansen carry no [round_].
    At the load angle 60, which the setter accepts, they return
    [1 - √3/2] and its square, and no precision leaves either unchanged. *)
Theorem hansen_inclination_unrounded (DECIMAL_PLACES : nat) :
  ubc.set_load_angle 60 = Ok 60
  ∧ hansen_ubc.i_q 60 = Ok (1 - sqrt 3 / 2)
  ∧ round (1 - sqrt 3 / 2) DECIMAL_PLACES ≠ 1 - sqrt 3 / 2
  ∧ hansen_ubc.i_gamma 60 = Ok ((1 - sqrt 3 / 2) ^ 2)
  ∧ round ((1 - sqrt 3 / 2) ^ 2) DECIMAL_PLACES ≠ (1 - sqrt 3 / 2) ^ 2.
Proof.
  split; [|split; [|split; [|split]]].
  - unfold ubc.set_load_angle. rewrite decide_True; [reflexivity | lra].
  - exact hansen_i_q_60.
  - apply not_decimal_1_sqrt3.
  - unfold hansen_ubc.i_gamma. now rewrite hansen_i_q_60.
  - apply not_decimal_1_sqrt3_sq.
Qed.
(** ** Elementary bounds on the transcendental functions *)

Lemma PI_lower : 3.135 < PI.
Proof.
  pose proof (PI_2_3_7_ineq 0) as [H _].
  unfold sum_f_R0, tg_alt, PI_2_3_7_tg, Ratan_seq in H.
  simpl in H. lra.
Qed.

Lemma PI_upper : PI < 3.24.
Proof.
  pose proof (PI_2_3_7_ineq 0) as [_ H].
  unfold sum_f_R0, tg_alt, PI_2_3_7_tg, Ratan_seq in H.
  simpl in H. lra.
Qed.

Lemma sin_le_x (x : R) : 0 <= x → sin x <= x.
Proof.
  intros [H| <-]; [left; now apply sin_lt_x | rewrite sin_0; lra].
Qed.

Lemma cos_ge_quadratic (x : R) : 0 <= x <= PI → 1 - x ^ 2 / 2 <= cos x.
Proof.
  intros [H0 H1].
  replace x with (2 * (x / 2)) at 2 by lra.
  rewrite cos_2a_sin.
  assert (0 <= sin (x / 2)) by (apply sin_ge_0; lra).
  assert (sin (x / 2) <= x / 2) by (apply sin_le_x; lra).
  nra.
Qed.

Lemma tan_le_2x (x : R) : 0 <= x <= 1 → tan x <= 2 * x.
Proof.
  intros [H0 H1]. pose proof PI_lower.
  pose proof (cos_ge_quadratic x ltac:(lra)) as Hc.
  pose proof (sin_le_x x H0) as Hs.
  assert (/ 2 <= cos x) as Hc' by nra.
  unfold tan.
  apply Rle_trans with (x / cos x).
  - apply Rmult_le_compat_r; [|exact Hs].
    left. apply Rinv_0_lt_compat. lra.
  - apply Rmult_le_reg_r with (cos x); [lra|].
    replace (x / cos x * cos x) with x by (field; lra). nra.
Qed.

Lemma exp_le_1_2z (z : R) : 0 <= z <= / 2 → exp z <= 1 + 2 * z.
Proof.
  intros [H0 H1].
  pose proof (exp_ineq1_le (- z)) as Hn.
  rewrite exp_Ropp in Hn.
  pose proof (exp_pos z) as Hp.
  assert (0 < 1 - z) by lra.
  assert (exp z <= / (1 - z)) as Hu.
  { apply Rmult_le_reg_r with (1 - z); [lra|].
    rewrite Rinv_l by lra.
    apply Rmult_le_reg_l with (/ exp z); [now apply Rinv_0_lt_compat|].
    rewrite <- Rmult_assoc, Rinv_l by lra. lra. }
  apply Rle_trans with (1 := Hu).
  apply Rmult_le_reg_r with (1 - z); [lra|].
  rewrite Rinv_l by lra. nra.
Qed.

Lemma exp_ge_1 (z : R) : 0 <= z → 1 <= exp z.
Proof. intros H. pose proof (exp_ineq1_le z). lra. Qed.


Lemma tan_le_mono (x y : R) :
  - PI / 2 < x → x <= y → y < PI / 2 → tan x <= tan y.
Proof.
  intros Hx [H| ->] Hy; [left; now apply tan_increasing | lra].
Qed.

Lemma tan_nonneg (x : R) : 0 <= x < PI / 2 → 0 <= tan x.
Proof.
  intros [[H| <-] H1]; [left; now apply tan_gt_0 | rewrite tan_0; lra].
Qed.

Lemma tan_ge_1 (x : R) : PI / 4 <= x < PI / 2 → 1 <= tan x.
Proof.
  intros [H0 H1]. rewrite <- tan_PI4. pose proof PI_RGT_0.
  apply tan_le_mono; lra.
Qed.

Lemma tan_PI4_plus (y : R) :
  0 <= y < PI / 4 → tan (PI / 4 + y) = (1 + tan y) / (1 - tan y).
Proof.
  intros [H0 H1]. pose proof PI_RGT_0.
  assert (tan y < 1) as Hty.
  { rewrite <- tan_PI4. apply tan_increasing; lra. }
  rewrite tan_plus.
  - rewrite tan_PI4. now rewrite Rmult_1_l.
  - apply Rgt_not_eq, cos_gt_0; lra.
  - apply Rgt_not_eq, cos_gt_0; lra.
  - apply Rgt_not_eq, cos_gt_0; lra.
  - rewrite tan_PI4. lra.
Qed.
(** ** Rounding to 1 *)

Lemma round_half_even_near (z : Z) (y : R) :
  IZR z <= y < IZR z + / 2 → round_half_even y = z.
Proof.
  intros [Hl Hu]. unfold round_half_even.
  rewrite (Zfloor_eq z y) by lra.
  rewrite decide_True; [reflexivity | lra].
Qed.

Lemma round_to_1 (v : R) (dp : nat) :
  1 <= v < 1 + / 2 / 10 ^ dp → round v dp = 1.
Proof.
  intros [Hl Hu]. unfold round. pose proof (pow10_pos dp) as Hp.
  rewrite (round_half_even_near (10 ^ Z.of_nat dp)).
  - rewrite <- pow10_IZR. field. lra.
  - rewrite <- pow10_IZR. split; [nra|].
    apply Rmult_lt_compat_r with (r := 10 ^ dp) in Hu; [|exact Hp].
    replace ((1 + / 2 / 10 ^ dp) * 10 ^ dp) with (10 ^ dp + / 2) in Hu
      by (field; lra).
    exact Hu.
Qed.

(** ** Hansen: [N_q] before rounding *)

Lemma deg2rad_half_angle (φ : R) : deg2rad (45 + φ / 2) = PI / 4 + deg2rad φ / 2.
Proof. unfold deg2rad. lra. Qed.

Lemma deg2rad_range_le (φ : R) : 0 <= φ < 90 → 0 <= deg2rad φ < PI / 2.
Proof.
  intros [H0 H1]. rewrite <- deg2rad_0 at 1. rewrite <- deg2rad_90.
  split; [now apply deg2rad_le | now apply deg2rad_lt].
Qed.

Lemma hansen_nq_raw_ge_1 (φ : R) : 0 <= φ < 90 → 1 <= hansen_nq_raw φ.
Proof.
  intros Hφ. pose proof (deg2rad_range_le φ Hφ) as Hx.
  pose proof PI_RGT_0 as Hpi.
  unfold hansen_nq_raw, utils.tan, utils.exp, utils.PI.
  rewrite deg2rad_half_angle.
  assert (1 <= tan (PI / 4 + deg2rad φ / 2)) as Ha by (apply tan_ge_1; lra).
  assert (0 <= tan (deg2rad φ)) as Ht by (apply tan_nonneg; lra).
  assert (1 <= exp (PI * tan (deg2rad φ))) as He by (apply exp_ge_1; nra).
  nra.
Qed.


Lemma hansen_nq_raw_strict (φ1 φ2 : R) :
  0 <= φ1 → φ1 < φ2 → φ2 < 90 → hansen_nq_raw φ1 < hansen_nq_raw φ2.
Proof.
  intros H0 H12 H90.
  pose proof (deg2rad_range_le φ1 ltac:(lra)) as Hx1.
  pose proof (deg2rad_range_le φ2 ltac:(lra)) as Hx2.
  pose proof (deg2rad_lt φ1 φ2 H12) as Hx12.
  pose proof PI_RGT_0 as Hpi.
  unfold hansen_nq_raw, utils.tan, utils.exp, utils.PI.
  rewrite !deg2rad_half_angle.
  set (x1 := deg2rad φ1) in *. set (x2 := deg2rad φ2) in *.
  assert (1 <= tan (PI / 4 + x1 / 2)) as Ha1 by (apply tan_ge_1; lra).
  assert (tan (PI / 4 + x1 / 2) < tan (PI / 4 + x2 / 2)) as Ha
    by (apply tan_increasing; lra).
  assert (0 <= tan x1) as Ht1 by (apply tan_nonneg; lra).
  assert (tan x1 < tan x2) as Ht by (apply tan_increasing; lra).
  assert (1 <= exp (PI * tan x1)) as He1 by (apply exp_ge_1; nra).
  assert (exp (PI * tan x1) < exp (PI * tan x2)) as He
    by (apply exp_increasing; nra).
  apply Rmult_le_0_lt_compat; [nra | lra | nra | exact He].
Qed.

(** Below one degree [N_q] stays within [0.4 φ] of 1. *)
Lemma hansen_nq_raw_small (φ : R) :
  0 < φ <= 1 → hansen_nq_raw φ < 1 + 0.4 * φ.
Proof.
  intros [H0 H1].
  pose proof PI_lower as Hpl. pose proof PI_upper as Hpu.
  unfold hansen_nq_raw, utils.tan, utils.exp, utils.PI.
  rewrite deg2rad_half_angle.
  set (x := deg2rad φ).
  assert (0 < x <= 0.018 * φ) as [Hx0 Hx1] by (unfold x, deg2rad; nra).
  rewrite tan_PI4_plus by lra.
  pose proof (tan_nonneg (x / 2) ltac:(lra)) as Hu0.
  pose proof (tan_le_2x (x / 2) ltac:(lra)) as Hu1.
  pose proof (tan_nonneg x ltac:(lra)) as Ht0.
  pose proof (tan_le_2x x ltac:(lra)) as Ht1.
  set (u := tan (x / 2)) in *. set (t := tan x) in *.
  assert ((1 + u) / (1 - u) <= 1 + 2.1 * x) as Ha.
  { apply Rmult_le_reg_r with (1 - u); [lra|].
    replace ((1 + u) / (1 - u) * (1 - u)) with (1 + u) by (field; lra).
    nra. }
  assert (0 < (1 + u) / (1 - u)) as Ha0.
  { apply Rdiv_lt_0_compat; lra. }
  assert (exp (PI * t) <= 1 + 2 * (PI * t)) as He
    by (apply exp_le_1_2z; nra).
  pose proof (exp_pos (PI * t)) as He0.
  assert (((1 + u) / (1 - u)) ^ 2 <= 1 + 4.3 * x) as Ha2 by nra.
  assert (exp (PI * t) <= 1 + 12.96 * x) as He2 by nra.
  apply Rle_lt_trans with ((1 + 4.3 * x) * (1 + 12.96 * x)).
  - apply Rmult_le_compat; [nra | lra | exact Ha2 | exact He2].
  - nra.
Qed.

Lemma hansen_n_q_small (dp : nat) (φ : R) :
  0 < φ <= 1 / 10 ^ dp → hansen_ubc.n_q dp φ = Ok 1.
Proof.
  intros [H0 H1]. pose proof (pow10_pos dp) as Hp.
  assert (1 / 10 ^ dp <= 1) as Hle.
  { apply Rmult_le_reg_r with (10 ^ dp); [exact Hp|].
    replace (1 / 10 ^ dp * 10 ^ dp) with 1 by (field; lra).
    pose proof (pow_R1_Rle 10 dp ltac:(lra)). lra. }
  rewrite hansen_n_q_Ok. f_equal. apply round_to_1. split.
  - apply hansen_nq_raw_ge_1. lra.
  - apply Rlt_le_trans with (1 + 0.4 * φ).
    + apply hansen_nq_raw_small. lra.
    + assert (0.4 * φ <= 0.4 * (1 / 10 ^ dp)) by lra.
      replace (/ 2 / 10 ^ dp) with (/ 2 * (1 / 10 ^ dp)) by (field; lra).
      assert (0 < 1 / 10 ^ dp) by (apply Rdiv_lt_0_compat; lra).
      lra.
Qed.

(** ** Terzaghi: [N_q] before rounding *)

Lemma PI4_upper : PI / 4 < 0.81.
Proof. pose proof PI_upper. lra. Qed.

Lemma sin_diff_lower (x1 x2 : R) :
  0 <= x1 → x1 <= x2 → x2 <= PI / 2 →
  (x2 - x1) * cos x2 <= sin x2 - sin x1.
Proof.
  intros H0 [H12| ->] H2; [|lra].
  destruct (MVT_cor2 sin cos x1 x2 H12) as (c & Hc & Hc1 & Hc2).
  { intros c _. apply derivable_pt_lim_sin. }
  rewrite Hc. pose proof PI_RGT_0.
  assert (cos x2 <= cos c) by (apply cos_decr_1; lra).
  nra.
Qed.

Lemma sin_ge_x_cos (d : R) : 0 <= d <= PI / 2 → d * cos d <= sin d.
Proof.
  intros [H0 H1].
  pose proof (sin_diff_lower 0 d ltac:(lra) H0 H1) as H.
  rewrite sin_0 in H. lra.
Qed.

Lemma cos_lower_PI4 (x : R) : 0 <= x <= PI / 4 → 0.67 <= cos x.
Proof.
  intros [H0 H1]. pose proof PI4_upper. pose proof PI_RGT_0.
  pose proof (cos_ge_quadratic x ltac:(lra)). nra.
Qed.

Lemma terzaghi_g_nonneg (x : R) : 0 <= x <= PI / 4 → 0 <= terzaghi_g x.
Proof.
  intros [H0 H1]. pose proof PI_lower.
  pose proof (tan_nonneg x ltac:(lra)). unfold terzaghi_g. nra.
Qed.

Lemma terzaghi_g_pos (x : R) : 0 < x <= PI / 4 → 0 < terzaghi_g x.
Proof.
  intros [H0 H1]. pose proof PI_lower.
  pose proof (tan_gt_0 x ltac:(lra) ltac:(lra)). unfold terzaghi_g. nra.
Qed.


Lemma one_minus_sin_pos (x : R) : 0 <= x <= PI / 4 → 0 < 1 - sin x.
Proof.
  intros [H0 H1]. pose proof PI_RGT_0.
  pose proof (sin_lt_1 x ltac:(lra)). lra.
Qed.

Lemma sin_mono_PI4 (x1 x2 : R) :
  0 <= x1 → x1 <= x2 → x2 <= PI / 4 → 0 <= sin x1 ∧ sin x1 <= sin x2.
Proof.
  intros H0 H12 H2. pose proof PI_RGT_0. split.
  - apply sin_ge_0; lra.
  - apply sin_incr_1; lra.
Qed.

Lemma terzaghi_nq_raw_ge_1 (x : R) : 0 <= x <= PI / 4 → 1 <= terzaghi_nq_raw x.
Proof.
  intros Hx. unfold terzaghi_nq_raw. fold (terzaghi_g x).
  pose proof (exp_ge_1 _ (terzaghi_g_nonneg x Hx)) as He.
  pose proof (one_minus_sin_pos x Hx) as Hs.
  destruct (sin_mono_PI4 x x ltac:(lra) ltac:(lra) ltac:(lra)) as [Hs0 _].
  apply Rmult_le_reg_r with (1 - sin x); [exact Hs|].
  replace (exp (terzaghi_g x) / (1 - sin x) * (1 - sin x))
    with (exp (terzaghi_g x)) by (field; lra).
  lra.
Qed.

(** ** Terzaghi: [N_c] before rounding *)

Lemma exp_chord_ge_1 (y : R) : 0 < y → 1 <= exp_chord y.
Proof.
  intros Hy. unfold exp_chord. pose proof (exp_ineq1_le y).
  apply Rmult_le_reg_r with y; [exact Hy|].
  replace ((exp y - 1) / y * y) with (exp y - 1) by (field; lra). lra.
Qed.


Lemma terzaghi_k_mono (x1 x2 : R) :
  0 <= x1 → x1 <= x2 → x2 <= PI / 4 → terzaghi_k x1 <= terzaghi_k x2.
Proof.
  intros H0 H12 H2. unfold terzaghi_k.
  pose proof PI_lower as Hpl. pose proof PI4_upper as Hpu.
  pose proof (one_minus_sin_pos x1 ltac:(lra)) as Hs1.
  pose proof (one_minus_sin_pos x2 ltac:(lra)) as Hs2.
  destruct (sin_mono_PI4 x1 x2 H0 H12 H2) as [Hs0 Hs].
  pose proof (sin_diff_lower x1 x2 H0 H12 ltac:(lra)) as Hd.
  pose proof (cos_lower_PI4 x2 ltac:(lra)) as Hc.
  apply Rmult_le_reg_r with ((1 - sin x1) * (1 - sin x2)); [nra|].
  replace ((3 * PI / 2 - x1) / (1 - sin x1) * ((1 - sin x1) * (1 - sin x2)))
    with ((3 * PI / 2 - x1) * (1 - sin x2)) by (field; lra).
  replace ((3 * PI / 2 - x2) / (1 - sin x2) * ((1 - sin x1) * (1 - sin x2)))
    with ((3 * PI / 2 - x2) * (1 - sin x1)) by (field; lra).
  set (d := x2 - x1) in *.
  assert (0 <= d) as Hd0 by (unfold d; lra).
  assert (0.67 * d <= sin x2 - sin x1) as Hd1 by nra.
  assert (3.89 * (0.67 * d) <= (3 * PI / 2 - x2) * (sin x2 - sin x1)) as Hd2.
  { apply Rmult_le_compat; lra. }
  assert (d * (1 - sin x2) <= d) as Hd3 by nra.
  replace (3 * PI / 2 - x1) with (3 * PI / 2 - x2 + d) by (unfold d; lra).
  lra.
Qed.

Lemma terzaghi_k_lower (x : R) : 0 <= x <= PI / 4 → 3 * PI / 2 <= terzaghi_k x.
Proof.
  intros [H0 H1].
  pose proof (terzaghi_k_mono 0 x ltac:(lra) H0 H1) as H.
  unfold terzaghi_k in H at 1. rewrite sin_0 in H. lra.
Qed.

Lemma terzaghi_m_mono (x1 x2 : R) :
  0 <= x1 → x1 <= x2 → x2 <= PI / 4 →
  1 <= terzaghi_m x1 ∧ terzaghi_m x1 <= terzaghi_m x2.
Proof.
  intros H0 H12 H2. unfold terzaghi_m.
  pose proof PI_RGT_0 as Hpi.
  destruct (sin_mono_PI4 x1 x2 H0 H12 H2) as [Hs0 Hs].
  assert (0 < cos x1 <= 1) as [Hc1 Hc1'].
  { split; [apply cos_gt_0; lra | apply COS_bound]. }
  assert (0 < cos x2) as Hc2 by (apply cos_gt_0; lra).
  assert (cos x2 <= cos x1) as Hc by (apply cos_decr_1; lra).
  split.
  - apply Rmult_le_reg_r with (cos x1); [exact Hc1|].
    replace ((1 + sin x1) / cos x1 * cos x1) with (1 + sin x1) by (field; lra).
    lra.
  - apply Rmult_le_reg_r with (cos x1 * cos x2); [nra|].
    replace ((1 + sin x1) / cos x1 * (cos x1 * cos x2))
      with ((1 + sin x1) * cos x2) by (field; lra).
    replace ((1 + sin x2) / cos x2 * (cos x1 * cos x2))
      with ((1 + sin x2) * cos x1) by (field; lra).
    nra.
Qed.

Lemma terzaghi_nc_raw_split (x : R) :
  0 < x <= PI / 4 →
  terzaghi_nc_raw x
  = exp_chord (terzaghi_g x) * terzaghi_k x + terzaghi_m x.
Proof.
  intros [H0 H1]. pose proof PI_lower as Hpl.
  pose proof (one_minus_sin_pos x ltac:(lra)) as Hs.
  assert (0 < cos x) as Hc by (apply cos_gt_0; lra).
  assert (0 < sin x) as Hs0 by (apply sin_gt_0; lra).
  pose proof (sin2_cos2 x) as Hsc. unfold Rsqr in Hsc.
  unfold terzaghi_nc_raw, terzaghi_nq_raw, exp_chord, terzaghi_k, terzaghi_m.
  fold (terzaghi_g x).
  assert (terzaghi_g x = (3 * PI / 2 - x) * (sin x / cos x)) as Hg
    by reflexivity.
  pose proof (terzaghi_g_pos x ltac:(lra)) as Hg0.
  unfold tan.
  set (g := terzaghi_g x) in *. set (e := exp g).
  set (s := sin x) in *. set (c := cos x) in *.
  set (A := 3 * PI / 2 - x) in *. assert (0 < A) as HA by (unfold A; lra).
  assert (0 < s * (1 - s) * c) as Hpos
    by (repeat apply Rmult_lt_0_compat; lra).
  apply Rmult_eq_reg_r with (s * (1 - s) * c); [|lra].
  replace (1 / (s / c) * (e / (1 - s) - 1) * (s * (1 - s) * c))
    with (c * c * (e - 1 + s)) by (field; lra).
  replace (((e - 1) / g * (A / (1 - s)) + (1 + s) / c) * (s * (1 - s) * c))
    with ((e - 1) * (A * (s / c)) / g * (c * c) + (1 - s * s) * s)
    by (field; lra).
  rewrite <- Hg.
  replace ((e - 1) * g / g) with (e - 1) by (field; lra).
  replace (1 - s * s) with (c * c) by lra. ring.
Qed.


Lemma terzaghi_nc_raw_lower (x : R) : 0 < x <= PI / 4 → 5.70 <= terzaghi_nc_raw x.
Proof.
  intros [H0 H1]. pose proof PI_lower as Hpl.
  rewrite terzaghi_nc_raw_split by lra.
  pose proof (exp_chord_ge_1 _ (terzaghi_g_pos x ltac:(lra))) as Hh.
  pose proof (terzaghi_k_lower x ltac:(lra)) as Hk.
  destruct (terzaghi_m_mono x x ltac:(lra) ltac:(lra) H1) as [Hm _].
  assert (1 * (3 * PI / 2) <= exp_chord (terzaghi_g x) * terzaghi_k x).
  { apply Rmult_le_compat; lra. }
  lra.
Qed.
(** ** The returned factors are non-decreasing *)


Lemma round_ge_1 (v : R) (dp : nat) : 1 <= v → 1 <= round v dp.
Proof.
  intros H. rewrite <- (round_IZR 1 dp) at 1. now apply round_mono.
Qed.

Lemma round_5_70_ge (dp : nat) : 5.70 <= round 5.70 dp.
Proof.
  destruct dp as [|dp].
  - unfold round. rewrite pow_O.
    replace (5.70 * 1) with (IZR 5 + 0.7) by lra.
    assert (round_half_even (IZR 5 + 0.7) = 6%Z) as ->.
    { unfold round_half_even. rewrite (Zfloor_eq 5) by lra.
      rewrite decide_False by lra. rewrite decide_True by lra. reflexivity. }
    lra.
  - replace 5.70 with (IZR 57 / 10 ^ 1) by lra.
    rewrite round_of_short_decimal by lia. lra.
Qed.


Lemma hansen_n_gamma_Ok (dp : nat) (φ : R) :
  hansen_ubc.n_gamma dp φ
  = Ok (round (1.8 * (round (hansen_nq_raw φ) dp - 1) * utils.tan φ) dp).
Proof. reflexivity. Qed.


Lemma terzaghi_nq_returns (dp : nat) (ty : string) (φ : R) :
  0 <= φ < 90 →
  terzaghi.TerzaghiBCF.nq dp (terzaghi.TerzaghiBCF.new ty φ)
  = Ok (round (terzaghi_nq_raw (deg2rad φ)) dp).
Proof.
  intros Hφ. unfold terzaghi.TerzaghiBCF.nq, terzaghi.TerzaghiBCF.new,
    terzaghi.TerzaghiBCF.phi.
  rewrite terzaghi__nq_Ok by now apply deg2rad_range_le.
  reflexivity.
Qed.


Lemma terzaghi_ngamma_returns (dp : nat) (ty : string) (φ : R) :
  0 <= φ < 90 →
  casefold ty = "meyerhof" ∨ casefold ty = "hansen" →
  terzaghi.TerzaghiBCF.ngamma dp (terzaghi.TerzaghiBCF.new ty φ)
  = Ok (round (if decide (casefold ty = "meyerhof")
               then (terzaghi_nq_raw (deg2rad φ) - 1)
                    * tan (1.4 * deg2rad φ)
               else 1.8 * (terzaghi_nq_raw (deg2rad φ) - 1)
                    * tan (deg2rad φ)) dp).
Proof.
  intros Hφ Hty.
  pose proof (deg2rad_range_le φ Hφ) as Hx.
  destruct (decide (casefold ty = "meyerhof")) as [Hm|Hm].
  - rewrite terzaghi_ngamma_meyerhof by exact Hm.
    unfold terzaghi.TerzaghiBCF.new, terzaghi.TerzaghiBCF.phi.
    now rewrite terzaghi__nq_Ok.
  - destruct Hty as [?|Hh]; [contradiction|].
    rewrite terzaghi_ngamma_hansen by exact Hh.
    unfold terzaghi.TerzaghiBCF.new, terzaghi.TerzaghiBCF.phi.
    now rewrite terzaghi__nq_Ok.
Qed.



Lemma terzaghi_nc_returns (dp : nat) (ty : string) (φ : R) :
  0 < φ < 90 →
  terzaghi.TerzaghiBCF.nc dp (terzaghi.TerzaghiBCF.new ty φ)
  = Ok (if np_isclose (deg2rad φ) 0.0 then 5.70
        else round (terzaghi_nc_raw (deg2rad φ)) dp).
Proof.
  intros Hφ. pose proof (deg2rad_range φ Hφ) as Hx.
  unfold terzaghi.TerzaghiBCF.nc, terzaghi.TerzaghiBCF.new,
    terzaghi.TerzaghiBCF.phi.
  destruct (np_isclose (deg2rad φ) 0.0); [reflexivity|].
  rewrite truediv_Ok.
  - rewrite terzaghi__nq_Ok by lra. reflexivity.
  - apply Rgt_not_eq. unfold terzaghi.tan. apply tan_gt_0; lra.
Qed.




(** ** Hansen: [N_c] over the rounded [N_q] *)

Lemma round_half_even_within (z : Z) (y : R) :
  IZR z - / 2 < y < IZR z + / 2 → round_half_even y = z.
Proof.
  intros [Hl Hu].
  destruct (Rlt_le_dec y (IZR z)) as [Hlt|Hge].
  - unfold round_half_even.
    rewrite (Zfloor_eq (z - 1) y) by (rewrite minus_IZR; lra).
    rewrite minus_IZR.
    rewrite decide_False by lra. rewrite decide_True by lra. lia.
  - apply round_half_even_near. lra.
Qed.

Lemma round_within (z : Z) (v : R) (dp : nat) :
  (IZR z - / 2) / 10 ^ dp < v < (IZR z + / 2) / 10 ^ dp →
  round v dp = IZR z / 10 ^ dp.
Proof.
  intros [Hl Hu]. pose proof (pow10_pos dp) as Hp. unfold round.
  rewrite (round_half_even_within z); [reflexivity|].
  split.
  - apply Rmult_lt_compat_r with (r := 10 ^ dp) in Hl; [|exact Hp].
    replace ((IZR z - / 2) / 10 ^ dp * 10 ^ dp) with (IZR z - / 2) in Hl
      by (field; lra).
    exact Hl.
  - apply Rmult_lt_compat_r with (r := 10 ^ dp) in Hu; [|exact Hp].
    replace ((IZR z + / 2) / 10 ^ dp * 10 ^ dp) with (IZR z + / 2) in Hu
      by (field; lra).
    exact Hu.
Qed.

Lemma tan_ge_x (y : R) : 0 <= y < PI / 2 → y <= tan y.
Proof.
  intros [H0 H1]. pose proof PI_RGT_0.
  pose proof (sin_ge_x_cos y ltac:(lra)) as Hs.
  assert (0 < cos y) as Hc by (apply cos_gt_0; lra).
  unfold tan. apply Rmult_le_reg_r with (cos y); [exact Hc|].
  replace (sin y / cos y * cos y) with (sin y) by (field; lra). exact Hs.
Qed.

Lemma tan_le_tight (y : R) : 0 <= y <= 0.01 → tan y <= 1.001 * y.
Proof.
  intros [H0 H1]. pose proof PI_lower.
  pose proof (cos_ge_quadratic y ltac:(lra)) as Hc.
  pose proof (sin_le_x y H0) as Hs.
  assert (0.9999 <= cos y) as Hc' by nra.
  unfold tan. apply Rmult_le_reg_r with (cos y); [lra|].
  replace (sin y / cos y * cos y) with (sin y) by (field; lra). nra.
Qed.

(** Up to 0.15 degrees [N_q - 1] lies between [0.0894 φ] and [0.0956 φ]. *)
Lemma hansen_nq_raw_narrow (φ : R) :
  0 < φ <= 0.15 →
  1 + 0.0894 * φ <= hansen_nq_raw φ <= 1 + 0.0956 * φ.
Proof.
  intros [H0 H1].
  pose proof PI_lower as Hpl. pose proof PI_upper as Hpu.
  unfold hansen_nq_raw, utils.tan, utils.exp, utils.PI.
  rewrite deg2rad_half_angle.
  set (x := deg2rad φ).
  assert (0.017416 * φ <= x <= 0.018 * φ) as [Hxl Hxu]
    by (unfold x, deg2rad; nra).
  rewrite tan_PI4_plus by lra.
  pose proof (tan_ge_x (x / 2) ltac:(lra)) as Hu0.
  pose proof (tan_le_tight (x / 2) ltac:(lra)) as Hu1.
  pose proof (tan_ge_x x ltac:(lra)) as Ht0.
  pose proof (tan_le_tight x ltac:(lra)) as Ht1.
  set (u := tan (x / 2)) in *. set (t := tan x) in *.
  assert (1 + x <= (1 + u) / (1 - u) <= 1 + 1.0061 * x) as [Hal Hau].
  { split.
    - apply Rmult_le_reg_r with (1 - u); [lra|].
      replace ((1 + u) / (1 - u) * (1 - u)) with (1 + u) by (field; lra).
      nra.
    - apply Rmult_le_reg_r with (1 - u); [lra|].
      replace ((1 + u) / (1 - u) * (1 - u)) with (1 + u) by (field; lra).
      nra. }
  assert (1 + PI * t <= exp (PI * t)) as Hel by apply exp_ineq1_le.
  assert (exp (PI * t) <= 1 + 3.2757 * x) as Heu.
  { assert (0 <= PI * t <= 3.24324 * x) as [Hz0 Hz1] by nra.
    pose proof (exp_ineq1_le (- (PI * t))) as Hn. rewrite exp_Ropp in Hn.
    pose proof (exp_pos (PI * t)) as Hp.
    set (z := PI * t) in *. set (E := exp z) in *.
    assert (E * (1 - z) <= 1) as HE.
    { apply Rmult_le_reg_l with (/ E); [now apply Rinv_0_lt_compat|].
      rewrite <- Rmult_assoc, Rinv_l by lra. lra. }
    nra. }
  set (a := (1 + u) / (1 - u)) in *. set (E := exp (PI * t)) in *.
  split.
  - assert ((1 + x) ^ 2 <= a ^ 2) by nra.
    assert (1 + 3.135 * x <= E) by nra.
    apply Rle_trans with ((1 + x) ^ 2 * (1 + 3.135 * x)).
    + assert (1 + 5.135 * x <= (1 + x) ^ 2 * (1 + 3.135 * x)) by nra.
      lra.
    + apply Rmult_le_compat; nra.
  - assert (a ^ 2 <= 1 + 2.015 * x) by nra.
    apply Rle_trans with ((1 + 2.015 * x) * (1 + 3.2757 * x)); [|nra].
    apply Rmult_le_compat; nra.
Qed.

Lemma hansen_n_q_one_cent (φ : R) :
  0.06 <= φ <= 0.15 → hansen_ubc.n_q 2 φ = Ok 1.01.
Proof.
  intros [H0 H1]. rewrite hansen_n_q_Ok. f_equal.
  destruct (hansen_nq_raw_narrow φ ltac:(lra)) as [Hl Hu].
  replace 1.01 with (IZR 101 / 10 ^ 2) by lra.
  apply round_within. lra.
Qed.

Lemma isclose_far (rel_tol abs_tol x : R) :
  0 <= rel_tol < 1 → abs_tol < x → 0 < x →
  utils.isclose rel_tol abs_tol x 0.0 = false.
Proof.
  intros [Hr0 Hr1] Hx Hx0. unfold utils.isclose. apply bool_decide_eq_false.
  replace (x - 0.0) with x by lra. replace 0.0 with 0 by lra.
  rewrite Rabs_R0.
  pose proof (Rabs_pos x) as Hp. pose proof (Rle_abs x) as Hle.
  rewrite (Rmax_left (Rabs x) 0) by lra.
  intros H. apply Rmax_Rle in H. destruct H as [H|H]; nra.
Qed.





(** The slip that keeps [N_c] of Hansen out of the monotonicity result:
    between 0.06 and 0.15 degrees the rounded [n_q] stays at 1.01 while
    [cot] falls, and [n_c] drops from at least 9 to at most 4. *)
Lemma hansen_n_c_decreases :
  ∃ a b, hansen_ubc.n_c 2 (1 / 10 ^ 9) 0 0.06 = Ok a
         ∧ hansen_ubc.n_c 2 (1 / 10 ^ 9) 0 0.15 = Ok b
         ∧ 9 <= a ∧ b <= 4.
Proof.
  pose proof PI_lower as Hpl. pose proof PI_upper as Hpu.
  assert (∀ φ, 0.06 <= φ <= 0.15 →
            hansen_ubc.n_c 2 (1 / 10 ^ 9) 0 φ
            = Ok (round (1 / utils.tan φ * (1.01 - 1)) 2)) as Hnc.
  { intros φ Hφ. unfold hansen_ubc.n_c, utils.cot.
    rewrite isclose_far by lra.
    rewrite truediv_Ok by (apply Rgt_not_eq, utils_tan_pos; lra).
    now rewrite hansen_n_q_one_cent. }
  eexists _, _. split; [apply Hnc; lra|]. split; [apply Hnc; lra|].
  split.
  - rewrite <- (round_IZR 9 2). apply round_mono.
    unfold utils.tan. set (x := deg2rad 0.06).
    assert (0 < x <= 0.00108) as [Hx0 Hx1] by (unfold x, deg2rad; lra).
    pose proof (tan_le_tight x ltac:(lra)) as Ht.
    pose proof (tan_gt_0 x ltac:(lra) ltac:(lra)) as Ht0.
    apply Rmult_le_reg_r with (tan x); [exact Ht0|].
    replace (1 / tan x * (1.01 - 1) * tan x) with (1.01 - 1) by (field; lra).
    lra.
  - rewrite <- (round_IZR 4 2). apply round_mono.
    unfold utils.tan. set (x := deg2rad 0.15).
    assert (0.0026 <= x <= 0.0027) as [Hx0 Hx1] by (unfold x, deg2rad; lra).
    pose proof (tan_ge_x x ltac:(lra)) as Ht.
    apply Rmult_le_reg_r with (tan x); [lra|].
    replace (1 / tan x * (1.01 - 1) * tan x) with (1.01 - 1) by (field; lra).
    lra.
Qed.

(** ** The factory of foundations *)

Lemma casefold_ascii_idem (c : Ascii.ascii) :
  casefold_ascii (casefold_ascii c) = casefold_ascii c.
Proof.
  destruct c as [[] [] [] [] [] [] [] []]; vm_compute; reflexivity.
Qed.

Lemma casefold_idem (s : string) : casefold (casefold s) = casefold s.
Proof.
  induction s as [|c s IH]; [reflexivity|].
  cbn [casefold]. now rewrite casefold_ascii_idem, IH.
Qed.

Lemma validate_gt0_Ok (name : string) (v : R) :
  v > 0 → validate_gt0 name v = Ok tt.
Proof. intros H. unfold validate_gt0. now rewrite decide_True. Qed.

Lemma validate_ge0_Ok (name : string) (v : R) :
  v >= 0 → validate_ge0 name v = Ok tt.
Proof. intros H. unfold validate_ge0. now rewrite decide_True. Qed.

Lemma validate_gt0_inv (name : string) (v : R) (u : unit) :
  validate_gt0 name v = Ok u → v > 0.
Proof. unfold validate_gt0. case_decide; [auto | discriminate]. Qed.

Lemma validate_ge0_inv (name : string) (v : R) (u : unit) :
  validate_ge0 name v = Ok u → v >= 0.
Proof. unfold validate_ge0. case_decide; [auto | discriminate]. Qed.

Lemma new_FoundationSize_inv (d e : R) (f : FootingSize) (fs : FoundationSize) :
  new_FoundationSize d f e = Ok fs →
  d > 0 ∧ e >= 0 ∧ fs = mkFoundationSize d f e.
Proof.
  unfold new_FoundationSize.
  destruct (validate_gt0 "depth" d) as [[]|] eqn:Hd; [|discriminate].
  destruct (validate_ge0 "eccentricity" e) as [[]|] eqn:He; [|discriminate].
  cbn. intros [= <-].
  apply validate_gt0_inv in Hd. apply validate_ge0_inv in He. auto.
Qed.

(** X1: the footing shape is matched without regard to case. *)
Theorem create_foundation_case_insensitive (depth width : R)
    (length : option R) (eccentricity : R) (footing_shape : string) :
  create_foundation depth width length eccentricity footing_shape
  = create_foundation depth width length eccentricity (casefold footing_shape).
Proof.
  unfold create_foundation. now rewrite casefold_idem.
Qed.

(** X2: for an ASCII shape string, what [create_foundation] returns
    satisfies the validators and carries the arguments: positive depth and
    width, a non-negative eccentricity, the shape named by the string; the
    length is infinite on a strip (a length given to a strip is ignored),
    the width on a square and on a circle, and the given positive length on
    a rectangle. *)
Theorem create_foundation_invariant (d w : R) (l : option R) (e : R)
    (s : string) (fs : FoundationSize) :
  isascii s = true →
  create_foundation d w l e s = Ok fs →
  d > 0 ∧ w > 0 ∧ e >= 0
  ∧ depth fs = d ∧ width fs = w ∧ eccentricity fs = e
  ∧ Shape_value (footing_shape fs) = casefold s
  ∧ match footing_shape fs with
    | STRIP => length fs = INF
    | SQUARE | CIRCLE => length fs = Num w
    | RECTANGLE => ∃ l', l = Some l' ∧ l' > 0 ∧ length fs = Num l'
    end.
Proof.
  intros _. unfold create_foundation.
  destruct (decide (casefold s = Shape_value STRIP)) as [Hs|_].
  { unfold StripFooting.
    destruct (validate_gt0 "width" w) as [[]|] eqn:Hw; [|discriminate].
    cbn. intros H. apply new_FoundationSize_inv in H as (Hd & He & ->).
    apply validate_gt0_inv in Hw. cbn. rewrite Hs. auto 10. }
  destruct (decide (casefold s = Shape_value SQUARE)) as [Hs|_].
  { unfold SquareFooting.
    destruct (validate_gt0 "width" w) as [[]|] eqn:Hw; [|discriminate].
    cbn. intros H. apply new_FoundationSize_inv in H as (Hd & He & ->).
    apply validate_gt0_inv in Hw. cbn. rewrite Hs. auto 10. }
  destruct (decide (casefold s = Shape_value CIRCLE)) as [Hs|_].
  { unfold CircularFooting.
    destruct (validate_gt0 "diameter" w) as [[]|] eqn:Hw; [|discriminate].
    cbn. intros H. apply new_FoundationSize_inv in H as (Hd & He & ->).
    apply validate_gt0_inv in Hw. cbn. rewrite Hs. auto 10. }
  destruct (decide (casefold s = Shape_value RECTANGLE)) as [Hs|_];
    [|discriminate].
  destruct l as [l'|]; [|discriminate].
  destruct (decide (l' = 0)); [discriminate|].
  unfold RectangularFooting.
  destruct (validate_gt0 "width" w) as [[]|] eqn:Hw; [|discriminate].
  destruct (validate_gt0 "length" l') as [[]|] eqn:Hl; [|discriminate].
  cbn. intros H. apply new_FoundationSize_inv in H as (Hd & He & ->).
  apply validate_gt0_inv in Hw. apply validate_gt0_inv in Hl.
  cbn. rewrite Hs. repeat split; auto. exists l'. auto.
Qed.

Lemma create_foundation_invariant_witness :
  depth (mkFoundationSize 1.5 (mkSquareFooting 1.2) 0) = 1.5
  ∧ length (mkFoundationSize 1.5 (mkSquareFooting 1.2) 0) = Num 1.2.
Proof.
  assert (create_foundation 1.5 1.2 None 0 "SQUARE"
          = Ok (mkFoundationSize 1.5 (mkSquareFooting 1.2) 0)) as H.
  { unfold create_foundation. cbn.
    unfold SquareFooting, new_FoundationSize.
    rewrite validate_gt0_Ok by lra. cbn.
    rewrite validate_gt0_Ok by lra. cbn.
    rewrite validate_ge0_Ok by lra. reflexivity. }
  assert (isascii "SQUARE" = true) as Ha by reflexivity.
  destruct (create_foundation_invariant _ _ _ _ _ _ Ha H)
    as (_ & _ & _ & Hd & _ & _ & _ & Hl).
  split; [exact Hd | exact Hl].
Defined.

(** The valid calls of [create_foundation], shape by shape. *)
Lemma create_foundation_valid (d w e : R) (l : option R) (s : string) :
  d > 0 → w > 0 → e >= 0 →
  (casefold s = "strip" →
   create_foundation d w l e s = Ok (mkFoundationSize d (mkStripFooting w INF) e))
  ∧ (casefold s = "square" →
     create_foundation d w l e s = Ok (mkFoundationSize d (mkSquareFooting w) e))
  ∧ (casefold s = "circle" →
     create_foundation d w l e s
     = Ok (mkFoundationSize d (mkCircularFooting w) e))
  ∧ (∀ l', casefold s = "rectangle" → l = Some l' → l' > 0 →
     create_foundation d w l e s
     = Ok (mkFoundationSize d (mkRectangularFooting w l') e)).
Proof.
  intros Hd Hw He. unfold create_foundation, new_FoundationSize.
  repeat split.
  - intros ->. cbn. unfold StripFooting.
    rewrite ?validate_gt0_Ok by lra. cbn.
    rewrite ?validate_gt0_Ok, ?validate_ge0_Ok by lra. reflexivity.
  - intros ->. cbn. unfold SquareFooting.
    rewrite ?validate_gt0_Ok by lra. cbn.
    rewrite ?validate_gt0_Ok, ?validate_ge0_Ok by lra. reflexivity.
  - intros ->. cbn. unfold CircularFooting.
    rewrite ?validate_gt0_Ok by lra. cbn.
    rewrite ?validate_gt0_Ok, ?validate_ge0_Ok by lra. reflexivity.
  - intros l' -> -> Hl.
    rewrite !(decide_False (P := "rectangle" = _)) by discriminate.
    rewrite (decide_True (P := "rectangle" = _)) by reflexivity.
    rewrite decide_False by (apply Rgt_not_eq; lra).
    unfold RectangularFooting.
    rewrite ?validate_gt0_Ok by lra. cbn.
    rewrite ?validate_gt0_Ok, ?validate_ge0_Ok by lra. reflexivity.
Qed.

(** X3: [create_foundation] accepts exactly the valid dimensions: with a
    positive depth and width and a non-negative eccentricity it builds the
    strip, the square and the circle, and the rectangle when a positive
    length is given. *)
Theorem create_foundation_accepts (d w e : R) (l : option R) (s : string) :
  d > 0 → w > 0 → e >= 0 →
  (casefold s = "strip" →
   create_foundation d w l e s = Ok (mkFoundationSize d (mkStripFooting w INF) e))
  ∧ (casefold s = "square" →
     create_foundation d w l e s = Ok (mkFoundationSize d (mkSquareFooting w) e))
  ∧ (casefold s = "circle" →
     create_foundation d w l e s
     = Ok (mkFoundationSize d (mkCircularFooting w) e))
  ∧ (∀ l', casefold s = "rectangle" → l = Some l' → l' > 0 →
     create_foundation d w l e s
     = Ok (mkFoundationSize d (mkRectangularFooting w l') e)).
Proof. exact (create_foundation_valid d w e l s). Qed.

Lemma create_foundation_accepts_witness :
  create_foundation 1 1.5 (Some 2.5) 0 "Rectangle"
  = Ok (mkFoundationSize 1 (mkRectangularFooting 1.5 2.5) 0).
Proof.
  destruct (create_foundation_accepts 1 1.5 0 (Some 2.5) "Rectangle")
    as (_ & _ & _ & H); [lra | lra | lra |].
  apply (H 2.5); [reflexivity | reflexivity | lra].
Defined.

(** X4: an ASCII string that names no footing shape raises [TypeError],
    and a rectangle without a length (or with the length 0) raises
    [ValueError], before any dimension is validated. *)
Theorem create_foundation_rejects (d w e : R) (l : option R) (s : string) :
  (isascii s = true →
   casefold s ≠ "strip" → casefold s ≠ "square" → casefold s ≠ "circle" →
   casefold s ≠ "rectangle" →
   create_foundation d w l e s = Raise (TypeError "Invalid footing shape."))
  ∧ (casefold s = "rectangle" → l = None ∨ l = Some 0 →
     create_foundation d w l e s
     = Raise (ValueError "Length of footing must be provided.")).
Proof.
  unfold create_foundation. split.
  - intros _ H1 H2 H3 H4. cbn.
    rewrite !decide_False by assumption. reflexivity.
  - intros -> Hl.
    rewrite !(decide_False (P := "rectangle" = _)) by discriminate.
    rewrite (decide_True (P := "rectangle" = _)) by reflexivity.
    destruct Hl as [-> | ->]; [reflexivity|].
    rewrite decide_True by reflexivity. reflexivity.
Qed.

Lemma create_foundation_rejects_witness :
  create_foundation (-1) 0 None 0 "triangle"
  = Raise (TypeError "Invalid footing shape.").
Proof.
  destruct (create_foundation_rejects (-1) 0 0 None "triangle") as [H _].
  apply H; [reflexivity | discriminate ..].
Defined.

(** X5: the eccentricity is only checked to be non-negative: every
    eccentricity of half the width or more is accepted and leaves an
    effective width that is not positive. *)
Theorem effective_width_not_enforced (d w e : R) :
  d > 0 → w > 0 → e >= w / 2 →
  ∃ fs, create_foundation d w None e "square" = Ok fs
        ∧ effective_width fs = w - 2 * e
        ∧ effective_width fs <= 0.
Proof.
  intros Hd Hw He.
  destruct (create_foundation_valid d w e None "square") as (_ & H & _);
    [lra | lra | lra |].
  eexists. split; [apply H; reflexivity|].
  unfold effective_width, width. cbn. split; lra.
Qed.

Lemma effective_width_not_enforced_witness :
  ∃ fs, create_foundation 1.5 2 None 1 "square" = Ok fs
        ∧ effective_width fs = 2 - 2 * 1
        ∧ effective_width fs <= 0.
Proof.
  apply (effective_width_not_enforced 1.5 2 1); lra.
Defined.

(** ** Local shear failure *)

Lemma rad2deg_deg2rad (x : R) : rad2deg (deg2rad x) = x.
Proof. unfold rad2deg, deg2rad. field. apply PI_neq0. Qed.

Lemma rad2deg_le (x y : R) : x <= y → rad2deg x <= rad2deg y.
Proof.
  intros H. unfold rad2deg. pose proof PI_RGT_0 as Hpi.
  apply Rmult_le_compat_r; [left; now apply Rinv_0_lt_compat | lra].
Qed.

Lemma atan_le_mono (x y : R) : x <= y → atan x <= atan y.
Proof. intros [H| ->]; [left; now apply atan_increasing | lra]. Qed.

(** X6: with [apply_local_shear] the cohesion read from the object is two
    thirds of the stored one, and the friction angle read from it lies
    between 0 and the stored angle (strictly below it unless it is 0);
    without the flag both are read as stored. *)
Theorem local_shear_reduces (self : ubc.UltimateBearingCapacity) :
  0 <= ubc._friction_angle self < 90 →
  0 <= ubc._cohesion self →
  (ubc.apply_local_shear self = true →
   ubc.cohesion self = 2 / 3 * ubc._cohesion self
   ∧ ubc.cohesion self <= ubc._cohesion self
   ∧ 0 <= ubc.friction_angle self <= ubc._friction_angle self
   ∧ (0 < ubc._friction_angle self →
      ubc.friction_angle self < ubc._friction_angle self))
  ∧ (ubc.apply_local_shear self = false →
     ubc.cohesion self = ubc._cohesion self
     ∧ ubc.friction_angle self = ubc._friction_angle self).
Proof.
  intros Hφ Hc. unfold ubc.cohesion, ubc.friction_angle.
  split; intros ->; [|auto].
  set (φ := ubc._friction_angle self) in *.
  pose proof (deg2rad_range_le φ Hφ) as Hx.
  pose proof PI_RGT_0 as Hpi.
  pose proof (tan_nonneg _ Hx) as Ht.
  unfold utils.arctan, utils.tan.
  split; [reflexivity|]. split; [lra|].
  assert (rad2deg (atan (tan (deg2rad φ))) = φ) as Hid.
  { rewrite atan_tan by lra. apply rad2deg_deg2rad. }
  split; [split|].
  - replace 0 with (rad2deg (atan 0)) at 1
      by (rewrite atan_0; unfold rad2deg; lra).
    apply rad2deg_le, atan_le_mono. lra.
  - rewrite <- Hid at 2. apply rad2deg_le, atan_le_mono. lra.
  - intros Hpos. rewrite <- Hid at 2.
    assert (0 < tan (deg2rad φ)) as Ht'.
    { apply tan_gt_0; [|lra]. rewrite <- deg2rad_0. now apply deg2rad_lt. }
    unfold rad2deg.
    apply Rmult_lt_compat_r; [now apply Rinv_0_lt_compat|].
    apply Rmult_lt_compat_r; [lra|].
    apply atan_increasing. lra.
Qed.

Lemma local_shear_reduces_witness :
  ubc.cohesion (ubc.mkUltimateBearingCapacity 25 15 18 0 INF square_2m true)
  = 2 / 3 * 15.
Proof.
  pose proof (local_shear_reduces
                (ubc.mkUltimateBearingCapacity 25 15 18 0 INF square_2m true))
    as H.
  cbn in H. destruct H as [H _]; [lra | lra |].
  destruct (H eq_refl) as [Hc _]. exact Hc.
Defined.

(** ** The range of the water-table corrections *)

Section water_range.
Variable self : ubc.UltimateBearingCapacity.
Variable w : R.
Let D := depth (ubc.foundation_size self).
Let B := effective_width (ubc.foundation_size self).
Hypothesis depth_pos : D > 0.
Hypothesis width_pos : B > 0.
Hypothesis level : ubc.ground_water_level self = Num w.

Lemma surcharge_corr_value :
  ubc.surcharge_water_corr self
  = Ok (if decide (w < D) then 1 - 0.5 * (D - w) / D else 1).
Proof.
  rewrite (surcharge_water_corr_finite self depth_pos w level). fold D.
  f_equal. case_decide.
  - rewrite Rmax_left by lra. apply Rmin_left.
    assert (0 <= 0.5 * (D - w) / D); [|lra].
    apply Rmult_le_pos; [lra | left; now apply Rinv_0_lt_compat].
  - rewrite Rmax_right by lra.
    replace (0.5 * 0 / D) with 0 by (field; lra).
    rewrite Rminus_0_r. apply Rmin_left. lra.
Qed.

Lemma embedment_corr_value :
  ubc.embedment_water_corr self
  = Ok (if decide (w <= D) then 0.5
        else if decide (w < D + B) then 0.5 + 0.5 * (w - D) / B
        else 1).
Proof.
  rewrite (embedment_water_corr_finite self width_pos w level). fold D B.
  f_equal. case_decide.
  - rewrite Rmax_right by lra.
    replace (0.5 * 0 / B) with 0 by (field; lra).
    rewrite Rplus_0_r. apply Rmin_left. lra.
  - rewrite Rmax_left by lra.
    assert (0.5 * (w - D) / B * B = 0.5 * (w - D)) as Hq by (field; lra).
    case_decide.
    + apply Rmin_left.
      assert (0.5 * (w - D) / B < 0.5); [|lra].
      apply Rmult_lt_reg_r with B; [lra|]. rewrite Hq. lra.
    + apply Rmin_right.
      assert (0.5 <= 0.5 * (w - D) / B); [|lra].
      apply Rmult_le_reg_r with B; [lra|]. rewrite Hq. lra.
Qed.
End water_range.

(** X7: with the water table at a finite level [w >= 0], on a foundation
    of positive depth and effective width both corrections lie between 0.5
    and 1; the surcharge correction is 1 as soon as the water is at or
    below the base, the embedment correction is 0.5 as long as the water is
    at or above the base and reaches 1 when the water is a width or more
    below it, where the table has no effect at all. *)
Theorem water_corrections_range (self : ubc.UltimateBearingCapacity) (w : R) :
  let D := depth (ubc.foundation_size self) in
  let B := effective_width (ubc.foundation_size self) in
  D > 0 → B > 0 → 0 <= w →
  ubc.ground_water_level self = Num w →
  ∃ cq cg,
    ubc.surcharge_water_corr self = Ok cq
    ∧ ubc.embedment_water_corr self = Ok cg
    ∧ 0.5 <= cq <= 1 ∧ 0.5 <= cg <= 1
    ∧ (D <= w → cq = 1)
    ∧ (w <= D → cg = 0.5)
    ∧ (D + B <= w → cq = 1 ∧ cg = 1).
Proof.
  intros D B HD HB Hw Hlvl.
  rewrite (surcharge_corr_value self w HD Hlvl).
  rewrite (embedment_corr_value self w HB Hlvl).
  fold D B. eexists _, _. split; [reflexivity|]. split; [reflexivity|].
  assert ((D - w) / D * D = D - w) as Hq1 by (field; lra).
  assert ((w - D) / B * B = w - D) as Hq2 by (field; lra).
  repeat split; repeat case_decide; try lra.
  - assert ((D - w) / D <= 1); [|lra].
    apply Rmult_le_reg_r with D; [lra|]. rewrite Hq1. lra.
  - assert (0 <= (D - w) / D); [|lra].
    apply Rmult_le_reg_r with D; [lra|]. rewrite Hq1. lra.
  - assert (0 <= (w - D) / B); [|lra].
    apply Rmult_le_reg_r with B; [lra|]. rewrite Hq2. lra.
  - assert ((w - D) / B <= 1); [|lra].
    apply Rmult_le_reg_r with B; [lra|]. rewrite Hq2. lra.
Qed.

Lemma water_corrections_range_witness :
  ∃ cq cg,
    ubc.surcharge_water_corr strip_with_water = Ok cq
    ∧ ubc.embedment_water_corr strip_with_water = Ok cg
    ∧ 0.5 <= cq <= 1 ∧ 0.5 <= cg <= 1.
Proof.
  pose proof (water_corrections_range strip_with_water 0.4) as H.
  cbn in H.
  destruct H as (cq & cg & H1 & H2 & H3 & H4 & _);
    [lra | unfold effective_width, width; cbn; lra | lra | reflexivity |].
  exists cq, cg. auto.
Defined.

(** ** The water table and the capacity *)

(** X8: lowering the water table never lowers a correction: for two finite
    levels [w1 <= w2] under the same foundation, each correction at [w1]
    is at most the one at [w2]. *)
Theorem water_corrections_monotone (self : ubc.UltimateBearingCapacity)
    (w1 w2 : R) :
  let D := depth (ubc.foundation_size self) in
  let B := effective_width (ubc.foundation_size self) in
  D > 0 → B > 0 → w1 <= w2 →
  returned_le (ubc.surcharge_water_corr (with_water_level self (Num w1)))
              (ubc.surcharge_water_corr (with_water_level self (Num w2)))
  ∧ returned_le (ubc.embedment_water_corr (with_water_level self (Num w1)))
                (ubc.embedment_water_corr (with_water_level self (Num w2))).
Proof.
  intros D B HD HB Hw.
  rewrite (surcharge_corr_value _ w1), (surcharge_corr_value _ w2),
    (embedment_corr_value _ w1), (embedment_corr_value _ w2)
    by (assumption || reflexivity).
  cbn. fold D B.
  assert (∀ x, x / D * D = x) as Hq1 by (intros; field; lra).
  assert (∀ x, x / B * B = x) as Hq2 by (intros; field; lra).
  assert (∀ x y, x <= y → x / D <= y / D) as Hm1.
  { intros x y Hxy. apply Rmult_le_reg_r with D; [lra|]. rewrite !Hq1. lra. }
  assert (∀ x y, x <= y → x / B <= y / B) as Hm2.
  { intros x y Hxy. apply Rmult_le_reg_r with B; [lra|]. rewrite !Hq2. lra. }
  split.
  - repeat case_decide; try lra.
    + pose proof (Hm1 (0.5 * (D - w2)) (0.5 * (D - w1)) ltac:(lra)). lra.
    + pose proof (Hm1 0 (0.5 * (D - w1)) ltac:(lra)) as H'.
      replace (0 / D) with 0 in H' by (field; lra). lra.
  - repeat case_decide; try lra.
    + pose proof (Hm2 0 (0.5 * (w2 - D)) ltac:(lra)) as H'.
      replace (0 / B) with 0 in H' by (field; lra). lra.
    + pose proof (Hm2 (0.5 * (w1 - D)) (0.5 * (w2 - D)) ltac:(lra)). lra.
    + pose proof (Hm2 (0.5 * (w1 - D)) (0.5 * B) ltac:(lra)) as H'.
      replace (0.5 * B / B) with 0.5 in H' by (field; lra). lra.
Qed.

Lemma water_corrections_monotone_witness :
  returned_le (ubc.surcharge_water_corr (with_water_level strip_with_water (Num 0.4)))
              (ubc.surcharge_water_corr (with_water_level strip_with_water (Num 1))).
Proof.
  pose proof (water_corrections_monotone strip_with_water 0.4 1) as H.
  cbn in H.
  destruct H as [H _];
    [lra | unfold effective_width, width; cbn; lra | lra |].
  exact H.
Defined.

(** X9: when the eccentricity is half the width, so that the effective
    width is 0, a finite water level makes [_embedment_term] divide by
    zero, and [bearing_capacity] raises [ZeroDivisionError] once its
    first two terms have returned; without a water table the correction is
    1 and nothing is divided. *)
Theorem zero_effective_width (sub : ubc.Subclass)
    (self : ubc.UltimateBearingCapacity) (coef : R) :
  effective_width (ubc.foundation_size self) = 0 →
  (∀ w, ubc.ground_water_level self = Num w →
     ubc._embedment_term self coef = Raise ZeroDivisionError
     ∧ (∀ c s, ubc._cohesion_term self 1.0 = Ok c →
               ubc._surcharge_term self = Ok s →
               ubc.bearing_capacity self = Raise ZeroDivisionError))
  ∧ (ubc.ground_water_level self = INF →
     ubc.embedment_water_corr self = Ok 1.0).
Proof.
  intros HB. split.
  - intros w Hw.
    assert (∀ k, ubc._embedment_term self k = Raise ZeroDivisionError) as He.
    { intros k. unfold ubc._embedment_term, ubc.embedment_water_corr.
      rewrite Hw, HB, truediv_zero. reflexivity. }
    split; [apply He|].
    intros c s Hc Hs. unfold ubc.bearing_capacity.
    rewrite Hc, Hs, He. reflexivity.
  - intros Hw. unfold ubc.embedment_water_corr. now rewrite Hw.
Qed.

Lemma zero_effective_width_witness :
  ubc._embedment_term (H := terzaghi_subclass 2)
    (ubc.mkUltimateBearingCapacity 0 20 18 0 (Num 1)
       (mkFoundationSize 1.5 (mkSquareFooting 2) 1) false) 0.5
  = Raise ZeroDivisionError.
Proof.
  destruct (zero_effective_width (terzaghi_subclass 2)
              (ubc.mkUltimateBearingCapacity 0 20 18 0 (Num 1)
                 (mkFoundationSize 1.5 (mkSquareFooting 2) 1) false) 0.5)
    as [H _].
  - unfold effective_width, width. cbn. lra.
  - destruct (H 1 eq_refl) as [He _]. exact He.
Defined.

Section wet_and_dry.
Context (sub : ubc.Subclass).
Hypothesis blind : water_blind sub.
Variable self : ubc.UltimateBearingCapacity.
Variable level : Number.
Let dry := with_water_level self INF.
Let wet := with_water_level self level.

Lemma cohesion_term_wet (coef : R) :
  ubc._cohesion_term wet coef = ubc._cohesion_term dry coef.
Proof.
  unfold ubc._cohesion_term, wet, dry.
  destruct (blind self level) as (-> & _ & _ & -> & _ & _ & -> & _ & _ & -> & _).
  destruct (blind self INF) as (-> & _ & _ & -> & _ & _ & -> & _ & _ & -> & _).
  reflexivity.
Qed.

Lemma surcharge_term_wet (s0 cq : R) :
  ubc._surcharge_term dry = Ok s0 →
  ubc.surcharge_water_corr wet = Ok cq →
  ubc._surcharge_term wet = Ok (s0 * cq).
Proof.
  unfold ubc._surcharge_term. intros Hdry Hcq. rewrite Hcq.
  unfold wet, dry in *.
  destruct (blind self level) as (_ & -> & _ & _ & -> & _ & _ & -> & _ & _ & -> & _).
  destruct (blind self INF) as (_ & Hq & _ & _ & Hs & _ & _ & Hd & _ & _ & Hi & _).
  rewrite Hq, Hs, Hd, Hi in Hdry. cbn in Hdry |- *.
  destruct (ubc.n_q self); [|discriminate].
  destruct (ubc.s_q self); [|discriminate].
  destruct (ubc.d_q self); [|discriminate].
  destruct (ubc.i_q self); [|discriminate].
  cbn in *. injection Hdry as <-. f_equal. lra.
Qed.

Lemma embedment_term_wet (coef e0 cg : R) :
  ubc._embedment_term dry coef = Ok e0 →
  ubc.embedment_water_corr wet = Ok cg →
  ubc._embedment_term wet coef = Ok (e0 * cg).
Proof.
  unfold ubc._embedment_term. intros Hdry Hcg. rewrite Hcg.
  unfold wet, dry in *.
  destruct (blind self level)
    as (_ & _ & -> & _ & _ & -> & _ & _ & -> & _ & _ & ->).
  destruct (blind self INF)
    as (_ & _ & Hg & _ & _ & Hs & _ & _ & Hd & _ & _ & Hi).
  rewrite Hg, Hs, Hd, Hi in Hdry. cbn in Hdry |- *.
  destruct (ubc.n_gamma self); [|discriminate].
  destruct (ubc.s_gamma self); [|discriminate].
  destruct (ubc.d_gamma self); [|discriminate].
  destruct (ubc.i_gamma self); [|discriminate].
  cbn in *. injection Hdry as <-. f_equal. lra.
Qed.
End wet_and_dry.

(** X10: for a subclass whose factors do not read the water level, a
    water table at a finite level scales the surcharge term and the
    embedment term of the dry foundation by their corrections and leaves
    the cohesion term alone; when the two dry terms are not negative the
    capacity with the water table is at most the capacity without it. *)
Theorem water_table_lowers_capacity (sub : ubc.Subclass)
    (self : ubc.UltimateBearingCapacity) (w c0 s0 e0 : R) :
  water_blind sub →
  let dry := with_water_level self INF in
  let wet := with_water_level self (Num w) in
  depth (ubc.foundation_size self) > 0 →
  effective_width (ubc.foundation_size self) > 0 →
  ubc._cohesion_term dry 1.0 = Ok c0 →
  ubc._surcharge_term dry = Ok s0 →
  ubc._embedment_term dry 0.5 = Ok e0 →
  0 <= s0 → 0 <= e0 →
  ubc.bearing_capacity dry = Ok (c0 + s0 + e0)
  ∧ ∃ cq cg,
      ubc.surcharge_water_corr wet = Ok cq
      ∧ ubc.embedment_water_corr wet = Ok cg
      ∧ ubc.bearing_capacity wet = Ok (c0 + s0 * cq + e0 * cg)
      ∧ c0 + s0 * cq + e0 * cg <= c0 + s0 + e0.
Proof.
  intros Hblind dry wet HD HB Hc Hs He Hs0 He0. subst dry wet.
  split.
  { unfold ubc.bearing_capacity. now rewrite Hc, Hs, He. }
  pose proof (surcharge_water_corr_finite (with_water_level self (Num w))
                HD w eq_refl) as Hcq.
  pose proof (embedment_water_corr_finite (with_water_level self (Num w))
                HB w eq_refl) as Hcg.
  match type of Hcq with _ = Ok ?v => assert (v <= 1) as Hq1 by apply Rmin_r end.
  match type of Hcg with _ = Ok ?v => assert (v <= 1) as Hg1 by apply Rmin_r end.
  eexists _, _. split; [exact Hcq|]. split; [exact Hcg|].
  split.
  - unfold ubc.bearing_capacity.
    rewrite (cohesion_term_wet sub Hblind self (Num w)), Hc.
    rewrite (surcharge_term_wet sub Hblind self (Num w) _ _ Hs Hcq).
    rewrite (embedment_term_wet sub Hblind self (Num w) _ _ _ He Hcg).
    reflexivity.
  - replace 1.0 with 1 in * by lra.
    set (cq := Rmin _ 1) in *. set (cg := Rmin _ 1) in *. nra.
Qed.

Lemma terzaghi_subclass_water_blind (dp : nat) : water_blind (terzaghi_subclass dp).
Proof. intros self level. cbn. repeat split. Qed.

Lemma water_table_lowers_capacity_witness :
  ∃ cq cg,
    ubc.bearing_capacity (H := terzaghi_subclass 2)
      (with_water_level clay_under_square (Num 1))
    = Ok (1.0 * 114 + 27 * cq + 0.5 * 0 * cg)
    ∧ 1.0 * 114 + 27 * cq + 0.5 * 0 * cg <= 1.0 * 114 + 27 + 0.5 * 0.
Proof.
  destruct (clay_under_square_terms 2) as (Hc & Hs & He).
  destruct (water_table_lowers_capacity (terzaghi_subclass 2)
              clay_under_square 1 (1.0 * 114) 27 (0.5 * 0)
              (terzaghi_subclass_water_blind 2))
    as (_ & cq & cg & _ & _ & Hb & Hle).
  - cbn. lra.
  - unfold effective_width, width. cbn. lra.
  - apply (cohesion_term_coef _ 1.0 114 Hc).
  - exact Hs.
  - apply (embedment_term_coef _ 0.5 0 He).
  - lra.
  - lra.
  - exists cq, cg. split; [exact Hb | exact Hle].
Defined.

(** ** Terzaghi: the variant of [Nγ] *)

(** X11: the variant of [Nγ] is matched without regard to case, and an
    ASCII string other than Meyerhof and Hansen makes [ngamma] raise
    [TypeError] at every friction angle; the three capacities of [TBC]
    then raise it too, after [nc] and [nq] have returned. *)
Theorem terzaghi_ngamma_variant (dp : nat) (ty : string) (φ : R) :
  terzaghi.TerzaghiBCF.ngamma dp (terzaghi.TerzaghiBCF.new ty φ)
  = terzaghi.TerzaghiBCF.ngamma dp (terzaghi.TerzaghiBCF.new (casefold ty) φ)
  ∧ (isascii ty = true →
     casefold ty ≠ "meyerhof" → casefold ty ≠ "hansen" →
     terzaghi.TerzaghiBCF.ngamma dp (terzaghi.TerzaghiBCF.new ty φ)
     = Raise (TypeError "Available types are Meyerhof or Hansen")
     ∧ (0 <= φ < 90 →
        ∀ c γ D B,
          let self := terzaghi.TBC.new c φ γ D B ty in
          terzaghi.TBC.qult_4_strip_footing dp self
          = Raise (TypeError "Available types are Meyerhof or Hansen")
          ∧ terzaghi.TBC.qult_4_square_footing dp self
            = Raise (TypeError "Available types are Meyerhof or Hansen")
          ∧ terzaghi.TBC.qult_4_circular_footing dp self
            = Raise (TypeError "Available types are Meyerhof or Hansen"))).
Proof.
  split.
  { unfold terzaghi.TerzaghiBCF.new. now rewrite casefold_idem. }
  intros _ Hm Hh.
  assert (terzaghi.TerzaghiBCF.ngamma dp (terzaghi.TerzaghiBCF.new ty φ)
          = Raise (TypeError "Available types are Meyerhof or Hansen")) as Hng.
  { unfold terzaghi.TerzaghiBCF.ngamma, terzaghi.TerzaghiBCF.new,
      terzaghi.TerzaghiBCF.ngamma_type.
    rewrite !decide_False by assumption. reflexivity. }
  split; [exact Hng|].
  intros Hφ c γ D B self.
  assert (∃ Nc, terzaghi.TBC.nc dp self = Ok Nc) as [Nc HNc].
  { unfold terzaghi.TBC.nc, self, terzaghi.TBC.new,
      terzaghi.TBC._bearing_cap_factors.
    destruct (decide (φ = 0)) as [->|Hne].
    - rewrite terzaghi_nc_0. eauto.
    - rewrite terzaghi_nc_returns by lra. eauto. }
  assert (∃ Nq, terzaghi.TBC.nq dp self = Ok Nq) as [Nq HNq].
  { unfold terzaghi.TBC.nq, self, terzaghi.TBC.new,
      terzaghi.TBC._bearing_cap_factors.
    rewrite terzaghi_nq_returns by lra. eauto. }
  assert (terzaghi.TBC.ngamma dp self
          = Raise (TypeError "Available types are Meyerhof or Hansen")) as HNg
    by exact Hng.
  unfold terzaghi.TBC.qult_4_strip_footing,
    terzaghi.TBC.qult_4_square_footing, terzaghi.TBC.qult_4_circular_footing.
  rewrite HNc, HNq, HNg. auto.
Qed.

Lemma terzaghi_ngamma_variant_witness :
  terzaghi.TBC.qult_4_strip_footing 2 (terzaghi.TBC.new 15 35 18 1 1.2 "Vesic")
  = Raise (TypeError "Available types are Meyerhof or Hansen").
Proof.
  destruct (terzaghi_ngamma_variant 2 "Vesic" 35) as [_ H].
  destruct H as [_ H]; [reflexivity | discriminate | discriminate |].
  destruct (H ltac:(lra) 15 18 1 1.2) as [Hs _]. exact Hs.
Defined.

(** ** Terzaghi: the size of the factors and of the capacity *)

Lemma terzaghi_factors_return (dp : nat) (ty : string) (φ : R) :
  0 <= φ <= 45 →
  casefold ty = "meyerhof" ∨ casefold ty = "hansen" →
  ∃ Nc Nq Ng,
    terzaghi.TerzaghiBCF.nc dp (terzaghi.TerzaghiBCF.new ty φ) = Ok Nc
    ∧ terzaghi.TerzaghiBCF.nq dp (terzaghi.TerzaghiBCF.new ty φ) = Ok Nq
    ∧ terzaghi.TerzaghiBCF.ngamma dp (terzaghi.TerzaghiBCF.new ty φ) = Ok Ng
    ∧ 5.70 <= Nc ∧ 1 <= Nq ∧ 0 <= Ng.
Proof.
  intros Hφ Hty.
  assert (0 <= deg2rad φ <= PI / 4) as Hx.
  { rewrite <- deg2rad_0 at 1. rewrite <- deg2rad_45.
    split; apply deg2rad_le; lra. }
  pose proof PI_RGT_0 as Hpi.
  pose proof (terzaghi_nq_raw_ge_1 _ Hx) as Hq.
  assert (∃ Nc, terzaghi.TerzaghiBCF.nc dp (terzaghi.TerzaghiBCF.new ty φ)
                = Ok Nc ∧ 5.70 <= Nc) as (Nc & HNc & Hb).
  { destruct (decide (φ = 0)) as [->|Hne].
    - exists 5.70. split; [apply terzaghi_nc_0 | lra].
    - eexists. split; [apply terzaghi_nc_returns; lra|].
      destruct (np_isclose (deg2rad φ) 0.0); [lra|].
      apply Rle_trans with (round 5.70 dp); [apply round_5_70_ge|].
      apply round_mono, terzaghi_nc_raw_lower.
      split; [|lra].
      rewrite <- deg2rad_0. apply deg2rad_lt. lra. }
  exists Nc. eexists _, _.
  split; [exact HNc|].
  split; [apply terzaghi_nq_returns; lra|].
  split; [apply terzaghi_ngamma_returns; [lra | exact Hty]|].
  split; [exact Hb|]. split.
  - now apply round_ge_1.
  - rewrite <- (round_IZR 0 dp). apply round_mono.
    case_decide.
    + apply Rmult_le_pos; [lra | apply tan_nonneg; lra].
    + apply Rmult_le_pos; [lra | apply tan_nonneg; lra].
Qed.

(** X12: for a friction angle in [0°, 45°] and either variant of [Nγ] the
    three factors of Terzaghi are returned, with [Nc >= 5.70], [Nq >= 1]
    and [Nγ >= 0]. *)
Theorem terzaghi_factor_bounds (dp : nat) (ty : string) (φ : R) :
  0 <= φ <= 45 →
  casefold ty = "meyerhof" ∨ casefold ty = "hansen" →
  ∃ Nc Nq Ng,
    terzaghi.TerzaghiBCF.nc dp (terzaghi.TerzaghiBCF.new ty φ) = Ok Nc
    ∧ terzaghi.TerzaghiBCF.nq dp (terzaghi.TerzaghiBCF.new ty φ) = Ok Nq
    ∧ terzaghi.TerzaghiBCF.ngamma dp (terzaghi.TerzaghiBCF.new ty φ) = Ok Ng
    ∧ 5.70 <= Nc ∧ 1 <= Nq ∧ 0 <= Ng.
Proof. apply terzaghi_factors_return. Qed.

Lemma terzaghi_factor_bounds_witness :
  ∃ Nc Nq Ng,
    terzaghi.TerzaghiBCF.nc 2 (terzaghi.TerzaghiBCF.new "Hansen" 35) = Ok Nc
    ∧ terzaghi.TerzaghiBCF.nq 2 (terzaghi.TerzaghiBCF.new "Hansen" 35) = Ok Nq
    ∧ terzaghi.TerzaghiBCF.ngamma 2 (terzaghi.TerzaghiBCF.new "Hansen" 35) = Ok Ng
    ∧ 5.70 <= Nc ∧ 1 <= Nq ∧ 0 <= Ng.
Proof.
  apply (terzaghi_factor_bounds 2 "Hansen" 35); [lra | right; reflexivity].
Defined.

Lemma tbc_qult_values (dp : nat) (ty : string) (c φ γ D B Nc Nq Ng : R) :
  terzaghi.TerzaghiBCF.nc dp (terzaghi.TerzaghiBCF.new ty φ) = Ok Nc →
  terzaghi.TerzaghiBCF.nq dp (terzaghi.TerzaghiBCF.new ty φ) = Ok Nq →
  terzaghi.TerzaghiBCF.ngamma dp (terzaghi.TerzaghiBCF.new ty φ) = Ok Ng →
  let self := terzaghi.TBC.new c φ γ D B ty in
  terzaghi.TBC.qult_4_strip_footing dp self
  = Ok (round (c * Nc + γ * D * Nq + 0.5 * γ * B * Ng) dp)
  ∧ terzaghi.TBC.qult_4_square_footing dp self
    = Ok (round (1.2 * c * Nc + γ * D * Nq + 0.4 * γ * B * Ng) dp)
  ∧ terzaghi.TBC.qult_4_circular_footing dp self
    = Ok (round (1.2 * c * Nc + γ * D * Nq + 0.3 * γ * B * Ng) dp).
Proof.
  intros Hc Hq Hg self.
  unfold terzaghi.TBC.qult_4_strip_footing,
    terzaghi.TBC.qult_4_square_footing, terzaghi.TBC.qult_4_circular_footing,
    terzaghi.TBC.nc, terzaghi.TBC.nq, terzaghi.TBC.ngamma, self,
    terzaghi.TBC.new, terzaghi.TBC._bearing_cap_factors.
  rewrite Hc, Hq, Hg. cbn.
  repeat split; do 2 f_equal; lra.
Qed.

(** X13: for a soil with non-negative cohesion and unit weight, a
    non-negative depth and width and a friction angle in [0°, 45°], the
    three capacities of [TBC] are returned, none is negative, and the
    circular footing never carries more than the square one. *)
Theorem tbc_capacities (dp : nat) (ty : string) (c φ γ D B : R) :
  0 <= φ <= 45 →
  casefold ty = "meyerhof" ∨ casefold ty = "hansen" →
  0 <= c → 0 <= γ → 0 <= D → 0 <= B →
  let self := terzaghi.TBC.new c φ γ D B ty in
  ∃ strip square circular,
    terzaghi.TBC.qult_4_strip_footing dp self = Ok strip
    ∧ terzaghi.TBC.qult_4_square_footing dp self = Ok square
    ∧ terzaghi.TBC.qult_4_circular_footing dp self = Ok circular
    ∧ 0 <= strip ∧ 0 <= circular ∧ circular <= square.
Proof.
  intros Hφ Hty Hc Hγ HD HB self.
  destruct (terzaghi_factors_return dp ty φ Hφ Hty)
    as (Nc & Nq & Ng & HNc & HNq & HNg & Hc1 & Hq1 & Hg1).
  destruct (tbc_qult_values dp ty c φ γ D B Nc Nq Ng HNc HNq HNg)
    as (Hs & Hsq & Hci).
  eexists _, _, _. split; [exact Hs|]. split; [exact Hsq|].
  split; [exact Hci|].
  assert (0 <= c * Nc) by (apply Rmult_le_pos; lra).
  assert (0 <= γ * D * Nq) by (repeat apply Rmult_le_pos; lra).
  assert (0 <= γ * B * Ng) by (repeat apply Rmult_le_pos; lra).
  split; [|split].
  - rewrite <- (round_IZR 0 dp). apply round_mono. lra.
  - rewrite <- (round_IZR 0 dp). apply round_mono. lra.
  - apply round_mono. lra.
Qed.

Lemma tbc_capacities_witness :
  ∃ strip square circular,
    terzaghi.TBC.qult_4_strip_footing 2 (terzaghi.TBC.new 15 35 18 1 1.2 "Meyerhof")
    = Ok strip
    ∧ terzaghi.TBC.qult_4_square_footing 2 (terzaghi.TBC.new 15 35 18 1 1.2 "Meyerhof")
      = Ok square
    ∧ terzaghi.TBC.qult_4_circular_footing 2 (terzaghi.TBC.new 15 35 18 1 1.2 "Meyerhof")
      = Ok circular
    ∧ 0 <= strip ∧ 0 <= circular ∧ circular <= square.
Proof.
  apply (tbc_capacities 2 "Meyerhof" 15 35 18 1 1.2);
    [lra | left; reflexivity | lra | lra | lra | lra].
Defined.

(** X14: the capacity never falls when the soil is more cohesive or the
    footing deeper or wider: with a non-negative unit weight, each of the
    three capacities of [TBC] is non-decreasing in the cohesion, the depth
    and the width. *)
Theorem tbc_capacity_monotone (dp : nat) (ty : string)
    (φ γ c1 c2 D1 D2 B1 B2 : R) :
  0 <= φ <= 45 →
  casefold ty = "meyerhof" ∨ casefold ty = "hansen" →
  0 <= γ → c1 <= c2 → D1 <= D2 → B1 <= B2 →
  let self1 := terzaghi.TBC.new c1 φ γ D1 B1 ty in
  let self2 := terzaghi.TBC.new c2 φ γ D2 B2 ty in
  returned_le (terzaghi.TBC.qult_4_strip_footing dp self1)
              (terzaghi.TBC.qult_4_strip_footing dp self2)
  ∧ returned_le (terzaghi.TBC.qult_4_square_footing dp self1)
                (terzaghi.TBC.qult_4_square_footing dp self2)
  ∧ returned_le (terzaghi.TBC.qult_4_circular_footing dp self1)
                (terzaghi.TBC.qult_4_circular_footing dp self2).
Proof.
  intros Hφ Hty Hγ Hc HD HB self1 self2.
  destruct (terzaghi_factors_return dp ty φ Hφ Hty)
    as (Nc & Nq & Ng & HNc & HNq & HNg & Hc1 & Hq1 & Hg1).
  destruct (tbc_qult_values dp ty c1 φ γ D1 B1 Nc Nq Ng HNc HNq HNg)
    as (Hs1 & Hsq1 & Hci1).
  destruct (tbc_qult_values dp ty c2 φ γ D2 B2 Nc Nq Ng HNc HNq HNg)
    as (Hs2 & Hsq2 & Hci2).
  unfold self1, self2.
  rewrite Hs1, Hs2, Hsq1, Hsq2, Hci1, Hci2. cbn.
  assert (c1 * Nc <= c2 * Nc) by (apply Rmult_le_compat_r; lra).
  assert (0 <= γ * Nq) by (apply Rmult_le_pos; lra).
  assert (0 <= γ * Ng) by (apply Rmult_le_pos; lra).
  assert (γ * D1 * Nq <= γ * D2 * Nq) by nra.
  assert (γ * B1 * Ng <= γ * B2 * Ng) by nra.
  repeat split; apply round_mono; lra.
Qed.

Lemma tbc_capacity_monotone_witness :
  returned_le
    (terzaghi.TBC.qult_4_strip_footing 2 (terzaghi.TBC.new 15 35 18 1 1.2 "Meyerhof"))
    (terzaghi.TBC.qult_4_strip_footing 2 (terzaghi.TBC.new 15 35 18 1.5 2 "Meyerhof")).
Proof.
  destruct (tbc_capacity_monotone 2 "Meyerhof" 35 18 15 15 1 1.5 1.2 2)
    as [H _]; [lra | left; reflexivity | lra | lra | lra | lra |].
  exact H.
Defined.

(** ** Hansen: the size of the bearing capacity factors *)

Lemma round_nonneg (v : R) (dp : nat) : 0 <= v → 0 <= round v dp.
Proof.
  intros H. rewrite <- (round_IZR 0 dp) at 1. now apply round_mono.
Qed.

(** X15: for a friction angle in [0°, 90°) Hansen's [n_q] is at least 1
    and [n_gamma] is not negative, and away from the guard [n_c] is
    returned and is not negative. *)
Theorem hansen_factor_bounds (dp : nat) (rel_tol abs_tol φ : R) :
  0 <= φ < 90 →
  ∃ Nq Ng,
    hansen_ubc.n_q dp φ = Ok Nq ∧ hansen_ubc.n_gamma dp φ = Ok Ng
    ∧ 1 <= Nq ∧ 0 <= Ng
    ∧ (utils.isclose rel_tol abs_tol φ 0.0 = false →
       ∃ Nc, hansen_ubc.n_c dp rel_tol abs_tol φ = Ok Nc ∧ 0 <= Nc).
Proof.
  intros Hφ.
  pose proof (hansen_nq_raw_ge_1 φ Hφ) as Hraw.
  pose proof (round_ge_1 _ dp Hraw) as Hq.
  pose proof (deg2rad_range_le φ Hφ) as Hx.
  assert (0 <= utils.tan φ) as Ht by (apply tan_nonneg; lra).
  eexists _, _. split; [apply hansen_n_q_Ok|].
  split; [apply hansen_n_gamma_Ok|]. split; [exact Hq|]. split.
  - apply round_nonneg. apply Rmult_le_pos; [lra | exact Ht].
  - intros Hfar.
    destruct (hansen_n_c_away dp rel_tol abs_tol φ Hφ Hfar)
      as (Hne & q & Hnq & Hnc).
    rewrite hansen_n_q_Ok in Hnq. injection Hnq as <-.
    eexists. split; [exact Hnc|].
    apply round_nonneg. apply Rmult_le_pos; [|lra].
    apply Rmult_le_pos; [lra|]. left. apply Rinv_0_lt_compat. lra.
Qed.

Lemma hansen_factor_bounds_witness :
  ∃ Nq Ng,
    hansen_ubc.n_q 2 20 = Ok Nq ∧ hansen_ubc.n_gamma 2 20 = Ok Ng
    ∧ 1 <= Nq ∧ 0 <= Ng.
Proof.
  destruct (hansen_factor_bounds 2 (1 / 10 ^ 9) 0 20)
    as (Nq & Ng & H1 & H2 & H3 & H4 & _); [lra|].
  exists Nq, Ng. auto.
Defined.

(** X16: [n_c] of Hansen is computed from the rounded [n_q]: at every
    friction angle of at most [10^-dp] degrees that the guard does not take
    for 0, [n_q] is rounded to 1 and [n_c] returns 0. *)
Theorem hansen_n_c_vanishes (dp : nat) (rel_tol abs_tol φ : R) :
  0 < φ <= 1 / 10 ^ dp →
  utils.isclose rel_tol abs_tol φ 0.0 = false →
  hansen_ubc.n_q dp φ = Ok 1
  ∧ hansen_ubc.n_c dp rel_tol abs_tol φ = Ok 0.
Proof.
  intros Hφ Hfar. pose proof (pow10_pos dp) as Hp.
  assert (1 / 10 ^ dp <= 1) as Hle.
  { apply Rmult_le_reg_r with (10 ^ dp); [exact Hp|].
    replace (1 / 10 ^ dp * 10 ^ dp) with 1 by (field; lra).
    pose proof (pow_R1_Rle 10 dp ltac:(lra)). lra. }
  pose proof (hansen_n_q_small dp φ Hφ) as Hq.
  split; [exact Hq|].
  destruct (hansen_n_c_away dp rel_tol abs_tol φ ltac:(lra) Hfar)
    as (Hne & q & Hnq & Hnc).
  rewrite Hq in Hnq. injection Hnq as <-.
  rewrite Hnc. f_equal.
  replace (1 / utils.tan φ * (1 - 1)) with (IZR 0) by (field; exact Hne).
  apply round_IZR.
Qed.

Lemma hansen_n_c_vanishes_witness :
  hansen_ubc.n_c 2 (1 / 10 ^ 9) 0 (1 / 10 ^ 2) = Ok 0.
Proof.
  destruct (hansen_n_c_vanishes 2 (1 / 10 ^ 9) 0 (1 / 10 ^ 2)) as [_ H].
  - lra.
  - apply isclose_far; lra.
  - exact H.
Defined.

(** ** Hansen: shape factors *)

Lemma round_1_2 (dp : nat) : (1 <= dp)%nat → round 1.2 dp = 1.2.
Proof.
  intros H. replace 1.2 with (IZR 12 / 10 ^ 1) by lra.
  now apply round_of_short_decimal.
Qed.

Lemma round_0_6 (dp : nat) : (1 <= dp)%nat → round 0.6 dp = 0.6.
Proof.
  intros H. replace 0.6 with (IZR 6 / 10 ^ 1) by lra.
  now apply round_of_short_decimal.
Qed.

Lemma round_1_3 (dp : nat) : (1 <= dp)%nat → round 1.3 dp = 1.3.
Proof.
  intros H. replace 1.3 with (IZR 13 / 10 ^ 1) by lra.
  now apply round_of_short_decimal.
Qed.

Lemma round_0_8 (dp : nat) : (1 <= dp)%nat → round 0.8 dp = 0.8.
Proof.
  intros H. replace 0.8 with (IZR 8 / 10 ^ 1) by lra.
  now apply round_of_short_decimal.
Qed.

Lemma hansen_rectangle_values (dp : nat) (f_w f_l : R) :
  f_l ≠ 0 →
  hansen_ubc.s_c dp f_w f_l RECTANGLE = Ok (round (1 + 0.2 * f_w / f_l) dp)
  ∧ hansen_ubc.s_q dp f_w f_l RECTANGLE = Ok (round (1 + 0.2 * f_w / f_l) dp)
  ∧ hansen_ubc.s_gamma dp f_w f_l RECTANGLE
    = Ok (round (1 - 0.4 * f_w / f_l) dp).
Proof.
  intros Hl. unfold hansen_ubc.s_c, hansen_ubc.s_q, hansen_ubc.s_gamma.
  rewrite !truediv_Ok by exact Hl. auto.
Qed.

(** X17: on a rectangle whose width is positive and at most the length,
    [s_c] and [s_q] are the same number between 1 and 1.2 and [s_gamma]
    lies between 0.6 and 1 (at a precision of one digit or more); a length
    of 0 makes the three factors raise [ZeroDivisionError]. *)
Theorem hansen_rectangle_shape_factors (dp : nat) (f_w f_l : R) :
  (0 < f_w <= f_l → (1 <= dp)%nat →
   ∃ sc sg,
     hansen_ubc.s_c dp f_w f_l RECTANGLE = Ok sc
     ∧ hansen_ubc.s_q dp f_w f_l RECTANGLE = Ok sc
     ∧ hansen_ubc.s_gamma dp f_w f_l RECTANGLE = Ok sg
     ∧ 1 <= sc <= 1.2 ∧ 0.6 <= sg <= 1)
  ∧ (f_l = 0 →
     hansen_ubc.s_c dp f_w f_l RECTANGLE = Raise ZeroDivisionError
     ∧ hansen_ubc.s_q dp f_w f_l RECTANGLE = Raise ZeroDivisionError
     ∧ hansen_ubc.s_gamma dp f_w f_l RECTANGLE = Raise ZeroDivisionError).
Proof.
  split.
  - intros [Hw Hl] Hdp.
    destruct (hansen_rectangle_values dp f_w f_l ltac:(lra)) as (Hc & Hq & Hg).
    eexists _, _. split; [exact Hc|]. split; [exact Hq|]. split; [exact Hg|].
    assert (0 < f_w / f_l <= 1) as [Hr0 Hr1].
    { split; [apply Rdiv_lt_0_compat; lra|].
      apply Rmult_le_reg_r with f_l; [lra|].
      replace (f_w / f_l * f_l) with f_w by (field; lra). lra. }
    replace (0.2 * f_w / f_l) with (0.2 * (f_w / f_l)) by lra.
    replace (0.4 * f_w / f_l) with (0.4 * (f_w / f_l)) by lra.
    repeat split.
    + apply round_ge_1. lra.
    + rewrite <- (round_1_2 dp Hdp). apply round_mono. lra.
    + rewrite <- (round_0_6 dp Hdp). apply round_mono. lra.
    + apply Rle_trans with (round 1 dp); [apply round_mono; lra|].
      rewrite (round_IZR 1 dp). lra.
  - intros ->. unfold hansen_ubc.s_c, hansen_ubc.s_q, hansen_ubc.s_gamma.
    rewrite !truediv_zero. auto.
Qed.

Lemma hansen_rectangle_shape_factors_witness :
  ∃ sc sg,
    hansen_ubc.s_c 2 1.5 2.5 RECTANGLE = Ok sc
    ∧ hansen_ubc.s_q 2 1.5 2.5 RECTANGLE = Ok sc
    ∧ hansen_ubc.s_gamma 2 1.5 2.5 RECTANGLE = Ok sg
    ∧ 1 <= sc <= 1.2 ∧ 0.6 <= sg <= 1.
Proof.
  destruct (hansen_rectangle_shape_factors 2 1.5 2.5) as [H _].
  apply H; [lra | lia].
Defined.

(** X18: a rectangle with equal sides is not given the factors of the
    square: at a precision of one digit or more its [s_c] is 1.2 where the
    square and the circle have 1.3, and its [s_gamma] is 0.6, the value of
    the circle, where the square has 0.8; only [s_q] agrees, at 1.2. *)
Theorem hansen_square_is_not_a_rectangle (dp : nat) (w : R) :
  (1 <= dp)%nat → w ≠ 0 →
  hansen_ubc.s_c dp w w RECTANGLE = Ok 1.2
  ∧ hansen_ubc.s_c dp w w SQUARE = Ok 1.3
  ∧ hansen_ubc.s_c dp w w CIRCLE = Ok 1.3
  ∧ hansen_ubc.s_q dp w w RECTANGLE = Ok 1.2
  ∧ hansen_ubc.s_q dp w w SQUARE = Ok 1.2
  ∧ hansen_ubc.s_q dp w w CIRCLE = Ok 1.2
  ∧ hansen_ubc.s_gamma dp w w RECTANGLE = Ok 0.6
  ∧ hansen_ubc.s_gamma dp w w SQUARE = Ok 0.8
  ∧ hansen_ubc.s_gamma dp w w CIRCLE = Ok 0.6.
Proof.
  intros Hdp Hw.
  destruct (hansen_rectangle_values dp w w Hw) as (Hc & Hq & Hg).
  rewrite Hc, Hq, Hg.
  assert (0.2 * w / w = 0.2) as ->
    by (unfold Rdiv; rewrite Rmult_assoc, Rinv_r by exact Hw; lra).
  assert (0.4 * w / w = 0.4) as ->
    by (unfold Rdiv; rewrite Rmult_assoc, Rinv_r by exact Hw; lra).
  replace (1 + 0.2) with 1.2 by lra. replace (1 - 0.4) with 0.6 by lra.
  unfold hansen_ubc.s_c, hansen_ubc.s_q, hansen_ubc.s_gamma.
  rewrite !round__Ok.
  rewrite !round_1_2, !round_1_3, !round_0_6, !round_0_8 by exact Hdp.
  auto 10.
Qed.

Lemma hansen_square_is_not_a_rectangle_witness :
  hansen_ubc.s_c 2 2 2 RECTANGLE = Ok 1.2
  ∧ hansen_ubc.s_c 2 2 2 SQUARE = Ok 1.3.
Proof.
  destruct (hansen_square_is_not_a_rectangle 2 2) as (H1 & H2 & _);
    [lia | lra |].
  split; [exact H1 | exact H2].
Defined.

(** ** Hansen: depth factors *)

Lemma d2w_pos (f_d f_w : R) :
  f_d > 0 → f_w > 0 → ∃ k, hansen_ubc.d2w f_d f_w = Ok k ∧ 0 < k.
Proof.
  intros Hd Hw. rewrite d2w_Ok by exact Hw. eexists. split; [reflexivity|].
  assert (0 < f_d / f_w) as Hr by (apply Rdiv_lt_0_compat; lra).
  case_decide; [|exact Hr].
  unfold utils.arctan, rad2deg. pose proof PI_RGT_0 as Hpi.
  assert (0 < atan (f_d / f_w)).
  { rewrite <- atan_0. now apply atan_increasing. }
  apply Rdiv_lt_0_compat; [|exact Hpi]. lra.
Qed.

(** X19: for a positive depth and width the depth factors of Hansen never
    reduce the capacity: [d_c] is at least 1, [d_q] is at least 1 for a
    friction angle in [0°, 90°), and [d_gamma] is 1; a width of 0 makes
    [d_c] and [d_q] raise [ZeroDivisionError]. *)
Theorem hansen_depth_factors_at_least_one (dp : nat) (sfa f_d f_w : R) :
  hansen_ubc.d_gamma dp = Ok 1
  ∧ (f_d > 0 → f_w > 0 →
     ∃ dc, hansen_ubc.d_c dp f_d f_w = Ok dc ∧ 1 <= dc
           ∧ (0 <= sfa < 90 →
              ∃ dq, hansen_ubc.d_q dp sfa f_d f_w = Ok dq ∧ 1 <= dq))
  ∧ (f_w = 0 →
     hansen_ubc.d_c dp f_d f_w = Raise ZeroDivisionError
     ∧ hansen_ubc.d_q dp sfa f_d f_w = Raise ZeroDivisionError).
Proof.
  split; [|split].
  - unfold hansen_ubc.d_gamma. rewrite round__Ok. f_equal.
    replace 1.0 with (IZR 1) by lra. apply round_IZR.
  - intros Hd Hw.
    destruct (d2w_pos f_d f_w Hd Hw) as (k & Hk & Hk0).
    assert (hansen_ubc.d_c dp f_d f_w = Ok (round (1 + 0.4 * k) dp)) as Hc.
    { unfold hansen_ubc.d_c. now rewrite Hk. }
    assert (1 <= round (1 + 0.4 * k) dp) as Hc1 by (apply round_ge_1; lra).
    eexists. split; [exact Hc|]. split; [exact Hc1|].
    intros Hφ. unfold hansen_ubc.d_q. case_decide.
    + rewrite Hc, round__Ok, round_idem. eauto.
    + rewrite Hk. eexists. split; [reflexivity|].
      apply round_ge_1.
      pose proof (deg2rad_range_le sfa Hφ) as Hx.
      assert (0 <= utils.tan sfa) as Ht by (apply tan_nonneg; lra).
      assert (0 <= (1 - utils.sin sfa) ^ 2) as Hs by apply pow2_ge_0.
      assert (0 <= 2 * utils.tan sfa * (1 - utils.sin sfa) ^ 2 * k).
      { apply Rmult_le_pos; [|lra].
        apply Rmult_le_pos; [|exact Hs].
        apply Rmult_le_pos; lra. }
      lra.
  - intros ->.
    assert (hansen_ubc.d2w f_d 0 = Raise ZeroDivisionError) as Hk.
    { unfold hansen_ubc.d2w. now rewrite truediv_zero. }
    assert (hansen_ubc.d_c dp f_d 0 = Raise ZeroDivisionError) as Hc.
    { unfold hansen_ubc.d_c. now rewrite Hk. }
    split; [exact Hc|].
    unfold hansen_ubc.d_q. case_decide; [now rewrite Hc | now rewrite Hk].
Qed.

Lemma hansen_depth_factors_at_least_one_witness :
  ∃ dc, hansen_ubc.d_c 2 1.5 2 = Ok dc ∧ 1 <= dc.
Proof.
  destruct (hansen_depth_factors_at_least_one 2 20 1.5 2) as (_ & H & _).
  destruct H as (dc & H1 & H2 & _); [lra | lra |].
  exists dc. auto.
Defined.

(** ** Hansen: inclination factors *)

(** X21: [i_c] divides by [2 c B L].  With a finite length it raises
    [ZeroDivisionError] at every load angle when the cohesion, the width
    or the length is 0.  On a strip, whose length is [INF], nothing is
    raised: [i_c] is [nan] when the cohesion or the width is 0, and 1
    otherwise, whatever the load angle. *)
Theorem hansen_i_c_cohesionless (dp : nat) (cohesion load_angle f_w : R) :
  (∀ l, cohesion = 0 ∨ f_w = 0 ∨ l = 0 →
     hansen_ubc.i_c dp cohesion load_angle f_w (Num l)
     = Raise ZeroDivisionError)
  ∧ (cohesion = 0 ∨ f_w = 0 →
     hansen_ubc.i_c dp cohesion load_angle f_w INF = Ok NaN)
  ∧ (cohesion ≠ 0 → f_w ≠ 0 →
     hansen_ubc.i_c dp cohesion load_angle f_w INF = Ok (Finite 1)).
Proof.
  split; [|split].
  - intros l H. unfold hansen_ubc.i_c.
    replace (2 * cohesion * f_w * l) with 0.
    + now rewrite truediv_zero.
    + destruct H as [-> | [-> | ->]]; lra.
  - intros H. unfold hansen_ubc.i_c.
    rewrite decide_True; [reflexivity|].
    destruct H as [-> | ->]; lra.
  - intros Hc Hw. unfold hansen_ubc.i_c.
    rewrite decide_False.
    + unfold mret, result_ret. rewrite round__Ok. cbn. do 2 f_equal.
      replace (1 - 0) with (IZR 1) by lra. apply round_IZR.
    + intros H. apply Rmult_integral in H. destruct H as [H|H]; [|tauto].
      apply Rmult_integral in H. destruct H as [H|H]; [lra | tauto].
Qed.

Lemma hansen_i_c_cohesionless_witness :
  hansen_ubc.i_c 2 0 90 2 (Num 2) = Raise ZeroDivisionError
  ∧ hansen_ubc.i_c 2 0 90 2 INF = Ok NaN
  ∧ hansen_ubc.i_c 2 20 90 2 INF = Ok (Finite 1).
Proof.
  destruct (hansen_i_c_cohesionless 2 0 90 2) as (H1 & H2 & _).
  destruct (hansen_i_c_cohesionless 2 20 90 2) as (_ & _ & H3).
  split; [apply H1; left; reflexivity|].
  split; [apply H2; left; reflexivity|].
  apply H3; lra.
Defined.

Lemma sin_le_cos_below_PI4 (x : R) : 0 <= x <= PI / 4 → sin x <= cos x.
Proof.
  intros [H0 H1]. pose proof PI_RGT_0 as Hpi.
  apply Rle_trans with (sin (PI / 4)); [apply sin_incr_1; lra|].
  rewrite sin_PI4, <- cos_PI4. apply cos_decr_1; lra.
Qed.

(** X22: for a load angle in (0°, 90°] [i_q] is returned and is at most 1,
    and [i_gamma], its square, is not negative; up to 45° [i_q] is at most
    -0.5, a negative factor, and [i_gamma] is then at least 0.25. *)
Theorem hansen_i_q_range (load_angle : R) :
  0 < load_angle <= 90 →
  ∃ iq, hansen_ubc.i_q load_angle = Ok iq
        ∧ hansen_ubc.i_gamma load_angle = Ok (iq ^ 2)
        ∧ iq <= 1 ∧ 0 <= iq ^ 2
        ∧ (load_angle <= 45 → iq <= -0.5 ∧ 0.25 <= iq ^ 2).
Proof.
  intros Hα.
  pose proof (hansen_i_q_defined load_angle Hα) as Hq.
  pose proof (utils_sin_pos load_angle Hα) as Hs.
  assert (0 <= deg2rad load_angle <= PI / 2) as Hx.
  { rewrite <- deg2rad_0 at 1. rewrite <- deg2rad_90.
    split; apply deg2rad_le; lra. }
  assert (0 <= utils.cos load_angle) as Hc.
  { unfold utils.cos. apply cos_ge_0; lra. }
  set (s := utils.sin load_angle) in *. set (c := utils.cos load_angle) in *.
  assert (0 <= 1.5 * c / s) as Hr.
  { apply Rmult_le_pos; [lra | left; now apply Rinv_0_lt_compat]. }
  eexists. split; [exact Hq|]. split.
  { unfold hansen_ubc.i_gamma. now rewrite Hq. }
  split; [lra|]. split; [apply pow2_ge_0|].
  intros H45.
  assert (s <= c) as Hsc.
  { apply sin_le_cos_below_PI4. split; [lra|].
    rewrite <- deg2rad_45. now apply deg2rad_le. }
  assert (1.5 <= 1.5 * c / s) as Hr'.
  { apply Rmult_le_reg_r with s; [exact Hs|].
    replace (1.5 * c / s * s) with (1.5 * c) by (field; lra). lra. }
  split; [lra | nra].
Qed.

Lemma hansen_i_q_range_witness :
  ∃ iq, hansen_ubc.i_q 30 = Ok iq ∧ iq <= -0.5.
Proof.
  destruct (hansen_i_q_range 30) as (iq & H1 & _ & _ & _ & H5); [lra|].
  exists iq. split; [exact H1 | apply H5; lra].
Defined.

(** ** Allowable bearing capacity: [bearing_capacity] *)

Import abc_bearing_capacity.

Lemma construct_class (cls : abc_4_cohl_soils.abc_class) (N S Dw : R)
    (fs : FoundationSize) (obj : abc_4_cohl_soils.BearingCapacity) :
  abc_4_cohl_soils.construct cls N S Dw fs = Ok obj →
  S <= 25.4
  ∧ obj = match cls with
          | abc_4_cohl_soils.Bowles_pad =>
              abc_4_cohl_soils.BowlesABC4PadFoundation N fs
          | abc_4_cohl_soils.Bowles_mat =>
              abc_4_cohl_soils.BowlesABC4MatFoundation N fs
          | abc_4_cohl_soils.Meyerhof_pad =>
              abc_4_cohl_soils.MeyerhofABC4PadFoundation N fs
          | abc_4_cohl_soils.Meyerhof_mat =>
              abc_4_cohl_soils.MeyerhofABC4MatFoundation N fs
          | abc_4_cohl_soils.Terzaghi_pad =>
              abc_4_cohl_soils.TerzaghiABC4PadFoundation N fs Dw
          | abc_4_cohl_soils.Terzaghi_mat =>
              abc_4_cohl_soils.TerzaghiABC4MatFoundation N fs Dw
          end.
Proof.
  intros H.
  destruct (decide (S > 25.4)) as [Hgt|Hle].
  - exfalso. destruct cls; cbn in H;
      unfold abc_4_cohl_soils.new_BowlesABC4PadFoundation,
        abc_4_cohl_soils.new_BowlesABC4MatFoundation,
        abc_4_cohl_soils.new_MeyerhofABC4PadFoundation,
        abc_4_cohl_soils.new_MeyerhofABC4MatFoundation,
        abc_4_cohl_soils.new_TerzaghiABC4PadFoundation,
        abc_4_cohl_soils.new_TerzaghiABC4MatFoundation in H;
      rewrite chk_settlement_gt in H by exact Hgt; discriminate.
  - split; [lra|].
    destruct cls; cbn in H;
      unfold abc_4_cohl_soils.new_BowlesABC4PadFoundation,
        abc_4_cohl_soils.new_BowlesABC4MatFoundation,
        abc_4_cohl_soils.new_MeyerhofABC4PadFoundation,
        abc_4_cohl_soils.new_MeyerhofABC4MatFoundation,
        abc_4_cohl_soils.new_TerzaghiABC4PadFoundation,
        abc_4_cohl_soils.new_TerzaghiABC4MatFoundation in H;
      rewrite chk_settlement_le in H
        by (unfold abc_4_cohl_soils.MAX_TOL_SETTLEMENT; lra);
      now injection H as <-.
Qed.

Lemma get_attributes_missing (self : abc_4_cohl_soils.BearingCapacity)
    (late : gmap string R) :
  late !! "tol_settlement" = None →
  _get_attributes self late = Raises (AttributeError "tol_settlement").
Proof.
  intros H. unfold _get_attributes, getattr. now rewrite H.
Qed.

(** X23: the tolerable settlement given to a constructor is checked and
    not kept: on the object it returns, as long as no caller has assigned
    [tol_settlement] to it, [bearing_capacity] of each of the six classes
    raises [AttributeError]. *)
Theorem bearing_capacity_after_construction (dp : nat)
    (cls : abc_4_cohl_soils.abc_class) (N S Dw : R) (fs : FoundationSize)
    (obj : abc_4_cohl_soils.BearingCapacity) (late : gmap string R) :
  abc_4_cohl_soils.construct cls N S Dw fs = Ok obj →
  late !! "tol_settlement" = None →
  bearing_capacity dp obj late = Raises (AttributeError "tol_settlement").
Proof.
  intros Hobj Hlate.
  apply construct_class in Hobj as [_ ->].
  destruct cls; cbn [bearing_capacity];
    unfold BowlesABC4PadFoundation_bearing_capacity,
      BowlesABC4MatFoundation_bearing_capacity,
      MeyerhofABC4PadFoundation_bearing_capacity,
      MeyerhofABC4MatFoundation_bearing_capacity,
      TerzaghiABC4PadFoundation_bearing_capacity,
      TerzaghiABC4MatFoundation_bearing_capacity;
    now rewrite get_attributes_missing.
Qed.

Lemma bearing_capacity_after_construction_witness :
  bearing_capacity 2
    (abc_4_cohl_soils.BowlesABC4PadFoundation 17
       (mkFoundationSize 1.5 (mkSquareFooting 1.2) 0)) ∅
  = Raises (AttributeError "tol_settlement").
Proof.
  apply (bearing_capacity_after_construction 2 abc_4_cohl_soils.Bowles_pad
           17 20 0 (mkFoundationSize 1.5 (mkSquareFooting 1.2) 0)).
  - cbn. unfold abc_4_cohl_soils.new_BowlesABC4PadFoundation.
    rewrite chk_settlement_le
      by (unfold abc_4_cohl_soils.MAX_TOL_SETTLEMENT; lra).
    reflexivity.
  - reflexivity.
Defined.

Lemma get_attributes_assigned (self : abc_4_cohl_soils.BearingCapacity)
    (tol max : R) :
  max ≠ 0 →
  _get_attributes self (assigned tol max)
  = Returns (width (foundation_size self), depth (foundation_size self),
             tol / max, corrected_spt_number self).
Proof.
  intros Hm. unfold _get_attributes, getattr, assigned.
  rewrite lookup_insert_eq.
  rewrite lookup_insert_ne by discriminate. rewrite lookup_insert_eq.
  cbn. rewrite truediv_Ok by exact Hm. reflexivity.
Qed.

(** The depth factor [FD] of the Bowles and Meyerhof methods. *)
Lemma depth_factor_range (D B cap : R) :
  D > 0 → B > 0 → 0 < cap →
  1 <= Rmin (1 + cap * D / B) (1 + cap) <= 1 + cap
  ∧ (B <= D → Rmin (1 + cap * D / B) (1 + cap) = 1 + cap).
Proof.
  intros HD HB Hcap.
  assert (0 < cap * D / B) as Hq.
  { apply Rdiv_lt_0_compat; [|lra]. apply Rmult_lt_0_compat; lra. }
  split; [split|].
  - apply Rmin_glb; lra.
  - apply Rmin_r.
  - intros HBD. apply Rmin_right.
    assert (cap <= cap * D / B); [|lra].
    apply Rmult_le_reg_r with B; [lra|].
    replace (cap * D / B * B) with (cap * D) by (field; lra). nra.
Qed.

Section bowles_meyerhof.
Variable dp : nat.
Variables (N tol max : R) (fs : FoundationSize).
Let B := width fs.
Let D := depth fs.
Let FD := Rmin (1 + 0.33 * D / B) 1.33.
Let SR := tol / max.
Hypothesis width_pos : B > 0.
Hypothesis max_nonzero : max ≠ 0.

Lemma bowles_pad_value :
  bearing_capacity dp (abc_4_cohl_soils.BowlesABC4PadFoundation N fs)
    (assigned tol max)
  = Returns (round (if decide (B <= 1.2) then 19.16 * N * FD * SR
                    else 11.98 * N * ((3.28 * B + 1) / (3.28 * B)) ^ 2
                         * FD * SR) dp).
Proof.
  cbn [bearing_capacity]. unfold BowlesABC4PadFoundation_bearing_capacity.
  rewrite get_attributes_assigned by exact max_nonzero.
  cbn [foundation_size corrected_spt_number]. fold B D.
  unfold round_. cbn [mbind outcome_bind mret outcome_ret].
  rewrite (truediv_Ok (0.33 * D) B) by lra. cbn [lift].
  case_decide; [reflexivity|].
  rewrite truediv_Ok by lra. reflexivity.
Qed.

Lemma bowles_mat_value :
  bearing_capacity dp (abc_4_cohl_soils.BowlesABC4MatFoundation N fs)
    (assigned tol max)
  = Returns (round (11.98 * N * FD * SR) dp).
Proof.
  cbn [bearing_capacity]. unfold BowlesABC4MatFoundation_bearing_capacity.
  rewrite get_attributes_assigned by exact max_nonzero.
  cbn [foundation_size corrected_spt_number]. fold B D.
  unfold round_. cbn [mbind outcome_bind mret outcome_ret].
  rewrite truediv_Ok by lra. reflexivity.
Qed.

Lemma meyerhof_pad_value :
  bearing_capacity dp (abc_4_cohl_soils.MeyerhofABC4PadFoundation N fs)
    (assigned tol max)
  = Returns (round (if decide (B <= 1.2) then 12 * N * FD * SR
                    else 8 * N * ((3.28 * B + 1) / (3.28 * B)) ^ 2
                         * FD * SR) dp).
Proof.
  cbn [bearing_capacity]. unfold MeyerhofABC4PadFoundation_bearing_capacity.
  rewrite get_attributes_assigned by exact max_nonzero.
  cbn [foundation_size corrected_spt_number]. fold B D.
  unfold round_. cbn [mbind outcome_bind mret outcome_ret].
  rewrite (truediv_Ok (0.33 * D) B) by lra. cbn [lift].
  case_decide; [reflexivity|].
  rewrite truediv_Ok by lra. reflexivity.
Qed.

Lemma meyerhof_mat_value :
  bearing_capacity dp (abc_4_cohl_soils.MeyerhofABC4MatFoundation N fs)
    (assigned tol max)
  = Returns (round (8 * N * FD * SR) dp).
Proof.
  cbn [bearing_capacity]. unfold MeyerhofABC4MatFoundation_bearing_capacity.
  rewrite get_attributes_assigned by exact max_nonzero.
  cbn [foundation_size corrected_spt_number]. fold B D.
  unfold round_. cbn [mbind outcome_bind mret outcome_ret].
  rewrite truediv_Ok by lra. reflexivity.
Qed.
End bowles_meyerhof.

Lemma width_correction_ge_1 (B : R) :
  B > 0 → 1 <= ((3.28 * B + 1) / (3.28 * B)) ^ 2.
Proof.
  intros HB.
  assert (1 <= (3.28 * B + 1) / (3.28 * B)) as H.
  { apply Rmult_le_reg_r with (3.28 * B); [lra|].
    replace ((3.28 * B + 1) / (3.28 * B) * (3.28 * B)) with (3.28 * B + 1)
      by (field; lra).
    lra. }
  nra.
Qed.

(** X24: once [tol_settlement] and a positive [MAX_TOL_SETTLEMENT] are
    assigned, on a foundation of positive depth and width, with a
    non-negative SPT number and settlement, the mat capacity of Bowles and
    of Meyerhof is returned, is not negative, and is at most the pad
    capacity of the same method. *)
Theorem pad_carries_at_least_mat (dp : nat) (N tol max : R)
    (fs : FoundationSize) :
  depth fs > 0 → width fs > 0 → 0 <= N → 0 <= tol → 0 < max →
  (∃ mat, bearing_capacity dp (abc_4_cohl_soils.BowlesABC4MatFoundation N fs)
            (assigned tol max) = Returns mat
          ∧ 0 <= mat)
  ∧ outcome_le
      (bearing_capacity dp (abc_4_cohl_soils.BowlesABC4MatFoundation N fs)
         (assigned tol max))
      (bearing_capacity dp (abc_4_cohl_soils.BowlesABC4PadFoundation N fs)
         (assigned tol max))
  ∧ (∃ mat, bearing_capacity dp (abc_4_cohl_soils.MeyerhofABC4MatFoundation N fs)
              (assigned tol max) = Returns mat
            ∧ 0 <= mat)
  ∧ outcome_le
      (bearing_capacity dp (abc_4_cohl_soils.MeyerhofABC4MatFoundation N fs)
         (assigned tol max))
      (bearing_capacity dp (abc_4_cohl_soils.MeyerhofABC4PadFoundation N fs)
         (assigned tol max)).
Proof.
  intros HD HB HN Htol Hmax.
  rewrite bowles_pad_value, bowles_mat_value, meyerhof_pad_value,
    meyerhof_mat_value by lra.
  destruct (depth_factor_range (depth fs) (width fs) 0.33 HD HB ltac:(lra))
    as [[HF1 _] _].
  replace (1 + 0.33) with 1.33 in HF1 by lra.
  set (FD := Rmin _ 1.33) in *.
  assert (0 <= tol / max) as HSR.
  { apply Rmult_le_pos; [lra | left; now apply Rinv_0_lt_compat]. }
  set (SR := tol / max) in *.
  pose proof (width_correction_ge_1 (width fs) HB) as Hr.
  set (r := ((3.28 * width fs + 1) / (3.28 * width fs)) ^ 2) in *.
  clearbody FD SR r.
  assert (0 <= N * FD * SR) as Hp by (repeat apply Rmult_le_pos; lra).
  assert (N * FD * SR <= N * r * FD * SR) as Hpr.
  { replace (N * r * FD * SR) with (r * (N * FD * SR)) by ring. nra. }
  cbn.
  assert (11.98 * N * FD * SR <= 19.16 * N * FD * SR) by nra.
  assert (8 * N * FD * SR <= 12 * N * FD * SR) by nra.
  assert (11.98 * N * FD * SR <= 11.98 * N * r * FD * SR) by nra.
  assert (8 * N * FD * SR <= 8 * N * r * FD * SR) by nra.
  split; [eexists; split; [reflexivity | apply round_nonneg; lra]|].
  split; [apply round_mono; case_decide; lra|].
  split; [eexists; split; [reflexivity | apply round_nonneg; lra]|].
  apply round_mono; case_decide; lra.
Qed.

Lemma pad_carries_at_least_mat_witness :
  outcome_le
    (bearing_capacity 2 (abc_4_cohl_soils.BowlesABC4MatFoundation 17 square_2m)
       (assigned 20 25.4))
    (bearing_capacity 2 (abc_4_cohl_soils.BowlesABC4PadFoundation 17 square_2m)
       (assigned 20 25.4)).
Proof.
  destruct (pad_carries_at_least_mat 2 17 20 25.4 square_2m)
    as (_ & H & _); [cbn; lra | unfold width; cbn; lra | lra | lra | lra |].
  exact H.
Defined.

(** X25: the depth factor of Bowles and Meyerhof is capped at 1.33: on a
    footing of positive width, every depth from the width upwards gives
    the same allowable capacity, for the pad and the mat of both
    methods. *)
Theorem depth_factor_is_capped (dp : nat) (N tol max D1 D2 e : R)
    (f : FootingSize) :
  max ≠ 0 → 0 < footing_width f →
  footing_width f <= D1 → footing_width f <= D2 →
  let fs1 := mkFoundationSize D1 f e in
  let fs2 := mkFoundationSize D2 f e in
  bearing_capacity dp (abc_4_cohl_soils.BowlesABC4PadFoundation N fs1)
    (assigned tol max)
  = bearing_capacity dp (abc_4_cohl_soils.BowlesABC4PadFoundation N fs2)
      (assigned tol max)
  ∧ bearing_capacity dp (abc_4_cohl_soils.BowlesABC4MatFoundation N fs1)
      (assigned tol max)
    = bearing_capacity dp (abc_4_cohl_soils.BowlesABC4MatFoundation N fs2)
        (assigned tol max)
  ∧ bearing_capacity dp (abc_4_cohl_soils.MeyerhofABC4PadFoundation N fs1)
      (assigned tol max)
    = bearing_capacity dp (abc_4_cohl_soils.MeyerhofABC4PadFoundation N fs2)
        (assigned tol max)
  ∧ bearing_capacity dp (abc_4_cohl_soils.MeyerhofABC4MatFoundation N fs1)
      (assigned tol max)
    = bearing_capacity dp (abc_4_cohl_soils.MeyerhofABC4MatFoundation N fs2)
        (assigned tol max).
Proof.
  intros Hmax HB H1 H2 fs1 fs2.
  rewrite !bowles_pad_value, !bowles_mat_value, !meyerhof_pad_value,
    !meyerhof_mat_value by (assumption || (unfold width; cbn; lra)).
  unfold fs1, fs2, width. cbn [depth footing_size].
  destruct (depth_factor_range D1 (footing_width f) 0.33
              ltac:(lra) ltac:(lra) ltac:(lra)) as [_ HF1].
  destruct (depth_factor_range D2 (footing_width f) 0.33
              ltac:(lra) ltac:(lra) ltac:(lra)) as [_ HF2].
  replace (1 + 0.33) with 1.33 in HF1, HF2 by lra.
  rewrite (HF1 H1), (HF2 H2). auto.
Qed.

Lemma depth_factor_is_capped_witness :
  bearing_capacity 2
    (abc_4_cohl_soils.BowlesABC4PadFoundation 17
       (mkFoundationSize 1.5 (mkSquareFooting 1.2) 0)) (assigned 20 25.4)
  = bearing_capacity 2
      (abc_4_cohl_soils.BowlesABC4PadFoundation 17
         (mkFoundationSize 3 (mkSquareFooting 1.2) 0)) (assigned 20 25.4).
Proof.
  destruct (depth_factor_is_capped 2 17 20 25.4 1.5 3 0 (mkSquareFooting 1.2))
    as [H _]; [lra | cbn; lra | cbn; lra | cbn; lra |].
  exact H.
Defined.

Section terzaghi_peck.
Variable dp : nat.
Variables (N tol max wd : R) (fs : FoundationSize).
Let B := width fs.
Let D := depth fs.
Let FD := Rmin (1 + 0.25 * D / B) 1.25.
Let CW := Rmin (2 - (if decide (wd <= D) then D else wd) / (2 * B)) 2.
Let SR := tol / max.
Hypothesis width_pos : B > 0.
Hypothesis max_nonzero : max ≠ 0.

Lemma terzaghi_water_correction :
  water_correction (abc_4_cohl_soils.TerzaghiABC4PadFoundation N fs wd) B D
  = Returns CW
  ∧ water_correction (abc_4_cohl_soils.TerzaghiABC4MatFoundation N fs wd) B D
    = Returns CW.
Proof.
  unfold water_correction. cbn [water_depth mbind outcome_bind].
  unfold CW. case_decide; rewrite truediv_Ok by lra; split; reflexivity.
Qed.

Lemma terzaghi_pad_value :
  CW * FD ≠ 0 →
  bearing_capacity dp (abc_4_cohl_soils.TerzaghiABC4PadFoundation N fs wd)
    (assigned tol max)
  = Returns (round (if decide (B <= 1.2) then 12 * N * (1 / (CW * FD)) * SR
                    else 8 * N * ((3.28 * B + 1) / (3.28 * B)) ^ 2
                         * (1 / (CW * FD)) * SR) dp).
Proof.
  intros Hnz.
  cbn [bearing_capacity]. unfold TerzaghiABC4PadFoundation_bearing_capacity.
  rewrite get_attributes_assigned by exact max_nonzero.
  cbn [foundation_size corrected_spt_number]. fold B D.
  unfold round_. cbn [mbind outcome_bind mret outcome_ret].
  rewrite (truediv_Ok (0.25 * D) B) by lra. cbn [lift].
  rewrite (proj1 terzaghi_water_correction).
  cbn [mbind outcome_bind mret outcome_ret]. fold FD.
  rewrite (truediv_Ok 1 (CW * FD)) by exact Hnz. cbn [lift].
  case_decide; [reflexivity|].
  rewrite truediv_Ok by lra. reflexivity.
Qed.

Lemma terzaghi_mat_value :
  CW * FD ≠ 0 →
  bearing_capacity dp (abc_4_cohl_soils.TerzaghiABC4MatFoundation N fs wd)
    (assigned tol max)
  = Returns (round (8 * N * (1 / (CW * FD)) * SR) dp).
Proof.
  intros Hnz.
  cbn [bearing_capacity]. unfold TerzaghiABC4MatFoundation_bearing_capacity.
  rewrite get_attributes_assigned by exact max_nonzero.
  cbn [foundation_size corrected_spt_number]. fold B D.
  unfold round_. cbn [mbind outcome_bind mret outcome_ret].
  rewrite (truediv_Ok (0.25 * D) B) by lra. cbn [lift].
  rewrite (proj2 terzaghi_water_correction).
  cbn [mbind outcome_bind mret outcome_ret]. fold FD.
  rewrite (truediv_Ok 1 (CW * FD)) by exact Hnz. reflexivity.
Qed.

Lemma terzaghi_zero_correction :
  CW = 0 →
  bearing_capacity dp (abc_4_cohl_soils.TerzaghiABC4PadFoundation N fs wd)
    (assigned tol max)
  = Raises (Exn ZeroDivisionError)
  ∧ bearing_capacity dp (abc_4_cohl_soils.TerzaghiABC4MatFoundation N fs wd)
      (assigned tol max)
    = Raises (Exn ZeroDivisionError).
Proof.
  intros Hz.
  cbn [bearing_capacity].
  unfold TerzaghiABC4PadFoundation_bearing_capacity,
    TerzaghiABC4MatFoundation_bearing_capacity.
  rewrite !get_attributes_assigned by exact max_nonzero.
  cbn [foundation_size corrected_spt_number]. fold B D.
  unfold round_. cbn [mbind outcome_bind mret outcome_ret].
  rewrite (truediv_Ok (0.25 * D) B) by lra. cbn [lift].
  rewrite (proj1 terzaghi_water_correction),
    (proj2 terzaghi_water_correction).
  cbn [mbind outcome_bind mret outcome_ret].
  rewrite Hz, Rmult_0_l, truediv_zero. cbn [lift].
  split; [|reflexivity].
  case_decide; [reflexivity|].
  rewrite truediv_Ok by lra. reflexivity.
Qed.
End terzaghi_peck.

Lemma terzaghi_depth_factor (fs : FoundationSize) :
  depth fs > 0 → width fs > 0 →
  1 <= Rmin (1 + 0.25 * depth fs / width fs) 1.25.
Proof.
  intros HD HB.
  destruct (depth_factor_range (depth fs) (width fs) 0.25 HD HB ltac:(lra))
    as [[HF _] _].
  replace (1 + 0.25) with 1.25 in HF by lra. exact HF.
Qed.

(** X26: the two methods of Terzaghi and Peck divide by the water
    correction [CW], which is zero when the deeper of the water depth and
    the foundation depth is four times the width: [bearing_capacity] then
    raises [ZeroDivisionError], for the pad and for the mat. *)
Theorem terzaghi_peck_division_by_zero (dp : nat) (N tol max wd : R)
    (fs : FoundationSize) :
  width fs > 0 → max ≠ 0 →
  (wd <= depth fs ∧ depth fs = 4 * width fs)
  ∨ (depth fs < wd ∧ wd = 4 * width fs) →
  bearing_capacity dp (abc_4_cohl_soils.TerzaghiABC4PadFoundation N fs wd)
    (assigned tol max)
  = Raises (Exn ZeroDivisionError)
  ∧ bearing_capacity dp (abc_4_cohl_soils.TerzaghiABC4MatFoundation N fs wd)
      (assigned tol max)
    = Raises (Exn ZeroDivisionError).
Proof.
  intros HB Hmax Hz.
  apply terzaghi_zero_correction; [exact HB | exact Hmax |].
  assert ((if decide (wd <= depth fs) then depth fs else wd) = 4 * width fs)
    as ->.
  { case_decide; lra. }
  replace (2 - 4 * width fs / (2 * width fs)) with 0 by (field; lra).
  apply Rmin_left. lra.
Qed.

Lemma terzaghi_peck_division_by_zero_witness :
  bearing_capacity 2
    (abc_4_cohl_soils.TerzaghiABC4PadFoundation 17
       (mkFoundationSize 4 (mkSquareFooting 1) 0) 1.2)
    (assigned 20 25.4)
  = Raises (Exn ZeroDivisionError).
Proof.
  destruct (terzaghi_peck_division_by_zero 2 17 20 25.4 1.2
              (mkFoundationSize 4 (mkSquareFooting 1) 0)) as [H _];
    [unfold width; cbn; lra | lra | left; unfold width; cbn; lra |].
  exact H.
Defined.

Section terzaghi_peck_sign.
Variables (N tol max wd : R) (fs : FoundationSize).
Let B := width fs.
Let D := depth fs.
Let FD := Rmin (1 + 0.25 * D / B) 1.25.
Let z := if decide (wd <= D) then D else wd.
Let CW := Rmin (2 - z / (2 * B)) 2.
Hypothesis depth_pos : D > 0.
Hypothesis width_pos : B > 0.

Lemma terzaghi_correction_value : CW = 2 - z / (2 * B).
Proof.
  unfold CW. apply Rmin_left.
  assert (0 < z) as Hz by (unfold z; case_decide; lra).
  assert (0 < z / (2 * B)) by (apply Rdiv_lt_0_compat; lra).
  lra.
Qed.

Lemma terzaghi_correction_pos : z < 4 * B → 0 < CW * FD.
Proof.
  intros Hz. rewrite terzaghi_correction_value.
  pose proof (terzaghi_depth_factor fs depth_pos width_pos) as HF.
  fold B D FD in HF.
  assert (z / (2 * B) < 2).
  { apply Rmult_lt_reg_r with (2 * B); [lra|].
    replace (z / (2 * B) * (2 * B)) with z by (field; lra). lra. }
  apply Rmult_lt_0_compat; lra.
Qed.

Lemma terzaghi_correction_neg : 4 * B < z → CW * FD < 0.
Proof.
  intros Hz. rewrite terzaghi_correction_value.
  pose proof (terzaghi_depth_factor fs depth_pos width_pos) as HF.
  fold B D FD in HF.
  assert (2 < z / (2 * B)).
  { apply Rmult_lt_reg_r with (2 * B); [lra|].
    replace (z / (2 * B) * (2 * B)) with z by (field; lra). lra. }
  assert (0 < (z / (2 * B) - 2) * FD) by (apply Rmult_lt_0_compat; lra).
  lra.
Qed.
End terzaghi_peck_sign.

(** X27: with the deeper of the water depth and the foundation depth
    below four times the width, a non-negative SPT number and settlement
    and a positive [MAX_TOL_SETTLEMENT], the mat capacity of Terzaghi and
    Peck is returned, is not negative, and is at most the pad capacity. *)
Theorem terzaghi_peck_capacity (dp : nat) (N tol max wd : R)
    (fs : FoundationSize) :
  depth fs > 0 → width fs > 0 → 0 <= N → 0 <= tol → 0 < max →
  depth fs < 4 * width fs → wd < 4 * width fs →
  (∃ mat,
     bearing_capacity dp (abc_4_cohl_soils.TerzaghiABC4MatFoundation N fs wd)
       (assigned tol max) = Returns mat
     ∧ 0 <= mat)
  ∧ outcome_le
      (bearing_capacity dp (abc_4_cohl_soils.TerzaghiABC4MatFoundation N fs wd)
         (assigned tol max))
      (bearing_capacity dp (abc_4_cohl_soils.TerzaghiABC4PadFoundation N fs wd)
         (assigned tol max)).
Proof.
  intros HD HB HN Htol Hmax HD4 Hw4.
  pose proof (terzaghi_correction_pos wd fs HD HB
                ltac:(case_decide; lra)) as Hc.
  rewrite terzaghi_pad_value, terzaghi_mat_value
    by first [exact HB | lra | apply Rgt_not_eq; exact Hc].
  set (c := Rmin _ 2 * Rmin _ 1.25) in *.
  assert (0 < 1 / c) as Hi.
  { unfold Rdiv. rewrite Rmult_1_l. now apply Rinv_0_lt_compat. }
  set (i := 1 / c) in *.
  assert (0 <= tol / max) as HSR.
  { apply Rmult_le_pos; [lra | left; now apply Rinv_0_lt_compat]. }
  set (SR := tol / max) in *.
  pose proof (width_correction_ge_1 (width fs) HB) as Hr.
  set (r := ((3.28 * width fs + 1) / (3.28 * width fs)) ^ 2) in *.
  clearbody i SR r.
  assert (0 <= N * i * SR) as Hp by (repeat apply Rmult_le_pos; lra).
  assert (N * i * SR <= N * r * i * SR) as Hpr.
  { replace (N * r * i * SR) with (r * (N * i * SR)) by ring. nra. }
  cbn.
  split; [eexists; split; [reflexivity | apply round_nonneg; lra]|].
  apply round_mono; case_decide; lra.
Qed.

Lemma terzaghi_peck_capacity_witness :
  outcome_le
    (bearing_capacity 2
       (abc_4_cohl_soils.TerzaghiABC4MatFoundation 17 square_2m 1.2)
       (assigned 20 25.4))
    (bearing_capacity 2
       (abc_4_cohl_soils.TerzaghiABC4PadFoundation 17 square_2m 1.2)
       (assigned 20 25.4)).
Proof.
  destruct (terzaghi_peck_capacity 2 17 20 25.4 1.2 square_2m) as [_ H];
    [unfold width; cbn; lra .. |].
  exact H.
Defined.

(** X28: beyond that depth the water correction is negative: with the
    deeper of the water depth and the foundation depth above four times
    the width, the pad and the mat capacity of Terzaghi and Peck are
    returned and are never positive. *)
Theorem terzaghi_peck_capacity_not_positive (dp : nat) (N tol max wd : R)
    (fs : FoundationSize) :
  depth fs > 0 → width fs > 0 → 0 <= N → 0 <= tol → 0 < max →
  4 * width fs < depth fs ∨ 4 * width fs < wd →
  (∃ pad,
     bearing_capacity dp (abc_4_cohl_soils.TerzaghiABC4PadFoundation N fs wd)
       (assigned tol max) = Returns pad
     ∧ pad <= 0)
  ∧ (∃ mat,
       bearing_capacity dp (abc_4_cohl_soils.TerzaghiABC4MatFoundation N fs wd)
         (assigned tol max) = Returns mat
       ∧ mat <= 0).
Proof.
  intros HD HB HN Htol Hmax Hz.
  pose proof (terzaghi_correction_neg wd fs HD HB
                ltac:(case_decide; lra)) as Hc.
  rewrite terzaghi_pad_value, terzaghi_mat_value
    by first [exact HB | lra | apply Rlt_not_eq; exact Hc].
  set (c := Rmin _ 2 * Rmin _ 1.25) in *.
  assert (1 / c < 0) as Hi.
  { unfold Rdiv. rewrite Rmult_1_l. now apply Rinv_lt_0_compat. }
  set (i := 1 / c) in *.
  assert (0 <= tol / max) as HSR.
  { apply Rmult_le_pos; [lra | left; now apply Rinv_0_lt_compat]. }
  set (SR := tol / max) in *.
  pose proof (width_correction_ge_1 (width fs) HB) as Hr.
  set (r := ((3.28 * width fs + 1) / (3.28 * width fs)) ^ 2) in *.
  clearbody i SR r.
  assert (0 <= N * SR) as Hp by (apply Rmult_le_pos; lra).
  assert (N * i * SR <= 0) as Hn.
  { replace (N * i * SR) with (- ((- i) * (N * SR))) by ring.
    assert (0 <= - i * (N * SR)) by (apply Rmult_le_pos; lra). lra. }
  assert (N * r * i * SR <= 0) as Hrn.
  { replace (N * r * i * SR) with (- (r * (- (N * i * SR)))) by ring.
    assert (0 <= r * (- (N * i * SR))) by (apply Rmult_le_pos; lra). lra. }
  split; eexists; (split; [reflexivity|]);
    rewrite <- (round_IZR 0 dp); apply round_mono;
    try case_decide; lra.
Qed.

Lemma terzaghi_peck_capacity_not_positive_witness :
  ∃ pad,
    bearing_capacity 2
      (abc_4_cohl_soils.TerzaghiABC4PadFoundation 17
         (mkFoundationSize 5 (mkSquareFooting 1) 0) 1.2)
      (assigned 20 25.4) = Returns pad
    ∧ pad <= 0.
Proof.
  destruct (terzaghi_peck_capacity_not_positive 2 17 20 25.4 1.2
              (mkFoundationSize 5 (mkSquareFooting 1) 0)) as [H _];
    [unfold width; cbn; lra .. | left; unfold width; cbn; lra |].
  exact H.
Defined.
